(** * xtract_attachment: a shallow embedding of [xtract_attachment.py]

    The program extracts base64 attachments from "Fattura Elettronica" XML
    files.  Python values are embedded as follows.

    - a [str] is the list of its Unicode code points, a [bytes] object the
      list of its byte values; both are lists over [N];
    - the compiled patterns of the [regex] table are programs of a small
      backtracking matcher that follows the [sre] engine on the constructs
      the table uses (literals, [\s], [.], a character set, greedy and lazy
      single-character repeats, one capture group);
    - [base64.b64decode] follows [binascii.a2b_base64] of CPython 3.6, the
      interpreter the program's docstring names;
    - [os.path] is [posixpath];
    - the file system and the diagnostic stream are explicit state, threaded
      through a small state-and-exception monad. *)

From Stdlib Require Import Ascii String DecimalString.
From Stdlib Require Import List NArith ZArith Lia Bool Arith.
Import ListNotations.

Set Implicit Arguments.

(* ================================================================== *)
(** * Strings and bytes *)

Definition str := list N.
Definition bytes := list N.

(** the code point of an ASCII character *)
Definition chr (a : ascii) : N := N_of_ascii a.

(** a [str] literal *)
Definition lit (s : string) : str := map chr (list_ascii_of_string s).

Definition str_eqb (a b : str) : bool :=
  if list_eq_dec N.eq_dec a b then true else false.

(** [str(n)] for a non-negative [int] *)
Definition str_of_nat (n : nat) : str :=
  lit (NilZero.string_of_uint (Nat.to_uint n)).

Fixpoint startswith (p s : str) : bool :=
  match p, s with
  | [], _ => true
  | _ :: _, [] => false
  | a :: p', b :: s' => (a =? b)%N && startswith p' s'
  end.

(** [s.endswith(p)] *)
Definition endswith (s p : str) : bool := startswith (rev p) (rev s).

(** [s.rfind(c)] for a one-character [c]: the last index of [c], or [-1] *)
Fixpoint rfind (c : N) (s : str) : Z :=
  match s with
  | [] => (-1)%Z
  | x :: s' =>
      let r := rfind c s' in
      if (0 <=? r)%Z then (r + 1)%Z
      else if (x =? c)%N then 0%Z else (-1)%Z
  end.

(** [s.rstrip(c)] for a one-character [c] *)
Definition rstrip (c : N) (s : str) : str :=
  rev ((fix drop (l : str) : str :=
          match l with
          | x :: l' => if (x =? c)%N then drop l' else l
          | [] => []
          end) (rev s)).

(** [Py_UNICODE_ISSPACE]: the characters [str.isspace] accepts *)
Definition Py_UNICODE_ISSPACE (c : N) : bool :=
  ((9 <=? c) && (c <=? 13) || (28 <=? c) && (c <=? 32)
   || (c =? 133) || (c =? 160) || (c =? 5760)
   || (8192 <=? c) && (c <=? 8202)
   || (c =? 8232) || (c =? 8233) || (c =? 8239) || (c =? 8287)
   || (c =? 12288))%N.

(* ================================================================== *)
(** * The [re] module: a backtracking matcher *)

Inductive set_item :=
| Range (lo hi : N)      (* a-z *)
| Single (c : N)         (* +  *)
| CategorySpace.         (* \s *)

Inductive charset :=
| Dot (dotall : bool)    (* . ; with re.S it also matches a newline *)
| Space                  (* \s *)
| OneOf (items : list set_item).   (* [...] *)

Inductive node :=
| Lit (c : N)
| Repeat (lo : nat) (hi : option nat) (greedy : bool) (cs : charset)
| Mark (n : nat).        (* 2g-2 opens group g, 2g-1 closes it *)

Definition pattern := list node.

Definition in_item (c : N) (i : set_item) : bool :=
  match i with
  | Range lo hi => ((lo <=? c) && (c <=? hi))%N
  | Single x => (c =? x)%N
  | CategorySpace => Py_UNICODE_ISSPACE c
  end.

Definition in_charset (cs : charset) (c : N) : bool :=
  match cs with
  | Dot dotall => dotall || negb (c =? 10)%N
  | Space => Py_UNICODE_ISSPACE c
  | OneOf items => existsb (in_item c) items
  end.

Definition room (hi : option nat) : bool :=
  match hi with Some O => false | _ => true end.

(** One single-character repeat followed by the rest of the pattern [k].
    A greedy repeat tries the longest run first and gives characters back
    one at a time; a lazy one tries the shortest run first. *)
Fixpoint rep (A : Type) (p : N -> bool) (greedy : bool)
    (lo : nat) (hi : option nat) (s : str) (k : str -> option A)
    {struct s} : option A :=
  match lo with
  | S lo' =>
      match s with
      | c :: s' =>
          if room hi && p c
          then rep p greedy lo' (option_map pred hi) s' k
          else None
      | [] => None
      end
  | O =>
      match s with
      | c :: s' =>
          if room hi && p c then
            if greedy then
              match rep p greedy O (option_map pred hi) s' k with
              | Some r => Some r
              | None => k s
              end
            else
              match k s with
              | Some r => Some r
              | None => rep p greedy O (option_map pred hi) s' k
              end
          else k s
      | [] => k s
      end
  end.

(** the subject text that was left when each mark was passed *)
Definition marks := list (nat * str).

(** [match_here r ms s]: match [r] at the start of [s]; the result is the
    marks and the text after the match. *)
Fixpoint match_here (r : pattern) (ms : marks) (s : str)
    : option (marks * str) :=
  match r with
  | [] => Some (ms, s)
  | Lit c :: r' =>
      match s with
      | x :: s' => if (x =? c)%N then match_here r' ms s' else None
      | [] => None
      end
  | Mark n :: r' => match_here r' ((n, s) :: ms) s
  | Repeat lo hi greedy cs :: r' =>
      rep (in_charset cs) greedy lo hi s (fun s' => match_here r' ms s')
  end.

Fixpoint find_mark (n : nat) (ms : marks) : option str :=
  match ms with
  | [] => None
  | (m, s) :: ms' => if Nat.eqb m n then Some s else find_mark n ms'
  end.

(** a match object: the text from the start of the match, the marks, and
    the text after the match *)
Record Match := mkMatch { m_from : str; m_marks : marks; m_rest : str }.

(** [m.group(1)]: the text between the two marks of group 1.  Every
    pattern of the [regex] table passes both marks before it succeeds, so
    the group takes part in every match. *)
Definition group1 (m : Match) : str :=
  match find_mark 0 (m_marks m), find_mark 1 (m_marks m) with
  | Some a, Some b => firstn (length a - length b) a
  | _, _ => []
  end.

(** length of [m.group(0)] *)
Definition match_len (m : Match) : nat :=
  length (m_from m) - length (m_rest m).

Definition re_match (r : pattern) (s : str) : option Match :=
  match match_here r [] s with
  | Some (ms, rest) => Some (mkMatch s ms rest)
  | None => None
  end.

(** [r.search(s)]: the match at the leftmost position that has one *)
Fixpoint re_search (r : pattern) (s : str) : option Match :=
  match re_match r s with
  | Some m => Some m
  | None =>
      match s with
      | [] => None
      | _ :: s' => re_search r s'
      end
  end.

(** [r.findall(s)] for a pattern with one group: the group of every match,
    scanning left to right, each search starting where the previous match
    ended ([skip] counts the characters of the previous match still to be
    passed; after an empty match the scan moves on by one character). *)
Fixpoint findall_from (r : pattern) (skip : nat) (s : str) : list str :=
  match skip with
  | S n =>
      match s with
      | [] => []
      | _ :: s' => findall_from r n s'
      end
  | O =>
      match re_match r s with
      | Some m =>
          group1 m ::
          match s with
          | [] => []
          | _ :: s' => findall_from r (pred (match_len m)) s'
          end
      | None =>
          match s with
          | [] => []
          | _ :: s' => findall_from r O s'
          end
      end
  end.

Definition re_findall (r : pattern) (s : str) : list str :=
  findall_from r O s.

(* ------------------------------------------------------------------ *)
(** ** The [regex] table (compiled with [re.X], so the layout white space
       of the source patterns is not part of them) *)

Definition ws : node := Repeat 0 None true Space.          (* \s* *)

Definition word (name : str) : pattern := map Lit name.

(** <\s*name\s*> *)
Definition open_tag (name : str) : pattern :=
  Lit (chr "<") :: ws :: word name ++ [ws; Lit (chr ">")].

(** <\s*/\s*name\s*> *)
Definition close_tag (name : str) : pattern :=
  Lit (chr "<") :: ws :: Lit (chr "/") :: ws :: word name
    ++ [ws; Lit (chr ">")].

(** (body) *)
Definition group (body : node) : pattern := [Mark 0; body; Mark 1].

Inductive regex_key :=
  allegati | nome | algoritmo | formato | descrizione | allegato.

(** [a-zA-Z0-9+/=\s] *)
Definition base64_set : charset :=
  OneOf [Range (chr "a") (chr "z"); Range (chr "A") (chr "Z");
         Range (chr "0") (chr "9"); Single (chr "+"); Single (chr "/");
         Single (chr "="); CategorySpace].

Definition regex (k : regex_key) : pattern :=
  match k with
  | allegati =>
      open_tag (lit "Allegati")
        ++ group (Repeat 0 None false (Dot true))
        ++ close_tag (lit "Allegati")
  | nome =>
      open_tag (lit "NomeAttachment")
        ++ ws :: group (Repeat 1 (Some 60) false (Dot false)) ++ ws
        :: close_tag (lit "NomeAttachment")
  | algoritmo =>
      open_tag (lit "AlgoritmoCompressione")
        ++ ws :: group (Repeat 1 (Some 10) false (Dot false)) ++ ws
        :: close_tag (lit "AlgoritmoCompressione")
  | formato =>
      open_tag (lit "FormatoAttachment")
        ++ ws :: group (Repeat 1 (Some 10) false (Dot false)) ++ ws
        :: close_tag (lit "FormatoAttachment")
  | descrizione =>
      open_tag (lit "DescrizioneAttachment")
        ++ group (Repeat 1 (Some 100) false (Dot false))
        ++ close_tag (lit "DescrizioneAttachment")
  | allegato =>
      open_tag (lit "Attachment")
        ++ group (Repeat 0 None false base64_set)
        ++ close_tag (lit "Attachment")
  end.

(* ================================================================== *)
(** * [list_attachments] *)

Definition list_attachments (file : str * str) : list (str * str) :=
  let (path, xml) := file in
  let found := re_findall (regex allegati) xml in
  map (fun allegato => (path, allegato)) found.

(* ================================================================== *)
(** * Exceptions *)

Inductive exception_class :=
| AttributeError | ValueError | binascii_Error | UnicodeDecodeError
| UnicodeEncodeError
| OSError_class   (* [OSError] itself, for an errno without a subclass *)
| FileNotFoundError | NotADirectoryError | IsADirectoryError
| FileExistsError | PermissionError.

(** An exception object: an instance of a subclass of [Exception] with
    the text [str(ex)] gives, or the [SystemExit] that [exit(code)] raises
    (a [BaseException] that [except Exception] does not catch). *)
Inductive exn :=
| Exception (cls : exception_class) (msg : str)
| SystemExit (code : Z).

Inductive result (A : Type) :=
| Ok (a : A)
| Raise (e : exn).
Arguments Ok {A} a.
Arguments Raise {A} e.

(** [str(ex)] *)
Definition exn_str (e : exn) : str :=
  match e with
  | Exception _ msg => msg
  | SystemExit code =>
      match code with
      | Zneg _ => chr "-" :: str_of_nat (Z.to_nat (- code))
      | _ => str_of_nat (Z.to_nat code)
      end
  end.

(** what [None.group(1)] raises *)
Definition NoneType_has_no_group : exn :=
  Exception AttributeError
    (lit "'NoneType' object has no attribute 'group'").

(** [m.group(1)] where [m] is the result of a search, [None] or a match *)
Definition group_1 (m : option Match) : result str :=
  match m with
  | Some m => Ok (group1 m)
  | None => Raise NoneType_has_no_group
  end.

(* ================================================================== *)
(** * [base64.b64decode] (CPython 3.6: [Lib/base64.py],
      [Modules/binascii.c]) *)

Definition BASE64_PAD : N := chr "=".

(** [table_a2b_base64]; the entries [-1] are [None].  The pad character
    has the entry 0. *)
Definition table_a2b_base64 (c : N) : option N :=
  (if (chr "A" <=? c) && (c <=? chr "Z") then Some (c - chr "A")
   else if (chr "a" <=? c) && (c <=? chr "z") then Some (c - chr "a" + 26)
   else if (chr "0" <=? c) && (c <=? chr "9") then Some (c - chr "0" + 52)
   else if c =? chr "+" then Some 62
   else if c =? chr "/" then Some 63
   else if c =? BASE64_PAD then Some 0
   else None)%N.

Definition is_some (A : Type) (o : option A) : bool :=
  match o with Some _ => true | None => false end.

(** [binascii_find_valid(s, slen, num)]: the [num+1]-th valid character
    of [s], or [-1] ([None]) *)
Fixpoint binascii_find_valid (s : bytes) (num : nat) : option N :=
  match s with
  | [] => None
  | c :: s' =>
      if (c <=? 127)%N && is_some (table_a2b_base64 (N.land c 127)) then
        match num with
        | O => Some c
        | S num' => binascii_find_valid s' num'
        end
      else binascii_find_valid s' num
  end.

Definition uint32 (x : N) : N := N.land x 4294967295.

Definition opt_N_eqb (a : option N) (b : N) : bool :=
  match a with Some x => (x =? b)%N | None => false end.

(** The loop of [binascii_a2b_base64_impl].  The result is the final
    [leftbits] and the bytes written. *)
Fixpoint a2b_loop (ascii_data : bytes) (leftbits leftchar quad_pos : N)
    (bin_data : bytes) : N * bytes :=
  match ascii_data with
  | [] => (leftbits, bin_data)
  | this_ch :: rest =>
      if ((127 <? this_ch) || (this_ch =? 13) || (this_ch =? 10)
          || (this_ch =? 32))%N
      then a2b_loop rest leftbits leftchar quad_pos bin_data
      else if (this_ch =? BASE64_PAD)%N then
        if (quad_pos <? 2)%N
           || ((quad_pos =? 2)%N
               && negb (opt_N_eqb (binascii_find_valid ascii_data 1)
                                  BASE64_PAD))
        then a2b_loop rest leftbits leftchar quad_pos bin_data
        else (0%N, bin_data)
      else
        match table_a2b_base64 this_ch with
        | None => a2b_loop rest leftbits leftchar quad_pos bin_data
        | Some v =>
            let quad_pos := N.land (quad_pos + 1) 3 in
            let leftchar := uint32 (N.lor (N.shiftl leftchar 6) v) in
            let leftbits := (leftbits + 6)%N in
            if (8 <=? leftbits)%N then
              let leftbits := (leftbits - 8)%N in
              a2b_loop rest leftbits
                (N.land leftchar (N.shiftl 1 leftbits - 1)) quad_pos
                (bin_data ++ [N.land (N.shiftr leftchar leftbits) 255])
            else a2b_loop rest leftbits leftchar quad_pos bin_data
        end
  end.

Definition a2b_base64 (data : bytes) : result bytes :=
  let (leftbits, bin_data) := a2b_loop data 0 0 0 [] in
  if (leftbits =? 0)%N then Ok bin_data
  else Raise (Exception binascii_Error (lit "Incorrect padding")).

(** [base64.b64decode(s)] for a [str] argument: [s.encode('ascii')], then
    [binascii.a2b_base64] *)
Definition b64decode (s : str) : result bytes :=
  if forallb (fun c => (c <? 128)%N) s then a2b_base64 s
  else Raise (Exception ValueError
                (lit "string argument should contain only ASCII characters")).

(** The branch of the loop of [a2b_loop] for a character with the value
    [v]: the new [leftbits], [leftchar], [quad_pos], and the byte written,
    if one is. *)
Definition shift_in (v leftbits leftchar quad_pos : N)
    : N * N * N * option N :=
  let quad_pos := N.land (quad_pos + 1) 3 in
  let leftchar := uint32 (N.lor (N.shiftl leftchar 6) v) in
  let leftbits := (leftbits + 6)%N in
  if (8 <=? leftbits)%N then
    let leftbits := (leftbits - 8)%N in
    (leftbits, N.land leftchar (N.shiftl 1 leftbits - 1), quad_pos,
     Some (N.land (N.shiftr leftchar leftbits) 255))
  else (leftbits, leftchar, quad_pos, None).

(** a [bytes] object holds values below 256 *)
Definition is_bytes (b : bytes) : bool := forallb (fun x => (x <? 256)%N) b.

(** The standard encoding ([base64.b64encode], RFC 4648 section 4), the
    encoding the payload of an attachment is produced with. *)
Definition table_b2a_base64 : str :=
  lit "ABCDEFGHIJKLMNOPQRSTUVWXYZabcdefghijklmnopqrstuvwxyz0123456789+/".

Definition b2a (v : N) : N := nth (N.to_nat v) table_b2a_base64 0%N.

Fixpoint b64encode (b : bytes) : str :=
  match b with
  | [] => []
  | [x] =>
      [b2a (N.shiftr x 2); b2a (N.shiftl (N.land x 3) 4);
       BASE64_PAD; BASE64_PAD]
  | [x; y] =>
      [b2a (N.shiftr x 2);
       b2a (N.lor (N.shiftl (N.land x 3) 4) (N.shiftr y 4));
       b2a (N.shiftl (N.land y 15) 2); BASE64_PAD]
  | x :: y :: z :: rest =>
      b2a (N.shiftr x 2)
      :: b2a (N.lor (N.shiftl (N.land x 3) 4) (N.shiftr y 4))
      :: b2a (N.lor (N.shiftl (N.land y 15) 2) (N.shiftr z 6))
      :: b2a (N.land z 63)
      :: b64encode rest
  end.

(* ================================================================== *)
(** * [os.path] ([posixpath]) *)

Definition sep : N := chr "/".
Definition extsep : N := chr ".".

(** [posixpath.split] *)
Definition os_path_split (p : str) : str * str :=
  let i := Z.to_nat (rfind sep p + 1) in
  let head := firstn i p in
  let tail := skipn i p in
  let head :=
    if negb (str_eqb head []) && negb (str_eqb head (repeat sep (length head)))
    then rstrip sep head else head in
  (head, tail).

(** the loop of [genericpath._splitext] that skips leading dots:
    [filenameIndex] runs over [n] positions of [s] *)
Fixpoint all_extsep (n : nat) (s : str) : bool :=
  match n, s with
  | O, _ => true
  | S n', c :: s' => (c =? extsep)%N && all_extsep n' s'
  | S _, [] => false
  end.

(** [posixpath.splitext] *)
Definition os_path_splitext (p : str) : str * str :=
  let sepIndex := rfind sep p in
  let dotIndex := rfind extsep p in
  if (sepIndex <? dotIndex)%Z then
    let filenameIndex := Z.to_nat (sepIndex + 1) in
    if all_extsep (Z.to_nat dotIndex - filenameIndex) (skipn filenameIndex p)
    then (p, [])
    else (firstn (Z.to_nat dotIndex) p, skipn (Z.to_nat dotIndex) p)
  else (p, []).

(** [posixpath.join(a, b)] *)
Definition os_path_join (a b : str) : str :=
  if startswith [sep] b then b
  else if str_eqb a [] || endswith a [sep] then a ++ b
  else a ++ sep :: b.

(* ================================================================== *)
(** * [yield_decoded_attachment] *)

(** What the generator does, in order: it yields a tuple
    [(dirname, filename, attachment)] or prints a line to [sys.stderr]. *)
Inductive event :=
| Yield (item : str * str * bytes)
| Print (text : str).

Definition dquote : str := [34%N].

Section Decoder.

(** [str.lower] *)
Variable str_lower : str -> str.

(** lines 156-164: the name of the attachment *)
Definition attachment_name (idx : nat) (path attachment : str) : str :=
  let basename := snd (os_path_split path) in
  let nome_ := re_search (regex nome) attachment in
  match group_1 nome_ with
  | Ok g => g
  | Raise _ =>
      let basename_ := fst (os_path_splitext basename) in
      basename_ ++ lit "_allegato_" ++ str_of_nat (idx + 1)
  end.

(** lines 178-185: the extension *)
Definition attachment_ext (attachment : str) (attachment_ : bytes) : str :=
  if str_eqb (firstn 5 attachment_) (lit "%PDF-") then lit "pdf"
  else
    match re_search (regex formato) attachment with
    | Some ext => str_lower (group1 ext)
    | None => lit "formatoSconosciuto"
    end.

(** lines 155 and 166-168: the payload, searched and decoded *)
Definition decode_payload (attachment : str) : result bytes :=
  let attachment_ := re_search (regex allegato) attachment in
  match group_1 attachment_ with
  | Ok g => b64decode g
  | Raise e => Raise e
  end.

(** the text of line 171 *)
Definition error_line (nome basename : str) (ex : exn) : str :=
  lit "Error decoding " ++ dquote ++ nome ++ dquote ++ lit " in "
    ++ dquote ++ basename ++ dquote ++ lit " : " ++ exn_str ex.

(** One iteration of the loop of [yield_decoded_attachment].  Neither
    [group] nor [b64decode] raises anything but an [Exception], so each
    [except Exception] clause is the [Raise] branch of a [match]. *)
Definition decode_block (idx : nat) (item : str * str) : list event :=
  let (path, attachment) := item in
  let (dirname, basename) := os_path_split path in
  let nome := attachment_name idx path attachment in
  match decode_payload attachment with
  | Raise ex => [Print (error_line nome basename ex)]
  | Ok attachment_ =>
      if str_eqb attachment_ [] then []
      else
        let ext := attachment_ext attachment attachment_ in
        [Yield (dirname, nome ++ lit "." ++ ext, attachment_)]
  end.

(** the loop over [enumerate(attachments)], from index [idx] on *)
Fixpoint decode_from (idx : nat) (attachments : list (str * str))
    : list event :=
  match attachments with
  | [] => []
  | item :: rest => decode_block idx item ++ decode_from (S idx) rest
  end.

Definition yield_decoded_attachment (attachments : list (str * str))
    : list event :=
  decode_from 0 attachments.

End Decoder.

(* ================================================================== *)
(** * The world: file system, working directory, diagnostic stream *)

(** A file-system object.  Of the permissions only those the program can
    trip over are kept: reading and writing a file, listing a directory
    and creating an entry in it.  Symbolic links are not modelled. *)
Inductive inode :=
| RegularFile (readable writable : bool) (data : bytes)
| Directory (readable writable : bool).

(** the names from the root down to an object *)
Definition key := list str.

Definition key_eqb (a b : key) : bool :=
  if list_eq_dec (list_eq_dec N.eq_dec) a b then true else false.

Definition filesystem := list (key * inode).

Fixpoint lookup (fs : filesystem) (k : key) : option inode :=
  match fs with
  | [] => None
  | (k', n) :: fs' => if key_eqb k' k then Some n else lookup fs' k
  end.

(** replace the object at [k], or add it as the newest entry *)
Fixpoint store (fs : filesystem) (k : key) (n : inode) : filesystem :=
  match fs with
  | [] => [(k, n)]
  | (k', n') :: fs' =>
      if key_eqb k' k then (k, n) :: fs' else (k', n') :: store fs' k n
  end.

(** the names of the entries of the directory at [d], in the order of the
    directory *)
Fixpoint children (fs : filesystem) (d : key) : list str :=
  match fs with
  | [] => []
  | (k, _) :: fs' =>
      match rev k with
      | name :: parent =>
          if key_eqb (rev parent) d then name :: children fs' d
          else children fs' d
      | [] => children fs' d
      end
  end.

(** [s.split(c)] for a one-character [c] *)
Fixpoint str_split (c : N) (s : str) : list str :=
  match s with
  | [] => [[]]
  | x :: s' =>
      if (x =? c)%N then [] :: str_split c s'
      else
        match str_split c s' with
        | h :: t => (x :: h) :: t
        | [] => [[x]]
        end
  end.

(** [c.join(l)] *)
Fixpoint str_join (c : N) (l : list str) : str :=
  match l with
  | [] => []
  | [a] => a
  | a :: l' => a ++ c :: str_join c l'
  end.

Definition dot : str := lit ".".
Definition dotdot : str := lit "..".

(** the loop of [posixpath.normpath]; [new_comps] is kept newest first *)
Fixpoint normpath_loop (initial_slashes : nat) (comps new_comps : list str)
    : list str :=
  match comps with
  | [] => rev new_comps
  | comp :: comps' =>
      if str_eqb comp [] || str_eqb comp dot
      then normpath_loop initial_slashes comps' new_comps
      else if negb (str_eqb comp dotdot)
              || (Nat.eqb initial_slashes 0
                  && match new_comps with [] => true | _ => false end)
              || match new_comps with
                 | last :: _ => str_eqb last dotdot
                 | [] => false
                 end
      then normpath_loop initial_slashes comps' (comp :: new_comps)
      else normpath_loop initial_slashes comps' (tl new_comps)
  end.

(** [posixpath.normpath] *)
Definition os_path_normpath (path : str) : str :=
  if str_eqb path [] then dot
  else
    let initial_slashes :=
      if startswith [sep] path then
        if startswith [sep; sep] path && negb (startswith [sep; sep; sep] path)
        then 2 else 1
      else 0 in
    let comps := normpath_loop initial_slashes (str_split sep path) [] in
    let path := repeat sep initial_slashes ++ str_join sep comps in
    if str_eqb path [] then dot else path.

(** [posixpath.abspath], given [os.getcwd()] *)
Definition os_path_abspath (cwd path : str) : str :=
  os_path_normpath
    (if startswith [sep] path then path else os_path_join cwd path).

(** [OSError(errno, strerror, filename)] of class [cls] *)
Definition OSError (cls : exception_class) (errno : nat)
    (strerror : string) (filename : str) : exn :=
  Exception cls
    (lit "[Errno " ++ str_of_nat errno ++ lit "] " ++ lit strerror
     ++ lit ": '" ++ filename ++ lit "'").

Definition ENOENT := OSError FileNotFoundError 2 "No such file or directory".
Definition EACCES := OSError PermissionError 13 "Permission denied".
Definition EEXIST := OSError FileExistsError 17 "File exists".
Definition ENOTDIR := OSError NotADirectoryError 20 "Not a directory".
Definition EISDIR := OSError IsADirectoryError 21 "Is a directory".
Definition ENAMETOOLONG := OSError OSError_class 36 "File name too long".

(** ** A path as the system call gets it

    Python hands a path to a system call as [os.fsencode(path)]: in a
    UTF-8 locale, the UTF-8 encoding with the error handler
    [surrogateescape].  A surrogate from U+DC80 to U+DCFF stands for one
    byte; any other surrogate cannot be encoded.  The encoded path must
    hold no null byte; Linux takes no path of [PATH_MAX] bytes or more and
    looks up no name of more than [NAME_MAX] bytes. *)
Definition PATH_MAX : N := 4096.
Definition NAME_MAX : N := 255.

(** U+D800 to U+DFFF, and U+DC80 to U+DCFF *)
Definition is_surrogate (c : N) : bool := ((55296 <=? c) && (c <=? 57343))%N.
Definition is_escape (c : N) : bool := ((56448 <=? c) && (c <=? 56575))%N.

(** the number of bytes of one character in [os.fsencode] *)
Definition utf8_width (c : N) : N :=
  if (c <? 128)%N then 1%N
  else if (c <? 2048)%N then 2%N
  else if is_escape c then 1%N
  else if (c <? 65536)%N then 3%N
  else 4%N.

(** [len(os.fsencode(s))] *)
Definition fs_length (s : str) : N :=
  fold_right (fun c n => (utf8_width c + n)%N) 0%N s.

(** the first character that cannot be encoded, from the position [i] on:
    its position and the end of the run of surrogates it stands in *)
Fixpoint run_end (i : nat) (s : str) : nat :=
  match s with
  | c :: s' => if is_surrogate c then run_end (S i) s' else i
  | [] => i
  end.

Fixpoint encode_stop (i : nat) (s : str) : option (nat * N * nat) :=
  match s with
  | c :: s' =>
      if is_surrogate c && negb (is_escape c)
      then Some (i, c, run_end (S i) s')
      else encode_stop (S i) s'
  | [] => None
  end.

Definition hex_digit (d : N) : N :=
  nth (N.to_nat d) (lit "0123456789abcdef") 0%N.

(** the four hexadecimal digits of a character below 65536 *)
Definition hex4 (c : N) : str :=
  [hex_digit (N.shiftr c 12); hex_digit (N.land (N.shiftr c 8) 15);
   hex_digit (N.land (N.shiftr c 4) 15); hex_digit (N.land c 15)].

(** the [UnicodeEncodeError] of [os.fsencode], if it raises one *)
Definition encode_error (path : str) : option exn :=
  match encode_stop 0 path with
  | Some (i, c, j) =>
      Some (Exception UnicodeEncodeError
              (lit "'utf-8' codec can't encode "
               ++ (if Nat.eqb j (S i)
                   then lit "character '\u" ++ hex4 c ++ lit "' in position "
                          ++ str_of_nat i
                   else lit "characters in position " ++ str_of_nat i
                          ++ lit "-" ++ str_of_nat (pred j))
               ++ lit ": surrogates not allowed"))
  | None => None
  end.

(** What a call on a path raises before any object is looked up: the
    error of the encoding, the [ValueError] for a null character, and the
    errors of the system call for an empty path and for a path that is too
    long. *)
Definition check_path (path : str) : option exn :=
  match encode_error path with
  | Some e => Some e
  | None =>
      if existsb (N.eqb 0) path
      then Some (Exception ValueError (lit "embedded null byte"))
      else if str_eqb path [] then Some (ENOENT path)
      else if (PATH_MAX <=? fs_length path)%N then Some (ENAMETOOLONG path)
      else None
  end.

(** Path resolution: walk the components [comps] from the directory at
    [cur] (its names, innermost first).  Every object the walk steps from
    must be a directory, and no name is longer than [NAME_MAX] bytes.
    [path] is the text of the path, for the error. *)
Fixpoint walk (fs : filesystem) (path : str) (cur : list str)
    (comps : list str) : result key :=
  match comps with
  | [] => Ok (rev cur)
  | c :: comps' =>
      match lookup fs (rev cur) with
      | None => Raise (ENOENT path)
      | Some (RegularFile _ _ _) => Raise (ENOTDIR path)
      | Some (Directory _ _) =>
          if str_eqb c [] || str_eqb c dot then walk fs path cur comps'
          else if str_eqb c dotdot then walk fs path (tl cur) comps'
          else if (NAME_MAX <? fs_length c)%N then Raise (ENAMETOOLONG path)
          else walk fs path (c :: cur) comps'
      end
  end.

Definition components (path : str) : list str :=
  filter (fun c => negb (str_eqb c [])) (str_split sep path).

Record world := mkWorld {
  w_fs : filesystem;
  w_cwd : str;              (* os.getcwd(), an absolute path *)
  w_stderr : list str       (* the texts printed to sys.stderr, in order *)
}.

(** the directory a walk along [path] starts from: the root, or the
    working directory *)
Definition start_of (w : world) (path : str) : list str :=
  if startswith [sep] path then [] else rev (components (w_cwd w)).

(** the object a path names, if the path resolves *)
Definition resolve (w : world) (path : str) : result key :=
  match check_path path with
  | Some e => Raise e
  | None => walk (w_fs w) path (start_of w path) (str_split sep path)
  end.

(** the components before the last name of a path, when a separator
    follows that name and it is neither [.] nor [..] (a walk along them
    and the empty component ends in the directory of the name) *)
Fixpoint drop_empty (l : list str) : list str :=
  match l with
  | [] :: l' => drop_empty l'
  | _ => l
  end.

Definition creat_parent (path : str) : option (list str) :=
  match rev (str_split sep path) with
  | [] :: before =>
      match drop_empty before with
      | c :: before' =>
          if str_eqb c dot || str_eqb c dotdot then None
          else Some (rev before' ++ [[]])
      | [] => None
      end
  | _ => None
  end.

(** does a separator follow the last name of the path? *)
Definition slash_after_name (path : str) : bool :=
  match creat_parent path with
  | Some _ => true
  | None => false
  end.

(** The object a path names for an [open] that may create it (the flag
    [O_CREAT]): when a separator follows the last name, the system walks
    to the directory of that name and then refuses the path, whatever the
    name stands for. *)
Definition resolve_creat (w : world) (path : str) : result key :=
  match check_path path, creat_parent path with
  | None, Some comps =>
      match walk (w_fs w) path (start_of w path) comps with
      | Ok _ => Raise (EISDIR path)
      | Raise e => Raise e
      end
  | _, _ => resolve w path
  end.

(** the content of the regular file at [path], if there is one *)
Definition file_content (w : world) (path : str) : option bytes :=
  match resolve w path with
  | Ok k =>
      match lookup (w_fs w) k with
      | Some (RegularFile _ _ data) => Some data
      | _ => None
      end
  | Raise _ => None
  end.

(** does [path] name an object (a file or a directory)? *)
Definition path_exists (w : world) (path : str) : bool :=
  match resolve w path with
  | Ok k => is_some (lookup (w_fs w) k)
  | Raise _ => false
  end.

(** is [path] a regular file that can be written? *)
Definition writable_file (w : world) (path : str) : bool :=
  match resolve w path with
  | Ok k =>
      match lookup (w_fs w) k with
      | Some (RegularFile _ true _) => true
      | _ => false
      end
  | Raise _ => false
  end.

(** a name an entry of a directory can have: not empty, without a
    separator, neither [.] nor [..], and of [NAME_MAX] bytes at most *)
Definition file_name (i : str) : bool :=
  negb (str_eqb i []) && negb (existsb (N.eqb sep) i)
  && negb (str_eqb i dot) && negb (str_eqb i dotdot)
  && (fs_length i <=? NAME_MAX)%N.

(** can a file be made at [path]: the path is one the system takes for a
    new file, it names nothing, and its directory can be written *)
Definition creatable (w : world) (path : str) : bool :=
  match resolve_creat w path with
  | Ok k =>
      match lookup (w_fs w) k, lookup (w_fs w) (removelast k) with
      | None, Some (Directory _ true) => true
      | _, _ => false
      end
  | Raise _ => false
  end.

(** the world after one more text on the diagnostic stream *)
Definition printed (w : world) (text : str) : world :=
  mkWorld (w_fs w) (w_cwd w) (w_stderr w ++ [text]).

(* ------------------------------------------------------------------ *)
(** ** Computations: state and exceptions *)

Definition M (A : Type) : Type := world -> result A * world.

Definition ret (A : Type) (a : A) : M A := fun w => (Ok a, w).

Definition bind (A B : Type) (c : M A) (k : A -> M B) : M B :=
  fun w =>
    match c w with
    | (Ok a, w') => k a w'
    | (Raise e, w') => (Raise e, w')
    end.

Definition raise (A : Type) (e : exn) : M A := fun w => (Raise e, w).
Arguments raise {A} e.

Notation "x <- c ;; k" := (bind c (fun x => k))
  (at level 61, c at next level, right associativity).
Notation "c ;;; k" := (bind c (fun _ => k))
  (at level 61, right associativity).

(** [try: body  except Exception as ex: handler ex] *)
Definition try_except_Exception (A : Type) (body : M A)
    (handler : exn -> M A) : M A :=
  fun w =>
    match body w with
    | (Raise (Exception cls msg), w') => handler (Exception cls msg) w'
    | r => r
    end.

(** [for x in l: body x] *)
Fixpoint for_each (A : Type) (l : list A) (body : A -> M unit) : M unit :=
  match l with
  | [] => ret tt
  | x :: l' => body x ;;; for_each l' body
  end.

(** [print(text, file=sys.stderr)] *)
Definition print_stderr (text : str) : M unit :=
  fun w => (Ok tt, printed w text).

(** [exit(code)] *)
Definition exit (A : Type) (code : Z) : M A := raise (SystemExit code).
Arguments exit {A} code.

Definition os_getcwd : M str := fun w => (Ok (w_cwd w), w).

(** [os.listdir(path)] *)
Definition os_listdir (path : str) : M (list str) :=
  fun w =>
    match resolve w path with
    | Raise e => (Raise e, w)
    | Ok k =>
        match lookup (w_fs w) k with
        | None => (Raise (ENOENT path), w)
        | Some (RegularFile _ _ _) => (Raise (ENOTDIR path), w)
        | Some (Directory readable _) =>
            if readable then (Ok (children (w_fs w) k), w)
            else (Raise (EACCES path), w)
        end
    end.

(** [os.path.isfile(path)]: an error of [os.stat] gives [False].  (The
    program calls it on the names of a listing, joined to the path that
    was listed: names the system has encoded, on which [os.stat] raises
    an [OSError] or nothing.) *)
Definition os_path_isfile (path : str) : M bool :=
  fun w =>
    match resolve w path with
    | Ok k =>
        match lookup (w_fs w) k with
        | Some (RegularFile _ _ _) => (Ok true, w)
        | _ => (Ok false, w)
        end
    | Raise _ => (Ok false, w)
    end.

Inductive open_mode := wb | xb.

(** [with open(path, mode) as file: file.write(data)] for the binary
    modes ['wb'] (create or truncate) and ['xb'] (create, fail if the path
    exists) *)
Definition open_write (path : str) (mode : open_mode) (data : bytes)
    : M unit :=
  fun w =>
    match resolve_creat w path with
    | Raise e => (Raise e, w)
    | Ok k =>
        match lookup (w_fs w) k, mode with
        | Some _, xb => (Raise (EEXIST path), w)
        | Some (Directory _ _), wb => (Raise (EISDIR path), w)
        | Some (RegularFile readable writable _), wb =>
            if writable
            then (Ok tt,
                  mkWorld (store (w_fs w) k (RegularFile readable true data))
                    (w_cwd w) (w_stderr w))
            else (Raise (EACCES path), w)
        | None, _ =>
            match lookup (w_fs w) (removelast k) with
            | Some (Directory _ true) =>
                (Ok tt,
                 mkWorld (store (w_fs w) k (RegularFile true true data))
                   (w_cwd w) (w_stderr w))
            | _ => (Raise (EACCES path), w)
            end
        end
    end.

(* ================================================================== *)
(** * The program *)

Section Program.

(** [str.lower] *)
Variable str_lower : str -> str.

(** How [open(path, 'r').read()] turns the bytes of a file into text (the
    codec of the locale and the translation of line ends): the text, or
    the message of the [UnicodeDecodeError]. *)
Variable decode_text : bytes -> str + str.

(** [with open(path, 'r') as file: file.read()] *)
Definition open_read (path : str) : M str :=
  fun w =>
    match resolve w path with
    | Raise e => (Raise e, w)
    | Ok k =>
        match lookup (w_fs w) k with
        | None => (Raise (ENOENT path), w)
        | Some (Directory _ _) => (Raise (EISDIR path), w)
        | Some (RegularFile readable _ data) =>
            if readable then
              match decode_text data with
              | inl text => (Ok text, w)
              | inr msg => (Raise (Exception UnicodeDecodeError msg), w)
              end
            else (Raise (EACCES path), w)
        end
    end.

(** lines 100-105, one iteration: open and read [path_]; the result is the
    tuple the generator yields, or [None] when the file was skipped *)
Definition read_xml_file (path_ : str) : M (option (str * str)) :=
  try_except_Exception
    (text <- open_read path_ ;; ret (Some (path_, text)))
    (fun ex => print_stderr (exn_str ex) ;;; ret None).

(** lines 91-93, the generator expression at the name [i] of the listing:
    the filter, then the loop body *)
Definition xml_candidate (path i : str) : M (option (str * str)) :=
  isfile <- os_path_isfile (os_path_join path i) ;;
  if isfile && endswith i (lit ".xml")
  then read_xml_file (os_path_join path i)
  else ret None.

(** [yield_xml_files(path)].  The generator is the list of its pending
    iterations: the consumer runs them one by one, each in the world it
    finds then, and each yields one tuple or nothing.  [os.listdir] is
    called once, before the first of them. *)
Definition yield_xml_files (path : str)
    : M (list (M (option (str * str)))) :=
  cwd <- os_getcwd ;;
  let path := os_path_abspath cwd path in
  fun w =>
    match os_listdir path w with
    | (Ok names, w') => (Ok (map (xml_candidate path) names), w')
    | (Raise (Exception NotADirectoryError _), w') =>
        (Ok [read_xml_file path], w')
    | (Raise (Exception FileNotFoundError msg), w') =>
        (print_stderr (exn_str (Exception FileNotFoundError msg)) ;;;
         exit 1) w'
    | (Raise ex, w') => (Raise ex, w')
    end.

(** [if s:] for an optional string *)
Definition truthy (s : option str) : bool :=
  match s with
  | Some (_ :: _) => true
  | _ => false
  end.

Definition outpath (attachment : str * str * bytes) (outdir : option str)
    : str :=
  let '(dirname, filename, _) := attachment in
  if truthy outdir
  then os_path_join (match outdir with Some d => d | None => [] end) filename
  else os_path_join dirname filename.

(** line 212: anything other than ['low'] is ['max'] *)
Definition write_mode (safety : str) : open_mode :=
  if str_eqb safety (lit "low") then wb else xb.

(** [write_attachment(attachment, outdir, safety)] *)
Definition write_attachment (attachment : str * str * bytes)
    (outdir : option str) (safety : str) : M unit :=
  let '(dirname, filename, attachment_) := attachment in
  let outpath := outpath attachment outdir in
  let mode := write_mode safety in
  try_except_Exception
    (open_write outpath mode attachment_)
    (fun ex => print_stderr (exn_str ex)).

Record arguments := mkArgs {
  args_path : str;
  args_outdir : option str;
  args_safety : str
}.

Definition _pyinstaller_trick : bool := false.

(** the body of the inner loop of [main] at one step of
    [yield_decoded_attachment] *)
Definition handle_event (outdir : option str) (safety : str) (ev : event)
    : M unit :=
  match ev with
  | Yield attachment => write_attachment attachment outdir safety
  | Print text => print_stderr text
  end.

(** the body of the outer loop of [main]: [next] is the pending iteration
    of [yield_xml_files] *)
Definition main_body (outdir : option str) (safety : str)
    (next : M (option (str * str))) : M unit :=
  file <- next ;;
  match file with
  | Some file =>
      for_each (yield_decoded_attachment str_lower (list_attachments file))
        (handle_event outdir safety)
  | None => ret tt
  end.

(** [main()], after [argparse] has produced [args] *)
Definition main (args : arguments) : M unit :=
  let '(path, outdir, safety) :=
    if _pyinstaller_trick then (lit ".", None, lit "max")
    else (args_path args, args_outdir args, args_safety args) in
  files <- yield_xml_files path ;;
  for_each files (main_body outdir safety).

(** The exit status of the interpreter: 0 when [main] returns, the code
    of a [SystemExit], 1 after an exception nothing caught (the traceback
    the interpreter then prints is not recorded in the world). *)
Definition exit_status (r : result unit) : Z :=
  match r with
  | Ok _ => 0%Z
  | Raise (SystemExit code) => code
  | Raise (Exception _ _) => 1%Z
  end.

(** a run from the parsed arguments on: the exit status, and the world
    when [main] ends *)
Definition run (args : arguments) (w : world) : Z * world :=
  let (r, w') := main args w in (exit_status r, w').

End Program.

(* ------------------------------------------------------------------ *)
(** ** The two parameters on ASCII text, for the examples *)

Definition ascii_lower (s : str) : str :=
  map (fun c => if (chr "A" <=? c)%N && (c <=? chr "Z")%N
                then (c + 32)%N else c) s.

Definition ascii_decode (data : bytes) : str + str :=
  if forallb (fun c => (c <? 128)%N) data then inl data
  else inr (lit "'ascii' codec can't decode byte").

(* ================================================================== *)
(** * The shape of documents and blocks, for the statements *)

(** a run of white space *)
Definition all_space (w : str) : bool := forallb Py_UNICODE_ISSPACE w.

(** [s.lstrip()] and [s.strip()] *)
Fixpoint lstrip (s : str) : str :=
  match s with
  | c :: s' => if Py_UNICODE_ISSPACE c then lstrip s' else s
  | [] => []
  end.

Definition str_strip (s : str) : str := rev (lstrip (rev (lstrip s))).

(** the text of an opening tag, with white space [w1], [w2] around the
    name, and of a closing tag *)
Definition open_text (name w1 w2 : str) : str :=
  chr "<" :: w1 ++ name ++ w2 ++ [chr ">"].

Definition close_text (name w1 w2 w3 : str) : str :=
  chr "<" :: w1 ++ chr "/" :: w2 ++ name ++ w3 ++ [chr ">"].

(** a character that is neither white space nor one of [<], [/], [>] *)
Definition plain (c : N) : bool :=
  negb (Py_UNICODE_ISSPACE c) && negb (c =? chr "<")%N
  && negb (c =? chr "/")%N && negb (c =? chr ">")%N.

(** a tag name: a non-empty run of plain characters *)
Definition tag_name (name : str) : bool :=
  match name with
  | [] => false
  | _ :: _ => forallb plain name
  end.

(** a closing tag without its first character *)
Definition close_tail (name w1 w2 w3 : str) : str :=
  w1 ++ chr "/" :: w2 ++ name ++ w3 ++ [chr ">"].

(** a text that is empty or begins with [<] *)
Definition begins_with_lt (rest : str) : Prop :=
  rest = [] \/ exists r, rest = chr "<" :: r.

(** One element in a text: the text before it, the white space inside its
    two tags, and its content. *)
Record element := mkElement {
  e_before : str;
  e_w1 : str; e_w2 : str;
  e_content : str;
  e_w3 : str; e_w4 : str; e_w5 : str
}.

Definition element_text (name : str) (e : element) : str :=
  open_text name (e_w1 e) (e_w2 e) ++ e_content e
    ++ close_text name (e_w3 e) (e_w4 e) (e_w5 e).

(** does an opening tag of the name begin the text: [<], white space,
    the name? *)
Definition opens (name s : str) : bool :=
  match s with
  | c :: s' => (c =? chr "<")%N && startswith name (lstrip s')
  | [] => false
  end.

(** does a closing tag of the name begin the text: [<], white space, [/],
    white space, the name? *)
Definition closes (name s : str) : bool :=
  match s with
  | c :: s' =>
      (c =? chr "<")%N
      && match lstrip s' with
         | d :: s'' => (d =? chr "/")%N && startswith name (lstrip s'')
         | [] => false
         end
  | [] => false
  end.

(** does [f] hold at some place of the text? *)
Fixpoint anywhere (f : str -> bool) (s : str) : bool :=
  f s
  || match s with
     | [] => false
     | _ :: s' => anywhere f s'
     end.

(** Only white space surrounds the name inside the tags of the element,
    no opening tag of the name begins in the text before it, and no
    closing tag in its content: the content ends at the first closing
    tag. *)
Definition element_ok (name : str) (e : element) : bool :=
  all_space (e_w1 e) && all_space (e_w2 e) && all_space (e_w3 e)
  && all_space (e_w4 e) && all_space (e_w5 e)
  && negb (anywhere (opens name) (e_before e))
  && negb (anywhere (closes name) (e_content e)).

(** a document with the attachment containers [cs], in this order, and
    [tail] after the last of them *)
Fixpoint document (cs : list element) (tail : str) : str :=
  match cs with
  | [] => tail
  | c :: cs' =>
      e_before c ++ element_text (lit "Allegati") c ++ document cs' tail
  end.

Definition container_ok : element -> bool := element_ok (lit "Allegati").

(** a block with one name tag: the text before the tag, the tag, the text
    after it *)
Definition name_block (e : element) (post : str) : str :=
  e_before e ++ element_text (lit "NomeAttachment") e ++ post.

(** the name tag of the block is its only tag of that name *)
Definition lone_name_tag (e : element) (post : str) : bool :=
  element_ok (lit "NomeAttachment") e
  && negb (anywhere (opens (lit "NomeAttachment")) (e_content e))
  && negb (anywhere (opens (lit "NomeAttachment")) post)
  && negb (anywhere (closes (lit "NomeAttachment")) post).

(* ------------------------------------------------------------------ *)
(** ** Base64 digits and file-system facts, for the proofs *)

(** the sextets of a group of three bytes *)
Definition sextet0 (x : N) : N := N.shiftr x 2.
Definition sextet1 (x y : N) : N :=
  N.lor (N.shiftl (N.land x 3) 4) (N.shiftr y 4).
Definition sextet2 (y z : N) : N :=
  N.lor (N.shiftl (N.land y 15) 2) (N.shiftr z 6).
Definition sextet3 (z : N) : N := N.land z 63.

Definition is_digit_char (c : N) (v : N) : bool :=
  negb ((127 <? c) || (c =? 13) || (c =? 10) || (c =? 32))%N
  && negb (c =? BASE64_PAD)%N
  && opt_N_eqb (table_a2b_base64 c) v
  && (c <? 128)%N.

(** [shift_in] gives this state and this byte *)
Definition step_is (v lb lc qp lb' lc' qp' : N) (byte : option N) : bool :=
  let '(a, b, c, d) := shift_in v lb lc qp in
  (a =? lb')%N && (b =? lc')%N && (c =? qp')%N
  && match d, byte with
     | Some p, Some q => (p =? q)%N
     | None, None => true
     | _, _ => false
     end.

(** a character the payload pattern takes into the group *)
Definition payload_char (c : N) : bool :=
  in_charset base64_set c && negb (c =? chr "<")%N.

(** the directories of [fs] are directories of [fs'] *)
Definition keeps_directories (fs fs' : filesystem) : Prop :=
  forall k r w,
    lookup fs k = Some (Directory r w) ->
    exists r' w', lookup fs' k = Some (Directory r' w').

(** an exception object that [except Exception] catches *)
Definition is_Exception (e : exn) : Prop :=
  exists cls msg, e = Exception cls msg.

(** a computation that returns, in every world *)
Definition returns (A : Type) (c : M A) : Prop :=
  forall w, exists a w', c w = (Ok a, w').

(* ------------------------------------------------------------------ *)
(** ** A document and its blocks, for the examples *)

Definition newline : str := [10%N].

Definition example_path : str := lit "/d/invoice.xml".

(** two containers, the second with white space inside its tags and a
    content of two lines; a tag in lower case before it *)
Definition example_containers : list element :=
  [mkElement (lit "<Fattura>") [] []
     (lit "<NomeAttachment>doc</NomeAttachment><Attachment>QUJD</Attachment>")
     [] [] [];
   mkElement (lit "<allegati>no</allegati>") (lit " ") newline
     (lit "<FormatoAttachment>TXT</FormatoAttachment>" ++ newline
        ++ lit "<Attachment>JVBERi0x" ++ newline ++ lit "LjQ=</Attachment>")
     newline (lit " ") (lit " ")].

(** A world: the directory [/d] with two documents, a text file, a
    directory named like a document with a document in it, and a document
    that cannot be read; a directory that cannot be listed; a file. *)
Definition example_fs : filesystem :=
  [([], Directory true true);
   ([lit "d"], Directory true true);
   ([lit "d"; lit "invoice.xml"],
    RegularFile true true
      (lit "<Allegati><NomeAttachment>doc</NomeAttachment><Attachment>QUJD</Attachment></Allegati>"));
   ([lit "d"; lit "c.txt"],
    RegularFile true true
      (lit "<Allegati><Attachment>JVBERi0xLjQ=</Attachment></Allegati>"));
   ([lit "d"; lit "sub.xml"], Directory true true);
   ([lit "d"; lit "sub.xml"; lit "x.xml"], RegularFile true true []);
   ([lit "d"; lit "b.xml"], RegularFile false true []);
   ([lit "d"; lit "doc.pdf"], RegularFile true true (lit "old"));
   ([lit "locked"], Directory false true);
   ([lit "f"], RegularFile true true [])].

Definition example_world : world := mkWorld example_fs (lit "/d") [].

Definition example_document : str :=
  document example_containers (lit "</Fattura>").

(** a block with a PDF payload and a format tag *)
Definition pdf_block : str :=
  lit "<FormatoAttachment>TXT</FormatoAttachment><Attachment>JVBERi0xLjQ=</Attachment>".

(** a block whose name tag holds one space *)
Definition blank_name_block : str := lit "<NomeAttachment> </NomeAttachment>".

(** a block whose name tag holds a space and 61 letters *)
Definition long_name_block : str :=
  lit "<NomeAttachment> " ++ repeat (chr "a") 61 ++ lit "</NomeAttachment>".

(** a block without a payload tag *)
Definition no_payload_block : str := lit "<NomeAttachment>x</NomeAttachment>".

(** a block whose payload decodes to zero bytes *)
Definition empty_payload_block : str := lit "<Attachment>====</Attachment>".

Unset Implicit Arguments.

(* ================================================================== *)
(** * Further shapes and relations, for the statements *)

(** a first or last character that is white space *)
Definition space_at_end (g : str) : bool :=
  match g with
  | [] => false
  | c :: _ => Py_UNICODE_ISSPACE c || Py_UNICODE_ISSPACE (last g c)
  end.

(** the length of the blocks, each with its two tags *)
Definition blocks_length (blocks : list str) : nat :=
  list_sum (map (fun b => length b + 21) blocks).

(** a text of a field: it stands in the block between the two tags and
    white space, has [1] to [hi] characters, none a line feed, and is its
    own [strip()] unless it is one character *)
Definition field_of (name : str) (hi : nat) (block g : str) : Prop :=
  (exists pre w1 w2 wa wb w3 w4 w5 post,
     block = pre ++ open_text name w1 w2 ++ wa ++ g ++ wb
               ++ close_text name w3 w4 w5 ++ post
     /\ all_space w1 = true /\ all_space w2 = true
     /\ all_space wa = true /\ all_space wb = true
     /\ all_space w3 = true /\ all_space w4 = true /\ all_space w5 = true)
  /\ 1 <= length g <= hi
  /\ ~ In 10%N g
  /\ (length g = 1 \/ str_strip g = g).

(** the tag of the name is the only one of the block *)
Definition lone_tag (name : str) (e : element) (post : str) : bool :=
  element_ok name e
  && negb (anywhere (opens name) (e_content e))
  && negb (anywhere (opens name) post)
  && negb (anywhere (closes name) post).

(** a character of the alphabet, or the pad *)
Definition base64_char (c : N) : bool := is_some (table_a2b_base64 c).

(** a character of the alphabet *)
Definition base64_digit (c : N) : bool :=
  base64_char c && negb (c =? BASE64_PAD)%N.

Definition is_ascii (s : str) : bool := forallb (fun c => (c <? 128)%N) s.

(** a text that does not end with [c] *)
Definition no_end (c : N) (s : str) : Prop := forall z, s <> z ++ [c].

(** the shape of a normal path: separators only, or a last character that
    is not a separator *)
Definition dir_like (p : str) : Prop :=
  p = repeat sep (length p) \/ no_end sep p.

(** a component of a normal path: not empty, without a separator *)
Definition component (x : str) : Prop := x <> [] /\ ~ In sep x.

(** the decimal digits *)
Definition is_decimal (c : N) : bool := ((chr "0" <=? c) && (c <=? chr "9"))%N.

(** what a file-system object may become: a directory and a file that
    cannot be written stay as they are, a file that can be written stays
    such a file *)
Definition inode_kept (n n' : inode) : Prop :=
  match n with
  | Directory _ _ => n' = n
  | RegularFile r wr _ =>
      if wr then exists data, n' = RegularFile r true data else n' = n
  end.

(** no object is removed or changes its kind *)
Definition keeps_kinds (w w' : world) : Prop :=
  forall k n, lookup (w_fs w) k = Some n ->
              exists n', lookup (w_fs w') k = Some n' /\ inode_kept n n'.

(** no object is removed or changed *)
Definition keeps_objects (w w' : world) : Prop :=
  forall k n, lookup (w_fs w) k = Some n -> lookup (w_fs w') k = Some n.

(** the diagnostic stream has grown, nothing else of the process state
    has changed *)
Definition stream_grows (w w' : world) : Prop :=
  w_cwd w' = w_cwd w /\ exists l, w_stderr w' = w_stderr w ++ l.

(** every step of a computation is in the relation *)
Definition steps_in (R : world -> world -> Prop) (A : Type) (c : M A)
    : Prop :=
  forall w r w', c w = (r, w') -> R w w'.

(** nothing is removed, a directory and a file that cannot be written are
    not changed, and what is new is a regular file *)
Definition files_only (w w' : world) : Prop :=
  keeps_kinds w w'
  /\ (forall k, lookup (w_fs w) k = None ->
                lookup (w_fs w') k = None
                \/ exists data,
                     lookup (w_fs w') k = Some (RegularFile true true data))
  /\ stream_grows w w'.

(** nothing that exists is removed or changed *)
Definition objects_kept (w w' : world) : Prop :=
  keeps_objects w w' /\ stream_grows w w'.

(** a path whose [repr] is the path between single quotes: printable
    ASCII characters, none a quote or a backslash; [OSError] shows the
    file name by its [repr] *)
Definition repr_plain (p : str) : bool :=
  forallb (fun c => (32 <=? c)%N && (c <? 127)%N
                    && negb (c =? 39)%N && negb (c =? 92)%N) p.

(** the text of a field as it is written: [1] to [hi] characters, none a
    line feed or [<], with white space at neither end *)
Definition field_text (hi : nat) (g : str) : bool :=
  (1 <=? length g) && (length g <=? hi)
  && forallb (fun c => negb (c =? 10)%N && negb (c =? chr "<")%N) g
  && negb (space_at_end g).

(** an element without white space in its tags *)
Definition tagged (name content : str) : str :=
  open_text name [] [] ++ content ++ close_text name [] [] [].

(** a block with a name, a format and a payload, in this order, and white
    space between them *)
Definition tidy_block (s0 name s1 fmt s2 payload s3 : str) : str :=
  s0 ++ tagged (lit "NomeAttachment") name
     ++ s1 ++ tagged (lit "FormatoAttachment") fmt
     ++ s2 ++ tagged (lit "Attachment") payload ++ s3.

(** the extension of the bytes [b] in a block with the format [fmt] *)
Definition extension_of (str_lower : str -> str) (fmt : str) (b : bytes)
    : str :=
  if str_eqb (firstn 5 b) (lit "%PDF-") then lit "pdf" else str_lower fmt.

(** a block with a name tag and a payload tag *)
Definition named_block : str :=
  lit "<NomeAttachment>doc</NomeAttachment><Attachment>QUJD</Attachment>".

(** a block with a payload tag only *)
Definition payload_block : str := lit "<Attachment>QUJD</Attachment>".

(** a payload tag in the URL-safe alphabet, after a name tag *)
Definition url_safe_element : element :=
  mkElement (lit "<NomeAttachment>x</NomeAttachment>") [] []
    (lit "QUJD-w==") [] [] [].

(** an encoding wrapped over two lines *)
Definition wrapped_payload : str := lit "QUJD" ++ newline ++ lit "RA==".

(** a block whose name is an absolute path *)
Definition absolute_name_block : str :=
  lit "<NomeAttachment>/tmp/x</NomeAttachment><Attachment>QUJD</Attachment>".

(** a block whose payload lacks a digit *)
Definition unpadded_block : str := lit "<Attachment>QUJ</Attachment>".

(** the world after the attachment [new.bin] was written in [/d] *)
Definition written_world : world :=
  snd (write_attachment (lit "/d", lit "new.bin", lit "ABCD") None
         (lit "max") example_world).

(** the world after a run on the directory [/d] *)
Definition world_after_run : world :=
  snd (main ascii_lower ascii_decode (mkArgs (lit ".") None (lit "max"))
         example_world).

(** a container with a block of three elements, the payload over two
    lines *)
Definition invoice_container : element :=
  mkElement (lit "<Fattura>") [] []
    (tidy_block newline (lit "nota 1") newline (lit "TXT") newline
       wrapped_payload newline)
    [] [] [].

(** the example world with one more document in [/d], which cannot be
    written *)
Definition invoice_world : world :=
  mkWorld
    (([lit "d"; lit "fattura.xml"],
      RegularFile true false
        (document [invoice_container] (lit "</Fattura>")))
       :: example_fs)
    (lit "/d") [].

(* ================================================================== *)
(** * Properties of the matcher *)

(** concatenations, associated to the right *)
Ltac list_norm :=
  repeat (progress (cbn [app]) || rewrite <- app_assoc).
Ltac list_norm_in H :=
  repeat (progress (cbn [app] in H) || rewrite <- app_assoc in H).

Section Repeat.

Variable A : Type.
Variable p : N -> bool.
Variable k : str -> option A.

(** what a successful repeat consumed *)
Lemma rep_sound (greedy : bool) :
  forall s lo hi r,
    rep p greedy lo hi s k = Some r ->
    exists w s',
      s = w ++ s' /\ forallb p w = true /\ lo <= length w
      /\ match hi with Some h => length w <= h | None => True end
      /\ k s' = Some r.
Proof.
  assert (Hnil : forall s hi r, k s = Some r ->
            exists w s', s = w ++ s' /\ forallb p w = true /\ 0 <= length w
              /\ match hi with Some h => length w <= h | None => True end
              /\ k s' = Some r).
  { intros s hi r H. exists [], s. repeat split; auto.
    destruct hi; simpl; lia. }
  assert (Hcons : forall c s lo hi r,
            room hi && p c = true ->
            (exists w s', s = w ++ s' /\ forallb p w = true
               /\ lo <= length w
               /\ match option_map pred hi with
                  | Some h => length w <= h | None => True end
               /\ k s' = Some r) ->
            exists w s', c :: s = w ++ s' /\ forallb p w = true
              /\ S lo <= length w
              /\ match hi with Some h => length w <= h | None => True end
              /\ k s' = Some r).
  { intros c s lo hi r E (w & s' & -> & Hw & Hlo & Hhi & Hk).
    apply andb_prop in E as [Hroom Hp].
    exists (c :: w), s'. simpl. rewrite Hp, Hw. repeat split; auto; try lia.
    destruct hi as [[|h]|]; simpl in *; try discriminate; lia. }
  induction s as [|c s IH]; intros lo hi r H.
  - destruct lo; simpl in H; [|discriminate]. now apply Hnil.
  - destruct lo as [|lo]; simpl in H.
    + destruct (room hi && p c) eqn:E; [|now apply Hnil].
      destruct greedy.
      * destruct (rep p true 0 (option_map pred hi) s k) eqn:R.
        -- inversion H; subst.
           destruct (Hcons c s 0 hi r E (IH _ _ _ R))
             as (w & s' & ? & ? & ? & ? & ?).
           exists w, s'. repeat split; auto. lia.
        -- now apply Hnil.
      * destruct (k (c :: s)) eqn:K.
        -- inversion H; subst. now apply Hnil.
        -- destruct (Hcons c s 0 hi r E (IH _ _ _ H))
             as (w & s' & ? & ? & ? & ? & ?).
           exists w, s'. repeat split; auto. lia.
    + destruct (room hi && p c) eqn:E; [|discriminate].
      apply (Hcons c s lo hi r E (IH _ _ _ H)).
Qed.

(** A greedy run in front of a continuation that rejects what the run
    accepts takes the whole run. *)
Lemma rep_greedy_run :
  forall w s,
    forallb p w = true ->
    match s with c :: _ => p c = false | [] => True end ->
    (forall a t, p a = true -> k (a :: t) = None) ->
    rep p true 0 None (w ++ s) k = k s.
Proof.
  induction w as [|a w IH]; intros s Hw Hs Hk.
  - destruct s as [|c s]; simpl; [reflexivity|]. now rewrite Hs.
  - simpl in Hw. apply andb_prop in Hw as [Ha Hw].
    simpl. rewrite Ha, (IH s Hw Hs Hk).
    destruct (k s) eqn:K; [reflexivity|]. now apply Hk.
Qed.

(** A lazy run stops at the first place where the continuation succeeds. *)
Lemma rep_lazy_first :
  forall c t r,
    forallb p c = true ->
    (forall a b, c = a ++ b -> b <> [] -> k (b ++ t) = None) ->
    k t = Some r ->
    rep p false 0 None (c ++ t) k = Some r.
Proof.
  induction c as [|x c IH]; intros t r Hc Hfail Hk.
  - destruct t as [|y t]; simpl; [exact Hk|].
    rewrite Hk. now destruct (p y).
  - simpl in Hc. apply andb_prop in Hc as [Hx Hc].
    simpl. rewrite Hx.
    assert (k (x :: c ++ t) = None) as ->
      by (apply (Hfail [] (x :: c)); [reflexivity | discriminate]).
    apply IH; auto. intros a b -> Hb. apply (Hfail (x :: a) b); auto.
Qed.

End Repeat.

Lemma match_word (name : str) (r : pattern) (ms : marks) (s : str) :
  match_here (word name ++ r) ms (name ++ s) = match_here r ms s.
Proof.
  induction name as [|a name IH]; simpl; [reflexivity|].
  now rewrite N.eqb_refl.
Qed.

Lemma match_word_sound (name : str) (r : pattern) (ms : marks) :
  forall s x,
    match_here (word name ++ r) ms s = Some x ->
    exists s', s = name ++ s' /\ match_here r ms s' = Some x.
Proof.
  induction name as [|a name IH]; simpl; intros s x H.
  - now exists s.
  - destruct s as [|c s]; [discriminate|].
    destruct (c =? a)%N eqn:E; [|discriminate].
    apply N.eqb_eq in E. subst c.
    apply IH in H as (s' & -> & H). now exists s'.
Qed.

Lemma match_here_ws (r : pattern) (ms : marks) (s : str) :
  match_here (ws :: r) ms s
  = rep Py_UNICODE_ISSPACE true 0 None s (fun s' => match_here r ms s').
Proof. reflexivity. Qed.

Lemma match_lit (c : N) (r : pattern) (ms : marks) (s : str) :
  match_here (Lit c :: r) ms (c :: s) = match_here r ms s.
Proof. simpl. now rewrite N.eqb_refl. Qed.

Lemma match_lit_sound (c : N) (r : pattern) (ms : marks) (s : str) x :
  match_here (Lit c :: r) ms s = Some x ->
  exists s', s = c :: s' /\ match_here r ms s' = Some x.
Proof.
  simpl. destruct s as [|a s]; [discriminate|].
  destruct (a =? c)%N eqn:E; [|discriminate].
  apply N.eqb_eq in E. subst. now exists s.
Qed.

(** white space, then a character that is not white space *)
Lemma match_ws_lit (c : N) (r : pattern) (ms : marks) (w s : str) :
  Py_UNICODE_ISSPACE c = false ->
  all_space w = true ->
  match_here (ws :: Lit c :: r) ms (w ++ c :: s) = match_here r ms s.
Proof.
  intros Hc Hw. rewrite match_here_ws, rep_greedy_run; auto.
  - apply match_lit.
  - intros a t Ha. simpl. destruct (a =? c)%N eqn:E; [|reflexivity].
    apply N.eqb_eq in E. congruence.
Qed.

Lemma match_ws_lit_sound (c : N) (r : pattern) (ms : marks) (s : str) x :
  match_here (ws :: Lit c :: r) ms s = Some x ->
  exists w s', s = w ++ c :: s' /\ all_space w = true
               /\ match_here r ms s' = Some x.
Proof.
  rewrite match_here_ws. intros H.
  apply rep_sound in H as (w & s1 & -> & Hw & _ & _ & H).
  apply match_lit_sound in H as (s' & -> & H).
  now exists w, s'.
Qed.

Lemma plain_not_space (c : N) : plain c = true -> Py_UNICODE_ISSPACE c = false.
Proof.
  unfold plain. intros H. repeat (apply andb_prop in H as [H ?]).
  now apply negb_true_iff.
Qed.

Lemma tag_name_cons (name : str) :
  tag_name name = true ->
  exists c name', name = c :: name' /\ plain c = true.
Proof.
  destruct name as [|c name']; [discriminate|]. simpl.
  intros H. apply andb_prop in H as [H _]. now exists c, name'.
Qed.

(** the opening tag *)
Lemma match_open_tag (name : str) (r : pattern) (ms : marks)
    (w1 w2 s : str) :
  tag_name name = true -> all_space w1 = true -> all_space w2 = true ->
  match_here (open_tag name ++ r) ms (open_text name w1 w2 ++ s)
  = match_here r ms s.
Proof.
  intros Hn H1 H2.
  destruct (tag_name_cons _ Hn) as (c & name' & -> & Hc).
  unfold open_tag, open_text. cbn [app word map].
  rewrite match_lit. rewrite <- !app_assoc. cbn [app].
  rewrite (match_ws_lit c _ ms w1 _) by auto using plain_not_space.
  change (map Lit name') with (word name'). rewrite <- app_assoc, match_word.
  rewrite <- app_assoc. cbn [app].
  now rewrite (match_ws_lit (chr ">") r ms w2 s).
Qed.

Lemma match_open_tag_sound (name : str) (r : pattern) (ms : marks)
    (s : str) x :
  tag_name name = true ->
  match_here (open_tag name ++ r) ms s = Some x ->
  exists w1 w2 s',
    s = open_text name w1 w2 ++ s' /\ all_space w1 = true
    /\ all_space w2 = true /\ match_here r ms s' = Some x.
Proof.
  intros Hn H.
  destruct (tag_name_cons _ Hn) as (c & name' & -> & Hc).
  unfold open_tag in H. cbn [app word map] in H.
  apply match_lit_sound in H as (s1 & -> & H).
  apply match_ws_lit_sound in H as (w1 & s2 & -> & H1 & H).
  rewrite <- app_assoc in H. change (map Lit name') with (word name') in H.
  apply match_word_sound in H as (s3 & -> & H). cbn [app] in H.
  apply match_ws_lit_sound in H as (w2 & s4 & -> & H2 & H).
  exists w1, w2, s4. repeat split; auto.
  unfold open_text. now list_norm.
Qed.

(** the closing tag *)
Lemma match_close_tag (name : str) (r : pattern) (ms : marks)
    (w1 w2 w3 s : str) :
  tag_name name = true ->
  all_space w1 = true -> all_space w2 = true -> all_space w3 = true ->
  match_here (close_tag name ++ r) ms (close_text name w1 w2 w3 ++ s)
  = match_here r ms s.
Proof.
  intros Hn H1 H2 H3.
  destruct (tag_name_cons _ Hn) as (c & name' & -> & Hc).
  unfold close_tag, close_text. cbn [app word map].
  rewrite match_lit. rewrite <- !app_assoc. cbn [app].
  rewrite (match_ws_lit (chr "/") _ ms w1 _) by auto.
  rewrite <- !app_assoc. cbn [app].
  rewrite (match_ws_lit c _ ms w2 _) by auto using plain_not_space.
  change (map Lit name') with (word name'). rewrite <- app_assoc, match_word.
  rewrite <- app_assoc. cbn [app].
  now rewrite (match_ws_lit (chr ">") r ms w3 s).
Qed.

Lemma match_close_tag_sound (name : str) (r : pattern) (ms : marks)
    (s : str) x :
  tag_name name = true ->
  match_here (close_tag name ++ r) ms s = Some x ->
  exists w1 w2 w3 s',
    s = close_text name w1 w2 w3 ++ s' /\ all_space w1 = true
    /\ all_space w2 = true /\ all_space w3 = true
    /\ match_here r ms s' = Some x.
Proof.
  intros Hn H.
  destruct (tag_name_cons _ Hn) as (c & name' & -> & Hc).
  unfold close_tag in H. cbn [app word map] in H.
  apply match_lit_sound in H as (s1 & -> & H).
  apply match_ws_lit_sound in H as (w1 & s2 & -> & H1 & H).
  apply match_ws_lit_sound in H as (w2 & s3 & -> & H2 & H).
  rewrite <- app_assoc in H. change (map Lit name') with (word name') in H.
  apply match_word_sound in H as (s4 & -> & H). cbn [app] in H.
  apply match_ws_lit_sound in H as (w3 & s5 & -> & H3 & H).
  exists w1, w2, w3, s5. repeat split; auto.
  unfold close_text. now list_norm.
Qed.

(* ------------------------------------------------------------------ *)
(** ** Trimming *)

Lemma lstrip_space (w s : str) :
  all_space w = true -> lstrip (w ++ s) = lstrip s.
Proof.
  induction w as [|a w IH]; [reflexivity|]. simpl.
  intros H. apply andb_prop in H as [Ha Hw]. rewrite Ha. auto.
Qed.

Lemma lstrip_all_space (w : str) : all_space w = true -> lstrip w = [].
Proof.
  intros H. rewrite <- (app_nil_r w). now rewrite lstrip_space.
Qed.

Lemma lstrip_length (s : str) : length (lstrip s) <= length s.
Proof.
  induction s as [|a s IH]; simpl; [lia|].
  destruct (Py_UNICODE_ISSPACE a); simpl; lia.
Qed.

Lemma lstrip_app (s x : str) :
  lstrip s <> [] -> lstrip (s ++ x) = lstrip s ++ x.
Proof.
  induction s as [|a s IH]; simpl; [congruence|].
  destruct (Py_UNICODE_ISSPACE a); auto.
Qed.

Lemma lstrip_not_all_space (s : str) : lstrip s = [] -> all_space s = true.
Proof.
  induction s as [|a s IH]; simpl; [reflexivity|].
  destruct (Py_UNICODE_ISSPACE a); [auto | discriminate].
Qed.

Lemma lstrip_here (c : N) (s : str) :
  Py_UNICODE_ISSPACE c = false -> lstrip (c :: s) = c :: s.
Proof. intros H. simpl. now rewrite H. Qed.

Lemma all_space_rev (w : str) : all_space w = true -> all_space (rev w) = true.
Proof.
  unfold all_space. rewrite !forallb_forall. intros H x Hx.
  apply H. now apply in_rev.
Qed.

Lemma str_strip_length (s : str) : length (str_strip s) <= length s.
Proof.
  unfold str_strip. rewrite length_rev.
  etransitivity; [apply lstrip_length|].
  rewrite length_rev. apply lstrip_length.
Qed.

(** white space around a text does not count *)
Lemma str_strip_spaces (wa g wb : str) :
  all_space wa = true -> all_space wb = true ->
  str_strip (wa ++ g ++ wb) = str_strip g.
Proof.
  intros Ha Hb. unfold str_strip. rewrite lstrip_space by assumption.
  destruct (lstrip g) as [|c g'] eqn:E.
  - apply lstrip_not_all_space in E.
    rewrite (lstrip_space g wb E), (lstrip_all_space wb Hb). reflexivity.
  - rewrite lstrip_app by congruence. rewrite E.
    rewrite rev_app_distr, lstrip_space by now apply all_space_rev.
    reflexivity.
Qed.

(* ------------------------------------------------------------------ *)
(** ** Where a tag begins *)

Lemma startswith_app (p s : str) : startswith p (p ++ s) = true.
Proof.
  induction p as [|a p IH]; simpl; [reflexivity|].
  now rewrite N.eqb_refl.
Qed.

(** a prefix of [b ++ rest] lies in [b] or takes the first character of
    [rest] *)
Lemma startswith_app_inv :
  forall p b rest,
    startswith p (b ++ rest) = true ->
    startswith p b = true
    \/ match rest with c :: _ => In c p | [] => False end.
Proof.
  induction p as [|a p IH]; intros b rest H; [now left|].
  destruct b as [|x b].
  - right. destruct rest as [|c rest]; simpl in H; [discriminate|].
    apply andb_prop in H as [H _]. apply N.eqb_eq in H. now left.
  - simpl in H. apply andb_prop in H as [Hx H].
    destruct (IH _ _ H) as [H' | H'].
    + left. simpl. now rewrite Hx.
    + right. destruct rest; [tauto|]. now right.
Qed.

Lemma all_space_no_lt (w : str) : all_space w = true -> ~ In (chr "<") w.
Proof.
  induction w as [|a w IH]; simpl; [tauto|].
  intros H [Ha | Hin].
  - subst a. discriminate.
  - apply andb_prop in H as [_ H]. now apply IH.
Qed.

Lemma tag_name_no_lt (name : str) : tag_name name = true -> ~ In (chr "<") name.
Proof.
  intros H. assert (forallb plain name = true) as Hp by now destruct name.
  clear H. induction name as [|a name IH]; simpl; [tauto|].
  simpl in Hp. apply andb_prop in Hp as [Ha Hp].
  intros [E | Hin]; [subst a; discriminate | now apply IH].
Qed.

Lemma anywhere_here (f : str -> bool) (s : str) :
  anywhere f s = false -> f s = false.
Proof.
  destruct s; simpl; intros H; now apply orb_false_elim in H as [H _].
Qed.

Lemma anywhere_suffix (f : str -> bool) (a b : str) :
  anywhere f (a ++ b) = false -> anywhere f b = false.
Proof.
  induction a as [|x a IH]; [auto|].
  simpl. intros H. apply orb_false_elim in H as [_ H]. auto.
Qed.

(** what holds nowhere in a text does not hold of its suffixes *)
Lemma nowhere_at (f : str -> bool) (t a b : str) :
  anywhere f t = false -> t = a ++ b -> f b = false.
Proof. intros H ->. now apply anywhere_here, (anywhere_suffix f a). Qed.

(** A name read after white space in [x ++ rest], where [rest] begins
    with [<], is read in [x]. *)
Lemma name_after_space (name x rest : str) :
  tag_name name = true -> begins_with_lt rest ->
  startswith name (lstrip (x ++ rest)) = true ->
  startswith name (lstrip x) = true.
Proof.
  intros Hn Hrest H.
  destruct (lstrip x) as [|d x'] eqn:Ex.
  - exfalso. apply lstrip_not_all_space in Ex.
    rewrite lstrip_space in H by assumption.
    destruct (tag_name_cons _ Hn) as (c & name' & -> & Hc).
    destruct Hrest as [-> | [r ->]]; [discriminate|].
    simpl in H. apply andb_prop in H as [H _].
    apply N.eqb_eq in H. subst c. discriminate.
  - rewrite lstrip_app in H by congruence. rewrite Ex in H.
    apply startswith_app_inv in H as [H | H]; [exact H|].
    exfalso. destruct Hrest as [-> | [r ->]]; [exact H|].
    now apply (tag_name_no_lt name Hn).
Qed.

Lemma opens_open_text (name w1 w2 s : str) :
  tag_name name = true -> all_space w1 = true ->
  opens name (open_text name w1 w2 ++ s) = true.
Proof.
  intros Hn H1. destruct (tag_name_cons _ Hn) as (c & name' & -> & Hc).
  unfold open_text, opens. rewrite <- app_comm_cons, N.eqb_refl.
  cbn [andb]. rewrite <- app_assoc, lstrip_space by assumption.
  rewrite <- app_assoc, <- app_comm_cons, lstrip_here
    by now apply plain_not_space.
  rewrite app_comm_cons. apply startswith_app.
Qed.

Lemma closes_close_text (name w1 w2 w3 s : str) :
  tag_name name = true -> all_space w1 = true -> all_space w2 = true ->
  closes name (close_text name w1 w2 w3 ++ s) = true.
Proof.
  intros Hn H1 H2. destruct (tag_name_cons _ Hn) as (c & name' & -> & Hc).
  unfold close_text, closes. rewrite <- app_comm_cons, N.eqb_refl.
  cbn [andb]. rewrite <- app_assoc, lstrip_space by assumption.
  rewrite <- app_comm_cons, lstrip_here by reflexivity.
  rewrite N.eqb_refl. cbn [andb].
  rewrite <- app_assoc, lstrip_space by assumption.
  rewrite <- app_assoc, <- app_comm_cons, lstrip_here
    by now apply plain_not_space.
  rewrite app_comm_cons. apply startswith_app.
Qed.

(** an opening tag read in [b ++ rest], from a place in [b], is read in
    [b] when [rest] begins with [<] *)
Lemma opens_app (name b rest : str) :
  tag_name name = true -> b <> [] -> begins_with_lt rest ->
  opens name (b ++ rest) = true -> opens name b = true.
Proof.
  intros Hn Hb Hrest H. destruct b as [|c b]; [congruence|].
  rewrite <- app_comm_cons in H. unfold opens in *.
  apply andb_prop in H as [Hc H]. rewrite Hc. cbn [andb].
  now apply (name_after_space name b rest).
Qed.

Lemma closes_app (name b rest : str) :
  tag_name name = true -> b <> [] -> begins_with_lt rest ->
  closes name (b ++ rest) = true -> closes name b = true.
Proof.
  intros Hn Hb Hrest H. destruct b as [|c b]; [congruence|].
  rewrite <- app_comm_cons in H. unfold closes in *.
  apply andb_prop in H as [Hc H]. rewrite Hc. cbn [andb].
  destruct (lstrip b) as [|d b'] eqn:Eb.
  - exfalso. apply lstrip_not_all_space in Eb.
    rewrite lstrip_space in H by assumption.
    destruct Hrest as [-> | [r ->]]; discriminate.
  - rewrite lstrip_app in H by congruence. rewrite Eb in H.
    rewrite <- app_comm_cons in H.
    apply andb_prop in H as [Hd H]. rewrite Hd. cbn [andb].
    now apply (name_after_space name b' rest).
Qed.

Lemma no_open_tag_inside (name : str) (r : pattern) (ms : marks)
    (b rest : str) :
  tag_name name = true -> opens name b = false -> b <> [] ->
  begins_with_lt rest ->
  match_here (open_tag name ++ r) ms (b ++ rest) = None.
Proof.
  intros Hn Hb Hne Hrest.
  destruct (match_here (open_tag name ++ r) ms (b ++ rest)) eqn:E;
    [|reflexivity].
  apply match_open_tag_sound in E as (w1 & w2 & s' & E & H1 & _ & _); auto.
  assert (opens name (b ++ rest) = true) as Ho
    by (rewrite E; now apply opens_open_text).
  apply opens_app in Ho; auto. congruence.
Qed.

Lemma no_close_tag_inside (name : str) (r : pattern) (ms : marks)
    (b rest : str) :
  tag_name name = true -> closes name b = false -> b <> [] ->
  begins_with_lt rest ->
  match_here (close_tag name ++ r) ms (b ++ rest) = None.
Proof.
  intros Hn Hb Hne Hrest.
  destruct (match_here (close_tag name ++ r) ms (b ++ rest)) eqn:E;
    [|reflexivity].
  apply match_close_tag_sound in E
    as (w1 & w2 & w3 & s' & E & H1 & H2 & _ & _); auto.
  assert (closes name (b ++ rest) = true) as Ho
    by (rewrite E; now apply closes_close_text).
  apply closes_app in Ho; auto. congruence.
Qed.

Lemma close_text_tail (name w1 w2 w3 : str) :
  close_text name w1 w2 w3 = chr "<" :: close_tail name w1 w2 w3.
Proof. reflexivity. Qed.

Lemma begins_close_text (name w1 w2 w3 s : str) :
  begins_with_lt (close_text name w1 w2 w3 ++ s).
Proof. right. rewrite close_text_tail, <- app_comm_cons. eauto. Qed.

(* ------------------------------------------------------------------ *)
(** ** One element: an opening tag, a lazily matched content, a closing
       tag *)

Lemma match_element (name : str) (cs : charset)
    (w1 w2 content w3 w4 w5 rest : str) :
  tag_name name = true ->
  all_space w1 = true -> all_space w2 = true -> all_space w3 = true ->
  all_space w4 = true -> all_space w5 = true ->
  forallb (in_charset cs) content = true ->
  anywhere (closes name) content = false ->
  let after := close_text name w3 w4 w5 ++ rest in
  match_here
    (open_tag name ++ group (Repeat 0 None false cs) ++ close_tag name) []
    (open_text name w1 w2 ++ content ++ after)
  = Some ([(1, after); (0, content ++ after)], rest).
Proof.
  intros Hn H1 H2 H3 H4 H5 Hcs Hinf after.
  rewrite match_open_tag by auto.
  unfold group. cbn [app match_here].
  apply rep_lazy_first; auto.
  - intros a b E Hb. rewrite <- (app_nil_r (close_tag name)).
    apply no_close_tag_inside; auto.
    + now apply (nowhere_at _ content a b).
    + apply begins_close_text.
  - rewrite <- (app_nil_r (close_tag name)). unfold after.
    now rewrite match_close_tag.
Qed.

(* ------------------------------------------------------------------ *)
(** ** Scanning *)

Lemma re_match_None (r : pattern) (s : str) :
  match_here r [] s = None -> re_match r s = None.
Proof. unfold re_match. now intros ->. Qed.

Lemma findall_skip (r : pattern) :
  forall t rest,
    (forall a b, t = a ++ b -> b <> [] -> re_match r (b ++ rest) = None) ->
    findall_from r 0 (t ++ rest) = findall_from r 0 rest.
Proof.
  induction t as [|x t IH]; intros rest H; [reflexivity|].
  cbn [app findall_from].
  assert (re_match r (x :: t ++ rest) = None) as ->
    by (apply (H [] (x :: t)); [reflexivity | discriminate]).
  apply IH. intros a b -> Hb. apply (H (x :: a) b); auto.
Qed.

Lemma findall_pass (r : pattern) :
  forall u rest, findall_from r (length u) (u ++ rest) = findall_from r 0 rest.
Proof.
  induction u as [|x u IH]; intros rest; [reflexivity|].
  cbn [app length findall_from]. apply IH.
Qed.

Lemma findall_match (r : pattern) (u rest : str) (ms : marks) :
  u <> [] ->
  match_here r [] (u ++ rest) = Some (ms, rest) ->
  findall_from r 0 (u ++ rest)
  = group1 (mkMatch (u ++ rest) ms rest) :: findall_from r 0 rest.
Proof.
  intros Hu H. destruct u as [|x u]; [congruence|].
  cbn [app findall_from]. unfold re_match. cbn [app] in H. rewrite H.
  f_equal. unfold match_len. cbn [m_from m_rest length].
  rewrite length_app.
  replace (pred (S (length u + length rest) - length rest)) with (length u)
    by lia.
  apply findall_pass.
Qed.

Lemma findall_nothing (r : pattern) (t : str) :
  (forall a b, t = a ++ b -> re_match r b = None) ->
  findall_from r 0 t = [].
Proof.
  intros H. rewrite <- (app_nil_r t), findall_skip.
  - simpl. now rewrite (H t []) by (symmetry; apply app_nil_r).
  - intros a b -> _. rewrite app_nil_r. eauto.
Qed.

Lemma search_skip (r : pattern) :
  forall t rest,
    (forall a b, t = a ++ b -> b <> [] -> re_match r (b ++ rest) = None) ->
    re_search r (t ++ rest) = re_search r rest.
Proof.
  induction t as [|x t IH]; intros rest H; [reflexivity|].
  cbn [app re_search].
  assert (re_match r (x :: t ++ rest) = None) as ->
    by (apply (H [] (x :: t)); [reflexivity | discriminate]).
  apply IH. intros a b -> Hb. apply (H (x :: a) b); auto.
Qed.

Lemma search_here (r : pattern) (s : str) (m : Match) :
  re_match r s = Some m -> re_search r s = Some m.
Proof. destruct s; simpl; now intros ->. Qed.

Lemma group1_element (s content after rest : str) :
  group1 (mkMatch s [(1, after); (0, content ++ after)] rest) = content.
Proof.
  unfold group1. cbn [m_marks find_mark Nat.eqb].
  rewrite length_app, Nat.add_sub, firstn_app, Nat.sub_diag, firstn_all.
  apply app_nil_r.
Qed.

(* ================================================================== *)
(** * The block locator *)

Lemma regex_allegati_eq :
  regex allegati
  = open_tag (lit "Allegati")
      ++ group (Repeat 0 None false (Dot true)) ++ close_tag (lit "Allegati").
Proof. reflexivity. Qed.

Lemma no_allegati_match (b rest : str) :
  opens (lit "Allegati") b = false -> b <> [] -> begins_with_lt rest ->
  re_match (regex allegati) (b ++ rest) = None.
Proof.
  intros Hb Hne Hrest. apply re_match_None. rewrite regex_allegati_eq.
  now apply no_open_tag_inside.
Qed.

Lemma element_ok_inv (name : str) (e : element) :
  element_ok name e = true ->
  (all_space (e_w1 e) = true /\ all_space (e_w2 e) = true
   /\ all_space (e_w3 e) = true /\ all_space (e_w4 e) = true
   /\ all_space (e_w5 e) = true)
  /\ anywhere (opens name) (e_before e) = false
  /\ anywhere (closes name) (e_content e) = false.
Proof.
  unfold element_ok. intros H.
  repeat (apply andb_prop in H as [H ?]).
  repeat match goal with
         | X : negb _ = true |- _ => apply negb_true_iff in X
         end.
  auto 10.
Qed.

Lemma match_container (c : element) (rest : str) :
  container_ok c = true ->
  let after :=
    close_text (lit "Allegati") (e_w3 c) (e_w4 c) (e_w5 c) ++ rest in
  match_here (regex allegati) [] (element_text (lit "Allegati") c ++ rest)
  = Some ([(1, after); (0, e_content c ++ after)], rest).
Proof.
  intros Hc after.
  apply element_ok_inv in Hc as ((H1 & H2 & H3 & H4 & H5) & _ & Hi).
  rewrite regex_allegati_eq. unfold element_text. rewrite <- !app_assoc.
  apply match_element; auto.
  apply forallb_forall. reflexivity.
Qed.

Lemma element_text_nonempty (name : str) (e : element) :
  element_text name e <> [].
Proof. discriminate. Qed.

Lemma element_text_begins (name : str) (e : element) (rest : str) :
  begins_with_lt (element_text name e ++ rest).
Proof. right. unfold element_text, open_text. cbn [app]. eauto. Qed.

Lemma findall_document (cs : list element) (tail : str) :
  forallb container_ok cs = true ->
  anywhere (opens (lit "Allegati")) tail = false ->
  findall_from (regex allegati) 0 (document cs tail) = map e_content cs.
Proof.
  intros Hcs Htail. induction cs as [|c cs IH].
  - cbn [document map]. apply findall_nothing. intros a b E.
    destruct b as [|x b]; [reflexivity|].
    rewrite <- (app_nil_r (x :: b)). apply no_allegati_match.
    + now apply (nowhere_at _ tail a).
    + discriminate.
    + now left.
  - cbn [forallb] in Hcs. apply andb_prop in Hcs as [Hc Hcs].
    cbn [document map]. rewrite findall_skip.
    + rewrite (findall_match _ _ _ _ (element_text_nonempty _ c)
                 (match_container c _ Hc)).
      now rewrite group1_element, IH.
    + intros a b Hb Hne. apply no_allegati_match; auto.
      * apply element_ok_inv in Hc as (_ & Hi & _).
        now apply (nowhere_at _ (e_before c) a).
      * apply element_text_begins.
Qed.

(** C1: a document with [N] attachment containers gives the list of the
    [N] contents, in order, each paired with the path of the document.
    The containers are all there is of them: the tags have any white space
    around the tag name, no other opening tag begins before a container or
    after the last one, and the content of a container is any text,
    line ends included, in which no closing tag begins (the content ends
    at the first closing tag).  A tag name in another case is no tag, and
    with no container the list is empty. *)
Theorem list_attachments_returns_every_container :
  forall (path : str) (cs : list element) (tail : str),
    forallb container_ok cs = true ->
    anywhere (opens (lit "Allegati")) tail = false ->
    list_attachments (path, document cs tail)
    = map (fun c => (path, e_content c)) cs
    /\ length (list_attachments (path, document cs tail)) = length cs.
Proof.
  intros path cs tail Hcs Htail.
  assert (list_attachments (path, document cs tail)
          = map (fun c => (path, e_content c)) cs) as E.
  { unfold list_attachments, re_findall.
    rewrite findall_document by assumption. apply map_map. }
  split; [exact E|]. rewrite E. apply length_map.
Qed.

(* ================================================================== *)
(** * Properties of the decoder *)

Lemma str_eqb_eq (a b : str) : str_eqb a b = true <-> a = b.
Proof.
  unfold str_eqb. destruct (list_eq_dec N.eq_dec a b); split; congruence.
Qed.

Lemma str_eqb_neq (a b : str) : str_eqb a b = false <-> a <> b.
Proof.
  unfold str_eqb. destruct (list_eq_dec N.eq_dec a b); split; congruence.
Qed.

Lemma decode_from_app (str_lower : str -> str) (pre post : list (str * str)) :
  forall idx,
    decode_from str_lower idx (pre ++ post)
    = decode_from str_lower idx pre
        ++ decode_from str_lower (idx + length pre) post.
Proof.
  induction pre as [|item pre IH]; intros idx; simpl.
  - now rewrite Nat.add_0_r.
  - rewrite IH, <- app_assoc. do 3 f_equal. lia.
Qed.

Lemma decode_block_eq (str_lower : str -> str) (idx : nat)
    (path attachment : str) :
  decode_block str_lower idx (path, attachment)
  = match decode_payload attachment with
    | Raise ex =>
        [Print (error_line (attachment_name idx path attachment)
                  (snd (os_path_split path)) ex)]
    | Ok payload =>
        if str_eqb payload [] then []
        else [Yield (fst (os_path_split path),
                     attachment_name idx path attachment ++ lit "."
                       ++ attachment_ext str_lower attachment payload,
                     payload)]
    end.
Proof.
  unfold decode_block. now destruct (os_path_split path).
Qed.

Lemma decode_from_cons (str_lower : str -> str) (idx : nat)
    (item : str * str) (rest : list (str * str)) :
  decode_from str_lower idx (item :: rest)
  = decode_block str_lower idx item ++ decode_from str_lower (S idx) rest.
Proof. reflexivity. Qed.

(** the tag is absent: [None.group(1)] raises *)
Lemma decode_payload_absent (attachment : str) :
  re_search (regex allegato) attachment = None ->
  decode_payload attachment = Raise NoneType_has_no_group.
Proof. unfold decode_payload. now intros ->. Qed.

Lemma decode_payload_present (attachment : str) (m : Match) :
  re_search (regex allegato) attachment = Some m ->
  decode_payload attachment = b64decode (group1 m).
Proof. unfold decode_payload. now intros ->. Qed.

(** C2: a block whose payload tag is absent, or whose payload does not
    decode, gives exactly one step of the generator, a line
    [Error decoding "<name>" in "<basename>" : <error>] on the diagnostic
    stream; nothing is yielded for it, and the generator goes on with the
    next block. *)
Theorem decode_error_is_reported :
  forall (str_lower : str -> str) (idx : nat) (path attachment : str)
         (rest : list (str * str)),
    (re_search (regex allegato) attachment = None
     \/ exists m ex, re_search (regex allegato) attachment = Some m
                     /\ b64decode (group1 m) = Raise ex) ->
    exists ex,
      decode_payload attachment = Raise ex
      /\ decode_from str_lower idx ((path, attachment) :: rest)
         = Print (error_line (attachment_name idx path attachment)
                    (snd (os_path_split path)) ex)
           :: decode_from str_lower (S idx) rest.
Proof.
  intros str_lower idx path attachment rest H.
  assert (exists ex, decode_payload attachment = Raise ex) as [ex Hex].
  { destruct H as [H | (m & ex & H & Hd)].
    - eexists. now apply decode_payload_absent.
    - exists ex. now rewrite (decode_payload_present _ _ H). }
  exists ex. split; [exact Hex|].
  now rewrite decode_from_cons, decode_block_eq, Hex.
Qed.

Lemma yielded_payload_nonempty (str_lower : str -> str) :
  forall attachments idx d f b,
    In (Yield (d, f, b)) (decode_from str_lower idx attachments) -> b <> [].
Proof.
  induction attachments as [|[path attachment] rest IH]; intros idx d f b;
    [simpl; tauto|].
  rewrite decode_from_cons, in_app_iff. intros [H | H]; [|eauto].
  rewrite decode_block_eq in H.
  destruct (decode_payload attachment) as [payload|ex].
  - destruct (str_eqb payload []) eqn:E; simpl in H; [tauto|].
    destruct H as [H | []]. inversion H; subst.
    now apply str_eqb_neq.
  - simpl in H. destruct H as [H | []]. discriminate.
Qed.

(** C3: a block whose payload decodes to zero bytes gives no step at all,
    neither a yield nor a diagnostic line; hence every tuple the generator
    yields, the only ones the writer is called with, has a payload that is
    not empty. *)
Theorem empty_payload_is_dropped :
  forall (str_lower : str -> str) (idx : nat) (path attachment : str)
         (rest : list (str * str)) (m : Match),
    re_search (regex allegato) attachment = Some m ->
    b64decode (group1 m) = Ok [] ->
    decode_block str_lower idx (path, attachment) = []
    /\ decode_from str_lower idx ((path, attachment) :: rest)
       = decode_from str_lower (S idx) rest
    /\ forall attachments d f b,
         In (Yield (d, f, b)) (yield_decoded_attachment str_lower attachments)
         -> b <> [].
Proof.
  intros str_lower idx path attachment rest m Hm Hd.
  assert (decode_block str_lower idx (path, attachment) = []) as Hb.
  { now rewrite decode_block_eq, (decode_payload_present _ _ Hm), Hd. }
  split; [exact Hb|]. split.
  - now rewrite decode_from_cons, Hb.
  - intros attachments. apply yielded_payload_nonempty.
Qed.

(** C4: a block whose payload decodes to bytes that start with [%PDF-] is
    yielded with the extension [pdf], whatever format tag the block has;
    the format tag, lower-cased, gives the extension only when the
    signature test fails, and [formatoSconosciuto] is the extension when
    there is no format tag either. *)
Theorem pdf_signature_takes_precedence :
  forall (str_lower : str -> str) (idx : nat) (path attachment : str)
         (payload : bytes),
    decode_payload attachment = Ok payload ->
    payload <> [] ->
    exists ext,
      decode_block str_lower idx (path, attachment)
      = [Yield (fst (os_path_split path),
                attachment_name idx path attachment ++ lit "." ++ ext,
                payload)]
      /\ (firstn 5 payload = lit "%PDF-" -> ext = lit "pdf")
      /\ (firstn 5 payload <> lit "%PDF-" ->
          match re_search (regex formato) attachment with
          | Some m => ext = str_lower (group1 m)
          | None => ext = lit "formatoSconosciuto"
          end).
Proof.
  intros str_lower idx path attachment payload Hd Hne.
  exists (attachment_ext str_lower attachment payload). split; [|split].
  - rewrite decode_block_eq, Hd.
    apply str_eqb_neq in Hne. now rewrite Hne.
  - intros H. unfold attachment_ext. apply str_eqb_eq in H. now rewrite H.
  - intros H. unfold attachment_ext. apply str_eqb_neq in H. rewrite H.
    now destruct (re_search (regex formato) attachment).
Qed.

(** C5: a block without a name tag is named
    [<basename without extension>_allegato_<i>], [i] being the 1-based
    position of the block in the list the generator was given (the blocks
    of one document); the name shows in the diagnostic line or in the file
    name of the block.  The 2nd block of [invoice.xml] is
    [invoice_allegato_2]. *)
Theorem fallback_name_uses_block_position :
  forall (str_lower : str -> str) (pre post : list (str * str))
         (path attachment : str),
    re_search (regex nome) attachment = None ->
    let idx := length pre in
    let basename := snd (os_path_split path) in
    let fallback :=
      fst (os_path_splitext basename) ++ lit "_allegato_"
        ++ str_of_nat (idx + 1) in
    attachment_name idx path attachment = fallback
    /\ yield_decoded_attachment str_lower (pre ++ (path, attachment) :: post)
       = decode_from str_lower 0 pre
           ++ decode_block str_lower idx (path, attachment)
           ++ decode_from str_lower (S idx) post
    /\ (forall ev,
          In ev (decode_block str_lower idx (path, attachment)) ->
          (exists ex, ev = Print (error_line fallback basename ex))
          \/ (exists ext payload,
                ev = Yield (fst (os_path_split path),
                            fallback ++ lit "." ++ ext, payload)))
    /\ (basename = lit "invoice.xml" -> idx = 1 ->
        fallback = lit "invoice_allegato_2").
Proof.
  intros str_lower pre post path attachment Hn idx basename fallback.
  assert (attachment_name idx path attachment = fallback) as Hname.
  { unfold attachment_name. now rewrite Hn. }
  split; [exact Hname|]. split; [|split].
  - unfold yield_decoded_attachment. rewrite decode_from_app. reflexivity.
  - intros ev. rewrite decode_block_eq, Hname.
    destruct (decode_payload attachment) as [payload|ex].
    + destruct (str_eqb payload []); simpl; [tauto|].
      intros [<- | []]. right. do 2 eexists. reflexivity.
    + simpl. intros [<- | []]. left. eexists. reflexivity.
  - intros Hb Hi. subst fallback. rewrite Hb, Hi. reflexivity.
Qed.

(* ================================================================== *)
(** * The name tag *)

Lemma open_tag_needs_lt (name : str) (r : pattern) (ms : marks)
    (c : N) (s : str) :
  c <> chr "<" -> match_here (open_tag name ++ r) ms (c :: s) = None.
Proof.
  intros Hc. unfold open_tag. cbn [app match_here].
  destruct (c =? chr "<")%N eqn:E; [|reflexivity].
  apply N.eqb_eq in E. contradiction.
Qed.

Lemma match_ws_other (c d : N) (r : pattern) (ms : marks) (w s : str) :
  Py_UNICODE_ISSPACE c = false -> Py_UNICODE_ISSPACE d = false ->
  all_space w = true -> d <> c ->
  match_here (ws :: Lit c :: r) ms (w ++ d :: s) = None.
Proof.
  intros Hc Hd Hw Hdc. rewrite match_here_ws, rep_greedy_run; auto.
  - simpl. destruct (d =? c)%N eqn:E; [|reflexivity].
    apply N.eqb_eq in E. contradiction.
  - intros a t Ha. simpl. destruct (a =? c)%N eqn:E; [|reflexivity].
    apply N.eqb_eq in E. congruence.
Qed.

Lemma plain_not_slash (c : N) : plain c = true -> chr "/" <> c.
Proof.
  unfold plain. intros H E. subst c. discriminate.
Qed.

(** the opening tag does not match where a closing tag stands *)
Lemma open_tag_at_close (name : str) (r : pattern) (ms : marks)
    (w x : str) :
  tag_name name = true -> all_space w = true ->
  match_here (open_tag name ++ r) ms (chr "<" :: w ++ chr "/" :: x) = None.
Proof.
  intros Hn Hw.
  destruct (tag_name_cons _ Hn) as (c & name' & -> & Hc).
  unfold open_tag. cbn [app word map]. rewrite match_lit.
  apply match_ws_other; auto using plain_not_space, plain_not_slash.
Qed.

Lemma close_tail_no_lt (name w1 w2 w3 : str) :
  tag_name name = true ->
  all_space w1 = true -> all_space w2 = true -> all_space w3 = true ->
  ~ In (chr "<") (close_tail name w1 w2 w3).
Proof.
  intros Hn H1 H2 H3 Hin. unfold close_tail in Hin.
  apply in_app_or in Hin as [Hin | [Hin | Hin]].
  - now apply all_space_no_lt in Hin.
  - discriminate.
  - apply in_app_or in Hin as [Hin | Hin];
      [now apply all_space_no_lt in Hin|].
    apply in_app_or in Hin as [Hin | Hin];
      [now apply tag_name_no_lt in Hin|].
    apply in_app_or in Hin as [Hin | [Hin | []]];
      [now apply all_space_no_lt in Hin | discriminate].
Qed.

(** In a text with one closing tag of the name, a closing tag is read at
    the place of that tag only. *)
Lemma close_tag_position
    (name content w1 w2 w3 post before w1' w2' w3' after : str) :
  tag_name name = true ->
  all_space w1 = true -> all_space w2 = true -> all_space w3 = true ->
  all_space w1' = true -> all_space w2' = true ->
  anywhere (closes name) content = false ->
  anywhere (closes name) post = false ->
  content ++ close_text name w1 w2 w3 ++ post
  = before ++ close_text name w1' w2' w3' ++ after ->
  content = before.
Proof.
  intros Hn H1 H2 H3 H1' H2' Hc Hp E.
  assert (closes name (close_text name w1' w2' w3' ++ after) = true) as Hread
    by now apply closes_close_text.
  apply app_eq_app in E as [l [[-> E] | [-> E]]].
  - (* the tag read begins inside [content] *)
    destruct l as [|l0 l]; [now rewrite app_nil_r|]. exfalso.
    rewrite E in Hread.
    apply closes_app in Hread;
      auto using begins_close_text; [|discriminate].
    rewrite (nowhere_at _ _ before (l0 :: l) Hc eq_refl) in Hread.
    discriminate.
  - (* the tag read begins after the start of the closing tag *)
    destruct l as [|l0 l]; [now rewrite app_nil_r|]. exfalso.
    rewrite (close_text_tail name w1 w2 w3), <- !app_comm_cons in E.
    injection E as E0 E. subst l0.
    apply app_eq_app in E as [l2 [[E1 E2] | [E1 E2]]].
    + destruct l2 as [|c l2].
      * change (close_text name w1' w2' w3' ++ after = post) in E2.
        rewrite (nowhere_at _ _ [] _ Hp (eq_sym E2)) in Hread.
        discriminate.
      * injection E2 as E2 _. subst c.
        apply (close_tail_no_lt name w1 w2 w3); auto.
        rewrite E1. apply in_elt.
    + change (post = l2 ++ close_text name w1' w2' w3' ++ after) in E2.
      rewrite (nowhere_at _ _ l2 _ Hp E2) in Hread. discriminate.
Qed.

(* ------------------------------------------------------------------ *)
(** ** Searching a pattern that begins with an opening tag *)

Lemma match_mark (n : nat) (r : pattern) (ms : marks) (s : str) :
  match_here (Mark n :: r) ms s = match_here r ((n, s) :: ms) s.
Proof. reflexivity. Qed.

Lemma match_repeat (lo : nat) (hi : option nat) (greedy : bool)
    (cs : charset) (r : pattern) (ms : marks) (s : str) :
  match_here (Repeat lo hi greedy cs :: r) ms s
  = rep (in_charset cs) greedy lo hi s (fun s' => match_here r ms s').
Proof. reflexivity. Qed.

Lemma group_app (body : node) (r : pattern) :
  group body ++ r = Mark 0 :: body :: Mark 1 :: r.
Proof. reflexivity. Qed.

Lemma search_step (r : pattern) (x : N) (s : str) :
  match_here r [] (x :: s) = None -> re_search r (x :: s) = re_search r s.
Proof. intros H. cbn [re_search]. now rewrite (re_match_None _ _ H). Qed.

Lemma search_skip_no_lt (name : str) (r : pattern) (t rest : str) :
  ~ In (chr "<") t ->
  re_search (open_tag name ++ r) (t ++ rest)
  = re_search (open_tag name ++ r) rest.
Proof.
  intros Ht. apply search_skip. intros a b -> Hb.
  destruct b as [|c b]; [congruence|].
  apply re_match_None. rewrite <- app_comm_cons.
  apply open_tag_needs_lt. intros ->. apply Ht, in_elt.
Qed.

Lemma search_skip_no_tag (name : str) (r : pattern) (t rest : str) :
  tag_name name = true -> anywhere (opens name) t = false ->
  begins_with_lt rest ->
  re_search (open_tag name ++ r) (t ++ rest)
  = re_search (open_tag name ++ r) rest.
Proof.
  intros Hn Ht Hrest. apply search_skip. intros a b E Hb.
  apply re_match_None, no_open_tag_inside; auto.
  now apply (nowhere_at _ t a).
Qed.

Lemma open_tail_no_lt (name w1 w2 : str) :
  tag_name name = true -> all_space w1 = true -> all_space w2 = true ->
  ~ In (chr "<") (w1 ++ name ++ w2 ++ [chr ">"]).
Proof.
  intros Hn H1 H2 Hin.
  apply in_app_or in Hin as [Hin | Hin];
    [now apply all_space_no_lt in Hin|].
  apply in_app_or in Hin as [Hin | Hin];
    [now apply tag_name_no_lt in Hin|].
  apply in_app_or in Hin as [Hin | [Hin | []]];
    [now apply all_space_no_lt in Hin | discriminate].
Qed.

(** In a text with one element of the name and no other opening tag of
    it, a pattern that begins with the opening tag is found at the element
    or nowhere. *)
Lemma search_element (name : str) (r : pattern) (e : element) (post : str) :
  tag_name name = true ->
  element_ok name e = true ->
  anywhere (opens name) (e_content e) = false ->
  anywhere (opens name) post = false ->
  match_here (open_tag name ++ r) [] (element_text name e ++ post) = None ->
  re_search (open_tag name ++ r) (e_before e ++ element_text name e ++ post)
  = None.
Proof.
  intros Hn He Hcontent Hpost Hhere.
  apply element_ok_inv in He as ((H1 & H2 & H3 & H4 & H5) & Hb & Hc).
  rewrite search_skip_no_tag by auto using element_text_begins.
  assert (element_text name e ++ post
          = chr "<" :: (e_w1 e ++ name ++ e_w2 e ++ [chr ">"])
              ++ e_content e
              ++ chr "<" :: close_tail name (e_w3 e) (e_w4 e) (e_w5 e)
              ++ post) as Etext
    by (unfold element_text, open_text, close_text, close_tail;
        now list_norm).
  rewrite Etext in *.
  rewrite (search_step _ _ _ Hhere).
  rewrite search_skip_no_lt by now apply open_tail_no_lt.
  rewrite search_skip_no_tag
    by (auto; right; eauto).
  rewrite search_step
    by (unfold close_tail; rewrite <- app_assoc, <- app_comm_cons;
        now apply open_tag_at_close).
  rewrite search_skip_no_lt by now apply close_tail_no_lt.
  rewrite <- (app_nil_r post).
  rewrite search_skip_no_tag by (auto; now left).
  destruct (tag_name_cons _ Hn) as (c & name' & -> & _). reflexivity.
Qed.

Lemma regex_nome_eq :
  regex nome
  = open_tag (lit "NomeAttachment")
      ++ ws :: group (Repeat 1 (Some 60) false (Dot false))
      ++ ws :: close_tag (lit "NomeAttachment").
Proof. reflexivity. Qed.

(** what the name pattern reads after the opening tag: white space, a
    name of 1 to 60 characters, white space, the closing tag *)
Lemma name_body_sound (name : str) (lo hi : nat) (cs : charset)
    (s : str) x :
  tag_name name = true ->
  match_here
    (ws :: group (Repeat lo (Some hi) false cs) ++ ws :: close_tag name)
    [] s = Some x ->
  exists wa g wb w1 w2 w3 after,
    s = (wa ++ g ++ wb) ++ close_text name w1 w2 w3 ++ after
    /\ all_space wa = true /\ all_space wb = true
    /\ all_space w1 = true /\ all_space w2 = true
    /\ lo <= length g <= hi.
Proof.
  intros Hn E.
  rewrite match_here_ws in E.
  apply rep_sound in E as (wa & s1 & -> & Hwa & _ & _ & E).
  rewrite group_app, match_mark, match_repeat in E.
  apply rep_sound in E as (g & s2 & -> & _ & Hlo & Hhi & E).
  rewrite match_mark, match_here_ws in E.
  apply rep_sound in E as (wb & s3 & -> & Hwb & _ & _ & E).
  rewrite <- (app_nil_r (close_tag name)) in E.
  apply match_close_tag_sound in E
    as (w1 & w2 & w3 & after & -> & H1 & H2 & _ & _); auto.
  exists wa, g, wb, w1, w2, w3, after.
  repeat split; auto. now rewrite <- !app_assoc.
Qed.

Lemma lone_name_tag_inv (e : element) (post : str) :
  lone_name_tag e post = true ->
  element_ok (lit "NomeAttachment") e = true
  /\ anywhere (opens (lit "NomeAttachment")) (e_content e) = false
  /\ anywhere (opens (lit "NomeAttachment")) post = false
  /\ anywhere (closes (lit "NomeAttachment")) post = false.
Proof.
  unfold lone_name_tag. intros H.
  apply andb_prop in H as [H H4]. apply andb_prop in H as [H H3].
  apply andb_prop in H as [H H2].
  apply negb_true_iff in H2, H3, H4. auto.
Qed.

Lemma name_tag_not_read (e : element) (post : str) :
  element_ok (lit "NomeAttachment") e = true ->
  anywhere (closes (lit "NomeAttachment")) post = false ->
  e_content e = [] \/ 60 < length (str_strip (e_content e)) ->
  match_here (regex nome) [] (element_text (lit "NomeAttachment") e ++ post)
  = None.
Proof.
  intros He Hpost Hcontent.
  destruct (match_here (regex nome) []
              (element_text (lit "NomeAttachment") e ++ post)) eqn:E;
    [exfalso | reflexivity].
  apply element_ok_inv in He as ((H1 & H2 & H3 & H4 & H5) & _ & Hc).
  rewrite regex_nome_eq in E. unfold element_text in E.
  rewrite <- !app_assoc in E. rewrite match_open_tag in E by auto.
  apply name_body_sound in E
    as (wa & g & wb & w1 & w2 & w3 & after & E & Hwa & Hwb & Hw1 & Hw2 & Hg);
    [|reflexivity].
  apply close_tag_position in E; auto.
  destruct Hcontent as [Hempty | Hlong].
  - rewrite Hempty in E. symmetry in E.
    apply app_eq_nil in E as [_ E]. apply app_eq_nil in E as [E _].
    subst g. simpl in Hg. lia.
  - rewrite E, str_strip_spaces in Hlong by assumption.
    pose proof (str_strip_length g). lia.
Qed.

(** C10, as the code has it: a block with one name tag and no other
    opening or closing tag of that name, whose tag content is empty (zero
    characters), or is longer than 60 characters after trimming, has no
    match of the name pattern, and the decoder names it
    [<basename without extension>_allegato_<index>]. *)
Theorem empty_or_long_name_falls_back :
  forall (idx : nat) (path : str) (e : element) (post : str),
    lone_name_tag e post = true ->
    e_content e = [] \/ 60 < length (str_strip (e_content e)) ->
    re_search (regex nome) (name_block e post) = None
    /\ attachment_name idx path (name_block e post)
       = fst (os_path_splitext (snd (os_path_split path)))
           ++ lit "_allegato_" ++ str_of_nat (idx + 1).
Proof.
  intros idx path e post Hlone Hcontent.
  apply lone_name_tag_inv in Hlone as (He & Hco & Hpo & Hpc).
  assert (re_search (regex nome) (name_block e post) = None) as Hs.
  { unfold name_block. rewrite regex_nome_eq.
    apply search_element; auto.
    rewrite <- regex_nome_eq. now apply name_tag_not_read. }
  split; [exact Hs|]. unfold attachment_name. now rewrite Hs.
Qed.

(** C10 as it was stated fails: a name tag whose content is one space has
    an empty trimmed content, yet the pattern matches it, and the name is
    the space. *)
Lemma blank_name_is_matched :
  blank_name_block = name_block (mkElement [] [] [] (lit " ") [] [] []) []
  /\ lone_name_tag (mkElement [] [] [] (lit " ") [] [] []) [] = true
  /\ str_strip (lit " ") = []
  /\ re_search (regex nome) blank_name_block <> None
  /\ attachment_name 0 example_path blank_name_block = lit " "
  /\ attachment_name 0 example_path blank_name_block
     <> lit "invoice_allegato_1".
Proof.
  repeat split; try reflexivity; discriminate.
Qed.

(* ================================================================== *)
(** * Base64: decoding what was encoded *)

(** a property of every number below a bound, checked by enumeration *)
Lemma below_forall (n : nat) (P : N -> bool) :
  forallb P (map N.of_nat (seq 0 n)) = true ->
  forall v, (v < N.of_nat n)%N -> P v = true.
Proof.
  intros H v Hv. rewrite forallb_forall in H. apply H.
  rewrite <- (N2Nat.id v). apply in_map, in_seq. lia.
Qed.

Lemma b2a_digit (v : N) :
  (v < 64)%N -> is_digit_char (b2a v) v = true.
Proof.
  apply (below_forall 64 (fun v => is_digit_char (b2a v) v)).
  vm_compute. reflexivity.
Qed.

Lemma a2b_loop_digit (c v : N) (rest : bytes) (leftbits leftchar quad_pos : N)
    (bin_data : bytes) :
  is_digit_char c v = true ->
  a2b_loop (c :: rest) leftbits leftchar quad_pos bin_data
  = let '(lb, lc, qp, byte) := shift_in v leftbits leftchar quad_pos in
    a2b_loop rest lb lc qp
      (match byte with Some x => bin_data ++ [x] | None => bin_data end).
Proof.
  unfold is_digit_char. intros H.
  repeat (apply andb_prop in H as [H ?]).
  apply negb_true_iff in H.
  match goal with X : negb _ = true |- _ => apply negb_true_iff in X end.
  cbn [a2b_loop]. rewrite H.
  match goal with X : (c =? BASE64_PAD)%N = false |- _ => rewrite X end.
  destruct (table_a2b_base64 c) as [v'|]; [|discriminate].
  match goal with X : opt_N_eqb _ _ = true |- _ =>
    apply N.eqb_eq in X; subst v' end.
  unfold shift_in.
  destruct (8 <=? leftbits + 6)%N; reflexivity.
Qed.

Lemma step_is_eq (v lb lc qp lb' lc' qp' : N) (byte : option N) :
  step_is v lb lc qp lb' lc' qp' byte = true ->
  shift_in v lb lc qp = (lb', lc', qp', byte).
Proof.
  unfold step_is. destruct (shift_in v lb lc qp) as [[[a b] c] d].
  intros H. repeat (apply andb_prop in H as [H ?]).
  apply N.eqb_eq in H. subst.
  repeat match goal with X : (_ =? _)%N = true |- _ =>
    apply N.eqb_eq in X; subst end.
  destruct d as [p|], byte as [q|]; try discriminate; [|reflexivity].
  match goal with X : (_ =? _)%N = true |- _ =>
    apply N.eqb_eq in X; subst end.
  reflexivity.
Qed.

Lemma below_forall2 (n m : nat) (P : N -> N -> bool) :
  forallb (fun x => forallb (P x) (map N.of_nat (seq 0 m)))
    (map N.of_nat (seq 0 n)) = true ->
  forall x y, (x < N.of_nat n)%N -> (y < N.of_nat m)%N -> P x y = true.
Proof.
  intros H x y Hx Hy.
  apply (below_forall m (P x)); [|assumption].
  now apply (below_forall n
               (fun x => forallb (P x) (map N.of_nat (seq 0 m)))).
Qed.

Lemma sextet0_step (x : N) :
  (x < 256)%N ->
  (sextet0 x <? 64)%N
  && step_is (sextet0 x) 0 0 0 6 (sextet0 x) 1 None = true.
Proof.
  apply (below_forall 256
           (fun x => (sextet0 x <? 64)%N
                     && step_is (sextet0 x) 0 0 0 6 (sextet0 x) 1 None)).
  vm_compute. reflexivity.
Qed.

Lemma sextet1_step (x y : N) :
  (x < 256)%N -> (y < 256)%N ->
  (sextet1 x y <? 64)%N
  && step_is (sextet1 x y) 6 (sextet0 x) 1 4 (N.shiftr y 4) 2 (Some x)
  = true.
Proof.
  apply (below_forall2 256 256
           (fun x y =>
              (sextet1 x y <? 64)%N
              && step_is (sextet1 x y) 6 (sextet0 x) 1 4 (N.shiftr y 4) 2
                   (Some x))).
  vm_compute. reflexivity.
Qed.

Lemma sextet2_step (y z : N) :
  (y < 256)%N -> (z < 256)%N ->
  (sextet2 y z <? 64)%N
  && step_is (sextet2 y z) 4 (N.shiftr y 4) 2 2 (N.shiftr z 6) 3 (Some y)
  = true.
Proof.
  apply (below_forall2 256 256
           (fun y z =>
              (sextet2 y z <? 64)%N
              && step_is (sextet2 y z) 4 (N.shiftr y 4) 2 2 (N.shiftr z 6) 3
                   (Some y))).
  vm_compute. reflexivity.
Qed.

Lemma sextet3_step (z : N) :
  (z < 256)%N ->
  (sextet3 z <? 64)%N
  && step_is (sextet3 z) 2 (N.shiftr z 6) 3 0 0 0 (Some z) = true.
Proof.
  apply (below_forall 256
           (fun z => (sextet3 z <? 64)%N
                     && step_is (sextet3 z) 2 (N.shiftr z 6) 3 0 0 0
                          (Some z))).
  vm_compute. reflexivity.
Qed.

(** one digit read: the loop goes on in the state [shift_in] gives *)
Lemma a2b_loop_sextet (v lb lc qp lb' lc' qp' : N) (byte : option N)
    (rest bin_data : bytes) :
  (v <? 64)%N && step_is v lb lc qp lb' lc' qp' byte = true ->
  a2b_loop (b2a v :: rest) lb lc qp bin_data
  = a2b_loop rest lb' lc' qp'
      (match byte with Some x => bin_data ++ [x] | None => bin_data end).
Proof.
  intros H. apply andb_prop in H as [Hv Hs]. apply N.ltb_lt in Hv.
  rewrite (a2b_loop_digit _ v) by now apply b2a_digit.
  now rewrite (step_is_eq _ _ _ _ _ _ _ _ Hs).
Qed.

(** the first two digits of a group *)
Lemma a2b_loop_two (x y : N) (rest bin_data : bytes) :
  (x < 256)%N -> (y < 256)%N ->
  a2b_loop (b2a (sextet0 x) :: b2a (sextet1 x y) :: rest) 0 0 0 bin_data
  = a2b_loop rest 4 (N.shiftr y 4) 2 (bin_data ++ [x]).
Proof.
  intros Hx Hy.
  rewrite (a2b_loop_sextet _ _ _ _ _ _ _ _ _ _ (sextet0_step x Hx)).
  now rewrite (a2b_loop_sextet _ _ _ _ _ _ _ _ _ _ (sextet1_step x y Hx Hy)).
Qed.

(** a full group of four digits *)
Lemma a2b_loop_group (x y z : N) (rest bin_data : bytes) :
  (x < 256)%N -> (y < 256)%N -> (z < 256)%N ->
  a2b_loop
    (b2a (sextet0 x) :: b2a (sextet1 x y) :: b2a (sextet2 y z)
     :: b2a (sextet3 z) :: rest) 0 0 0 bin_data
  = a2b_loop rest 0 0 0 (bin_data ++ [x; y; z]).
Proof.
  intros Hx Hy Hz. rewrite a2b_loop_two by assumption.
  rewrite (a2b_loop_sextet _ _ _ _ _ _ _ _ _ _ (sextet2_step y z Hy Hz)).
  rewrite (a2b_loop_sextet _ _ _ _ _ _ _ _ _ _ (sextet3_step z Hz)).
  now rewrite <- !app_assoc.
Qed.

Lemma sextet1_last (x : N) : N.shiftl (N.land x 3) 4 = sextet1 x 0.
Proof. unfold sextet1. now rewrite N.shiftr_0_l, N.lor_0_r. Qed.

Lemma sextet2_last (y : N) : N.shiftl (N.land y 15) 2 = sextet2 y 0.
Proof. unfold sextet2. now rewrite N.shiftr_0_l, N.lor_0_r. Qed.

(** the loop on an encoding, from the start of a group *)
Lemma a2b_loop_b64encode :
  forall (n : nat) (b bin_data : bytes),
    length b <= n -> is_bytes b = true ->
    a2b_loop (b64encode b) 0 0 0 bin_data = (0%N, bin_data ++ b).
Proof.
  induction n as [|n IH]; intros b bin_data Hn Hb.
  - destruct b; [|simpl in Hn; lia]. simpl. now rewrite app_nil_r.
  - destruct b as [|x [|y [|z rest]]].
    + simpl. now rewrite app_nil_r.
    + simpl in Hb. rewrite andb_true_r in Hb. apply N.ltb_lt in Hb.
      cbn [b64encode]. fold (sextet0 x). rewrite sextet1_last.
      rewrite a2b_loop_two by (assumption || reflexivity). reflexivity.
    + simpl in Hb. rewrite andb_true_r in Hb.
      apply andb_prop in Hb as [Hx Hy].
      apply N.ltb_lt in Hx. apply N.ltb_lt in Hy.
      cbn [b64encode]. fold (sextet0 x) (sextet1 x y).
      rewrite sextet2_last, a2b_loop_two by assumption.
      assert (0 < 256)%N as H0 by reflexivity.
      rewrite (a2b_loop_sextet _ _ _ _ _ _ _ _ _ _
                 (sextet2_step y 0 Hy H0)).
      cbn [a2b_loop]. now rewrite <- app_assoc.
    + cbn [is_bytes forallb] in Hb.
      apply andb_prop in Hb as [Hx Hb]. apply andb_prop in Hb as [Hy Hb].
      apply andb_prop in Hb as [Hz Hb].
      apply N.ltb_lt in Hx. apply N.ltb_lt in Hy. apply N.ltb_lt in Hz.
      cbn [b64encode].
      fold (sextet0 x) (sextet1 x y) (sextet2 y z) (sextet3 z).
      rewrite a2b_loop_group by assumption.
      rewrite IH by (assumption || (simpl in Hn; lia)).
      now rewrite <- app_assoc.
Qed.

Lemma a2b_base64_b64encode (b : bytes) :
  is_bytes b = true -> a2b_base64 (b64encode b) = Ok b.
Proof.
  intros Hb. unfold a2b_base64.
  now rewrite (a2b_loop_b64encode (length b) b [] (le_n _) Hb).
Qed.

Lemma b2a_ascii (v : N) : (v <? 64)%N = true -> (b2a v <? 128)%N = true.
Proof.
  intros Hv. apply N.ltb_lt in Hv.
  pose proof (b2a_digit v Hv) as H. unfold is_digit_char in H.
  now apply andb_prop in H as [_ H].
Qed.

(** a property of every character of an encoding *)
Lemma b64encode_forall (P : N -> bool) :
  (forall v, (v < 64)%N -> P (b2a v) = true) ->
  P BASE64_PAD = true ->
  forall (n : nat) (b : bytes),
    length b <= n -> is_bytes b = true -> forallb P (b64encode b) = true.
Proof.
  intros Hdigit Hpad.
  assert (forall v, (v <? 64)%N = true -> P (b2a v) = true) as Hd
    by (intros v Hv; now apply Hdigit, N.ltb_lt).
  assert (0 < 256)%N as H0 by reflexivity.
  induction n as [|n IH]; intros b Hn Hb.
  - destruct b; [reflexivity | simpl in Hn; lia].
  - destruct b as [|x [|y [|z rest]]]; [reflexivity| | |].
    + simpl in Hb. rewrite andb_true_r in Hb. apply N.ltb_lt in Hb.
      cbn [b64encode forallb]. fold (sextet0 x). rewrite sextet1_last.
      pose proof (sextet0_step x Hb) as H1.
      pose proof (sextet1_step x 0 Hb H0) as H2.
      apply andb_prop in H1 as [H1 _]. apply andb_prop in H2 as [H2 _].
      now rewrite !Hd, Hpad.
    + simpl in Hb. rewrite andb_true_r in Hb.
      apply andb_prop in Hb as [Hx Hy].
      apply N.ltb_lt in Hx. apply N.ltb_lt in Hy.
      cbn [b64encode forallb]. fold (sextet0 x) (sextet1 x y).
      rewrite sextet2_last.
      pose proof (sextet0_step x Hx) as H1.
      pose proof (sextet1_step x y Hx Hy) as H2.
      pose proof (sextet2_step y 0 Hy H0) as H3.
      apply andb_prop in H1 as [H1 _]. apply andb_prop in H2 as [H2 _].
      apply andb_prop in H3 as [H3 _].
      now rewrite !Hd, Hpad.
    + cbn [is_bytes forallb] in Hb.
      apply andb_prop in Hb as [Hx Hb]. apply andb_prop in Hb as [Hy Hb].
      apply andb_prop in Hb as [Hz Hb].
      apply N.ltb_lt in Hx. apply N.ltb_lt in Hy. apply N.ltb_lt in Hz.
      cbn [b64encode forallb].
      fold (sextet0 x) (sextet1 x y) (sextet2 y z) (sextet3 z).
      pose proof (sextet0_step x Hx) as H1.
      pose proof (sextet1_step x y Hx Hy) as H2.
      pose proof (sextet2_step y z Hy Hz) as H3.
      pose proof (sextet3_step z Hz) as H4.
      apply andb_prop in H1 as [H1 _]. apply andb_prop in H2 as [H2 _].
      apply andb_prop in H3 as [H3 _]. apply andb_prop in H4 as [H4 _].
      rewrite !Hd by assumption.
      apply IH; [simpl in Hn; lia | assumption].
Qed.

(** an encoding is ASCII text *)
Lemma b64encode_ascii (b : bytes) :
  is_bytes b = true -> forallb (fun c => (c <? 128)%N) (b64encode b) = true.
Proof.
  intros Hb.
  apply (b64encode_forall (fun c => (c <? 128)%N)
           (fun v Hv => b2a_ascii v (proj2 (N.ltb_lt v 64) Hv)) eq_refl
           (length b) b (le_n _) Hb).
Qed.

(** decoding an encoding gives the bytes back *)
Lemma b64decode_b64encode (b : bytes) :
  is_bytes b = true -> b64decode (b64encode b) = Ok b.
Proof.
  intros Hb. unfold b64decode.
  rewrite (b64encode_ascii b Hb).
  now apply a2b_base64_b64encode.
Qed.

(* ================================================================== *)
(** * The file system *)

Lemma key_eqb_eq (a b : key) : key_eqb a b = true <-> a = b.
Proof.
  unfold key_eqb.
  destruct (list_eq_dec (list_eq_dec N.eq_dec) a b); split; congruence.
Qed.

Lemma key_eqb_refl (a : key) : key_eqb a a = true.
Proof. now apply key_eqb_eq. Qed.

Lemma lookup_store (fs : filesystem) (k k' : key) (n : inode) :
  lookup (store fs k n) k' = if key_eqb k k' then Some n else lookup fs k'.
Proof.
  induction fs as [|[k1 n1] fs IH]; simpl.
  - reflexivity.
  - destruct (key_eqb k1 k) eqn:E1; simpl.
    + apply key_eqb_eq in E1. subst k1. now destruct (key_eqb k k').
    + rewrite IH. destruct (key_eqb k1 k') eqn:E2; [|reflexivity].
      apply key_eqb_eq in E2. subst k'.
      destruct (key_eqb k k1) eqn:E3; [|reflexivity].
      apply key_eqb_eq in E3. subst k1. now rewrite key_eqb_refl in E1.
Qed.

Lemma lookup_store_same (fs : filesystem) (k : key) (n : inode) :
  lookup (store fs k n) k = Some n.
Proof. now rewrite lookup_store, key_eqb_refl. Qed.

(** a walk that succeeds steps from directories only *)
Lemma walk_keeps (fs fs' : filesystem) (path : str) :
  keeps_directories fs fs' ->
  forall comps cur k,
    walk fs path cur comps = Ok k -> walk fs' path cur comps = Ok k.
Proof.
  intros Hk. induction comps as [|c comps IH]; intros cur k H; [exact H|].
  cbn [walk] in *.
  destruct (lookup fs (rev cur)) as [[r wr data | r wr]|] eqn:E;
    try discriminate.
  destruct (Hk _ _ _ E) as (r' & w' & ->).
  destruct (str_eqb c [] || str_eqb c dot); [now apply IH|].
  destruct (str_eqb c dotdot); [now apply IH|].
  destruct (NAME_MAX <? fs_length c)%N; [discriminate | now apply IH].
Qed.

Lemma store_file_keeps (fs : filesystem) (k : key) (n : inode) :
  (forall r w, lookup fs k <> Some (Directory r w)) ->
  keeps_directories fs (store fs k n).
Proof.
  intros Hk k' r w H. rewrite lookup_store.
  destruct (key_eqb k k') eqn:E; [|eauto].
  apply key_eqb_eq in E. subst k'. now apply Hk in H.
Qed.

Lemma resolve_keeps (w : world) (fs' : filesystem) (path : str) (k : key) :
  keeps_directories (w_fs w) fs' ->
  resolve w path = Ok k ->
  resolve (mkWorld fs' (w_cwd w) (w_stderr w)) path = Ok k.
Proof.
  unfold resolve, start_of. intros Hk. cbn [w_fs w_cwd].
  destruct (check_path path); [discriminate|]. now apply walk_keeps.
Qed.

(** ** A path for a new file *)

Lemma walk_app (fs : filesystem) (path : str) (a b : list str) :
  forall cur,
    walk fs path cur (a ++ b)
    = match walk fs path cur a with
      | Ok k => walk fs path (rev k) b
      | Raise e => Raise e
      end.
Proof.
  induction a as [|c a IH]; intros cur.
  - cbn [app walk]. now rewrite rev_involutive.
  - cbn [app walk].
    destruct (lookup fs (rev cur)) as [[? ? ?|? ?]|]; try reflexivity.
    destruct (str_eqb c [] || str_eqb c dot); [apply IH|].
    destruct (str_eqb c dotdot); [apply IH|].
    destruct (NAME_MAX <? fs_length c)%N; [reflexivity | apply IH].
Qed.

(** a walk steps from a directory *)
Lemma walk_from_directory (fs : filesystem) (path : str) (cur : list str)
    (c : str) (comps : list str) (k : key) :
  walk fs path cur (c :: comps) = Ok k ->
  exists r wr, lookup fs (rev cur) = Some (Directory r wr).
Proof.
  cbn [walk].
  destruct (lookup fs (rev cur)) as [[? ? ?|r wr]|]; try discriminate.
  eauto.
Qed.

Lemma walk_empty (fs : filesystem) (path : str) (cur : list str)
    (r wr : bool) :
  lookup fs (rev cur) = Some (Directory r wr) ->
  walk fs path cur [[]] = Ok (rev cur).
Proof. intros H. cbn [walk]. now rewrite H. Qed.

Lemma drop_empty_split (l : list str) :
  exists e, l = e ++ drop_empty l /\ drop_empty e = [].
Proof.
  induction l as [|c l (e & E & He)].
  - exists []. auto.
  - destruct c as [|x c].
    + exists ([] :: e). cbn [drop_empty app]. split; [now f_equal | exact He].
    + exists []. auto.
Qed.

(** the shape of a path after whose last name a separator follows *)
Lemma creat_parent_inv (path : str) (comps : list str) :
  creat_parent path = Some comps ->
  exists e c before,
    str_split sep path = rev before ++ c :: rev e ++ [[]]
    /\ drop_empty e = []
    /\ comps = rev before ++ [[]].
Proof.
  unfold creat_parent.
  destruct (rev (str_split sep path)) as [|[|x l] tail] eqn:E;
    try discriminate.
  destruct (drop_empty_split tail) as (e & Et & He).
  destruct (drop_empty tail) as [|c before] eqn:Ed; [discriminate|].
  destruct (str_eqb c dot || str_eqb c dotdot); [discriminate|].
  intros H. injection H as <-. exists e, c, before. repeat split; auto.
  apply (f_equal (@rev str)) in E. rewrite rev_involutive in E.
  rewrite E, Et. cbn [rev]. rewrite rev_app_distr. cbn [rev].
  now rewrite <- !app_assoc.
Qed.

(** a path after whose last name a separator follows names a directory,
    if it names anything; the walk to the directory of that name then
    succeeds *)
Lemma slash_names_directory (w : world) (path : str) (comps : list str)
    (k : key) :
  creat_parent path = Some comps ->
  resolve w path = Ok k ->
  (exists r wr, lookup (w_fs w) k = Some (Directory r wr))
  /\ exists k', walk (w_fs w) path (start_of w path) comps = Ok k'.
Proof.
  intros Hc. apply creat_parent_inv in Hc as (e & c & before & E & He & ->).
  unfold resolve. destruct (check_path path); [discriminate|].
  rewrite E, walk_app.
  destruct (walk (w_fs w) path (start_of w path) (rev before))
    as [k1|e1] eqn:E1; [|discriminate].
  replace (c :: rev e ++ [[]]) with ((c :: rev e) ++ [[]]) by reflexivity.
  rewrite walk_app. intros H. split.
  - destruct (walk (w_fs w) path (rev k1) (c :: rev e)) as [k2|e2];
      [|discriminate].
    pose proof H as H'. apply walk_from_directory in H' as (r & wr & Hl).
    rewrite (walk_empty _ _ _ _ _ Hl) in H. injection H as <-. eauto.
  - rewrite walk_app, E1.
    destruct (walk (w_fs w) path (rev k1) (c :: rev e)) as [k2|e2] eqn:E2;
      [|discriminate].
    apply walk_from_directory in E2 as (r & wr & Hl).
    rewrite (walk_empty _ _ _ _ _ Hl). eauto.
Qed.

Lemma resolve_creat_plain (w : world) (path : str) :
  slash_after_name path = false -> resolve_creat w path = resolve w path.
Proof.
  unfold slash_after_name, resolve_creat.
  destruct (creat_parent path); [discriminate|].
  now destruct (check_path path).
Qed.

(** a path that resolves for a new file resolves, and no separator
    follows its last name *)
Lemma resolve_creat_ok (w : world) (path : str) (k : key) :
  resolve_creat w path = Ok k ->
  resolve w path = Ok k /\ slash_after_name path = false.
Proof.
  unfold resolve_creat, slash_after_name.
  destruct (check_path path) as [e|] eqn:Ec.
  - unfold resolve. rewrite Ec. discriminate.
  - destruct (creat_parent path) as [comps|]; [|auto].
    destruct (walk (w_fs w) path (start_of w path) comps); discriminate.
Qed.

(** what an [open] that may create raises when a separator follows the
    last name of a path that names an object *)
Lemma resolve_creat_slash (w : world) (path : str) (k : key) :
  slash_after_name path = true ->
  resolve w path = Ok k ->
  resolve_creat w path = Raise (EISDIR path).
Proof.
  unfold slash_after_name, resolve_creat. intros Hs Hr.
  destruct (creat_parent path) as [comps|] eqn:Ec; [|discriminate].
  destruct (slash_names_directory w path comps k Ec Hr) as (_ & k' & Hw).
  unfold resolve in Hr. destruct (check_path path); [discriminate|].
  now rewrite Hw.
Qed.

(** what a successful write did *)
Lemma open_write_ok (path : str) (mode : open_mode) (data : bytes)
    (w w' : world) :
  open_write path mode data w = (Ok tt, w') ->
  exists k readable,
    resolve w path = Ok k
    /\ (forall r wr, lookup (w_fs w) k <> Some (Directory r wr))
    /\ w' = mkWorld (store (w_fs w) k (RegularFile readable true data))
              (w_cwd w) (w_stderr w).
Proof.
  unfold open_write.
  destruct (resolve_creat w path) as [k|e] eqn:R; [|discriminate].
  apply resolve_creat_ok in R as [R _]. rewrite R.
  destruct (lookup (w_fs w) k) as [[r wr old | r wr]|] eqn:E.
  - destruct mode; [|discriminate]. destruct wr; [|discriminate].
    intros H. inversion H. exists k, r. repeat split; congruence.
  - destruct mode; discriminate.
  - assert (forall x : result unit * world,
              match lookup (w_fs w) (removelast k) with
              | Some (Directory _ true) =>
                  (Ok tt,
                   mkWorld (store (w_fs w) k (RegularFile true true data))
                     (w_cwd w) (w_stderr w))
              | _ => (Raise (EACCES path), w)
              end = x ->
              x = (Ok tt, w') ->
              exists k0 readable,
                Ok k = Ok k0
                /\ (forall r wr, lookup (w_fs w) k0 <> Some (Directory r wr))
                /\ w' = mkWorld
                          (store (w_fs w) k0 (RegularFile readable true data))
                          (w_cwd w) (w_stderr w)) as Hx.
    { intros x Hx Hok.
      destruct (lookup (w_fs w) (removelast k)) as [[?|? [|]]|];
        subst x; try discriminate.
      inversion Hok. exists k, true. repeat split; congruence. }
    destruct mode; intros H; eapply Hx; eauto.
Qed.

Lemma check_path_raises (path : str) (e : exn) :
  check_path path = Some e -> is_Exception e.
Proof.
  unfold check_path, encode_error.
  destruct (encode_stop 0 path) as [[[i c] j]|].
  - intros H. injection H as <-. unfold is_Exception. eauto.
  - destruct (existsb (N.eqb 0) path).
    + intros H. injection H as <-. unfold is_Exception. eauto.
    + destruct (str_eqb path []).
      * intros H. injection H as <-.
        unfold ENOENT, OSError, is_Exception. eauto.
      * destruct (PATH_MAX <=? fs_length path)%N; [|discriminate].
        intros H. injection H as <-.
        unfold ENAMETOOLONG, OSError, is_Exception. eauto.
Qed.

Lemma walk_raises (fs : filesystem) (path : str) (e : exn) :
  forall comps cur, walk fs path cur comps = Raise e -> is_Exception e.
Proof.
  induction comps as [|c comps IH]; intros cur; cbn [walk]; [discriminate|].
  destruct (lookup fs (rev cur)) as [[? ? ?|? ?]|].
  - intros H. inversion H. unfold ENOTDIR, OSError, is_Exception. eauto.
  - destruct (str_eqb c [] || str_eqb c dot); [apply IH|].
    destruct (str_eqb c dotdot); [apply IH|].
    destruct (NAME_MAX <? fs_length c)%N; [|apply IH].
    intros H. inversion H. unfold ENAMETOOLONG, OSError, is_Exception. eauto.
  - intros H. inversion H. unfold ENOENT, OSError, is_Exception. eauto.
Qed.

Lemma resolve_raises (w : world) (path : str) (e : exn) :
  resolve w path = Raise e -> is_Exception e.
Proof.
  unfold resolve. destruct (check_path path) as [e0|] eqn:Ec.
  - intros H. injection H as <-. now apply check_path_raises in Ec.
  - apply walk_raises.
Qed.

Lemma resolve_creat_raises (w : world) (path : str) (e : exn) :
  resolve_creat w path = Raise e -> is_Exception e.
Proof.
  unfold resolve_creat.
  destruct (check_path path) as [e0|] eqn:Ec; [apply resolve_raises|].
  destruct (creat_parent path) as [comps|]; [|apply resolve_raises].
  destruct (walk (w_fs w) path (start_of w path) comps) as [k|e1] eqn:Ew.
  - intros H. injection H as <-.
    unfold EISDIR, OSError, is_Exception. eauto.
  - intros H. injection H as <-. now apply walk_raises in Ew.
Qed.

(** a write that fails raises an [Exception] and changes nothing *)
Lemma open_write_raises (path : str) (mode : open_mode) (data : bytes)
    (w w' : world) (e : exn) :
  open_write path mode data w = (Raise e, w') ->
  w' = w /\ is_Exception e.
Proof.
  unfold open_write. destruct (resolve_creat w path) as [k|e0] eqn:R.
  - destruct (lookup (w_fs w) k) as [[r wr old | r wr]|].
    + destruct mode.
      * destruct wr; intros H; inversion H.
        unfold EACCES, OSError, is_Exception. eauto.
      * intros H; inversion H.
        unfold EEXIST, OSError, is_Exception. eauto.
    + destruct mode; intros H; inversion H;
        unfold EISDIR, EEXIST, OSError, is_Exception; eauto.
    + destruct (lookup (w_fs w) (removelast k)) as [[?|? [|]]|];
        destruct mode; intros H; inversion H;
        unfold EACCES, OSError, is_Exception; eauto.
  - intros H. inversion H. subst. split; [reflexivity|].
    now apply resolve_creat_raises in R.
Qed.

(** after a successful write the file holds the bytes *)
Lemma open_write_content (path : str) (mode : open_mode) (data : bytes)
    (w w' : world) :
  open_write path mode data w = (Ok tt, w') ->
  file_content w' path = Some data /\ w_stderr w' = w_stderr w.
Proof.
  intros H. apply open_write_ok in H as (k & r & Hr & Hd & ->).
  split; [|reflexivity]. unfold file_content.
  rewrite (resolve_keeps w _ path k (store_file_keeps _ _ _ Hd) Hr).
  cbn [w_fs]. now rewrite lookup_store_same.
Qed.

(* ================================================================== *)
(** * The writer *)

Lemma write_attachment_eq (attachment : str * str * bytes)
    (outdir : option str) (safety : str) (w : world) :
  write_attachment attachment outdir safety w
  = match open_write (outpath attachment outdir) (write_mode safety)
            (snd attachment) w with
    | (Ok _, w') => (Ok tt, w')
    | (Raise ex, _) => (Ok tt, printed w (exn_str ex))
    end.
Proof.
  destruct attachment as [[dirname filename] data].
  unfold write_attachment, try_except_Exception, write_mode. cbn [snd].
  destruct (open_write (outpath (dirname, filename, data) outdir)
              (if str_eqb safety (lit "low") then wb else xb) data w)
    as [[[]|ex] w'] eqn:E; [reflexivity|].
  apply open_write_raises in E as [-> (cls & msg & ->)]. reflexivity.
Qed.

(** no separator follows the last name of a path that names a file *)
Lemma file_path_plain (w : world) (path : str) (k : key)
    (r wr : bool) (data : bytes) :
  resolve w path = Ok k ->
  lookup (w_fs w) k = Some (RegularFile r wr data) ->
  slash_after_name path = false.
Proof.
  intros Hr Hl. unfold slash_after_name.
  destruct (creat_parent path) as [comps|] eqn:Ec; [|reflexivity].
  destruct (slash_names_directory w path comps k Ec Hr)
    as ((r' & wr' & Hd) & _).
  congruence.
Qed.

Lemma writable_file_plain (w : world) (path : str) :
  writable_file w path = true -> slash_after_name path = false.
Proof.
  unfold writable_file.
  destruct (resolve w path) as [k|e] eqn:Hr; [|discriminate].
  destruct (lookup (w_fs w) k) as [[r wr old | r wr]|] eqn:Hl;
    try discriminate.
  intros _. exact (file_path_plain w path k _ _ _ Hr Hl).
Qed.

Lemma open_write_truncates (path : str) (data : bytes) (w : world) :
  writable_file w path = true ->
  exists w', open_write path wb data w = (Ok tt, w').
Proof.
  unfold writable_file, open_write.
  destruct (resolve w path) as [k|e] eqn:Hr; [|discriminate].
  destruct (lookup (w_fs w) k) as [[r [|] old | r wr]|] eqn:Hl;
    try discriminate.
  rewrite (resolve_creat_plain w path (file_path_plain w path k _ _ _ Hr Hl)).
  rewrite Hr, Hl. eauto.
Qed.

(** an exclusive creation fails on a path that names an object *)
Lemma open_write_exclusive (path : str) (data : bytes) (w : world) :
  path_exists w path = true ->
  open_write path xb data w
  = (Raise (if slash_after_name path then EISDIR path else EEXIST path), w).
Proof.
  unfold path_exists, open_write.
  destruct (resolve w path) as [k|e] eqn:Hr; [|discriminate].
  destruct (slash_after_name path) eqn:Hs.
  - now rewrite (resolve_creat_slash w path k Hs Hr).
  - rewrite (resolve_creat_plain w path Hs), Hr.
    destruct (lookup (w_fs w) k) as [[r wr old | r wr]|];
      try discriminate; reflexivity.
Qed.

(** a file is made where the path can be made *)
Lemma open_write_creates (path : str) (mode : open_mode) (data : bytes)
    (w : world) :
  creatable w path = true ->
  exists k,
    resolve w path = Ok k
    /\ lookup (w_fs w) k = None
    /\ open_write path mode data w
       = (Ok tt,
          mkWorld (store (w_fs w) k (RegularFile true true data))
            (w_cwd w) (w_stderr w)).
Proof.
  unfold creatable, open_write.
  destruct (resolve_creat w path) as [k|e] eqn:Hr; [|discriminate].
  destruct (lookup (w_fs w) k) as [n|] eqn:En; [discriminate|].
  destruct (lookup (w_fs w) (removelast k)) as [[?|? [|]]|] eqn:Ep;
    try discriminate.
  intros _. exists k. apply resolve_creat_ok in Hr as [Hr _].
  split; [exact Hr|]. split; [exact En|]. now destruct mode.
Qed.

(** C6: [write_attachment] returns, whatever happens.  With the safety
    [low] it overwrites a target that is a writable file; with any other
    safety it opens the target for exclusive creation: the write fails
    when the target exists (with [File exists]; with [Is a directory] when
    a separator follows the last name of the target), so a write that
    printed nothing found no object at the target.  With every safety a
    target that names nothing, in a directory that can be written, is made
    and holds the bytes.  A write that fails prints the error, changes
    nothing else and does not raise, so the loop over the attachments
    goes on with the next one. *)
Theorem write_attachment_policy :
  forall (attachment : str * str * bytes) (outdir : option str)
         (safety : str) (w : world),
    let target := outpath attachment outdir in
    let data := snd attachment in
    exists w',
      write_attachment attachment outdir safety w = (Ok tt, w')
      /\ ((file_content w' target = Some data
           /\ w_stderr w' = w_stderr w)
          \/ (exists ex,
                open_write target (write_mode safety) data w = (Raise ex, w)
                /\ w' = printed w (exn_str ex)))
      /\ (safety = lit "low" -> writable_file w target = true ->
          file_content w' target = Some data /\ w_stderr w' = w_stderr w)
      /\ (safety <> lit "low" -> path_exists w target = true ->
          w' = printed w
                 (exn_str (if slash_after_name target then EISDIR target
                           else EEXIST target)))
      /\ (safety <> lit "low" -> w_stderr w' = w_stderr w ->
          path_exists w target = false)
      /\ (creatable w target = true ->
          file_content w' target = Some data /\ w_stderr w' = w_stderr w)
      /\ (forall rest,
            for_each (Yield attachment :: rest) (handle_event outdir safety) w
            = for_each rest (handle_event outdir safety) w').
Proof.
  intros attachment outdir safety w target data.
  pose proof (write_attachment_eq attachment outdir safety w) as Hw.
  fold target data in Hw.
  destruct (open_write target (write_mode safety) data w)
    as [[[]|ex] w1] eqn:E.
  - exists w1. pose proof (open_write_content _ _ _ _ _ E) as Hc.
    assert (safety <> lit "low" -> path_exists w target = false) as Hnew.
    { intros Hs. destruct (path_exists w target) eqn:He; [|reflexivity].
      unfold write_mode in E. apply str_eqb_neq in Hs. rewrite Hs in E.
      rewrite (open_write_exclusive _ _ _ He) in E. discriminate. }
    split; [exact Hw|]. split; [now left|]. split; [auto|].
    split; [|split; [|split]]; auto.
    + intros Hs He. rewrite (Hnew Hs) in He. discriminate.
    + intros rest. cbn [for_each handle_event]. unfold bind. now rewrite Hw.
  - exists (printed w (exn_str ex)).
    pose proof (open_write_raises _ _ _ _ _ _ E) as [-> _].
    split; [exact Hw|]. split; [right; eauto|].
    split; [|split; [|split; [|split]]].
    + intros Hs Hf. unfold write_mode in E.
      apply str_eqb_eq in Hs. rewrite Hs in E.
      destruct (open_write_truncates target data w Hf) as [w2 E2].
      rewrite E2 in E. discriminate.
    + intros Hs He. unfold write_mode in E.
      apply str_eqb_neq in Hs. rewrite Hs in E.
      rewrite (open_write_exclusive _ _ _ He) in E. now inversion E.
    + intros _ Hp. exfalso. apply (f_equal (@length str)) in Hp.
      unfold printed in Hp. cbn [w_stderr] in Hp.
      rewrite length_app in Hp. cbn [length] in Hp. lia.
    + intros Hc.
      destruct (open_write_creates target (write_mode safety) data w Hc)
        as (k & _ & _ & E2).
      rewrite E2 in E. discriminate.
    + intros rest. cbn [for_each handle_event]. unfold bind. now rewrite Hw.
Qed.

(* ================================================================== *)
(** * The round trip of a payload *)

Lemma b2a_payload_char (v : N) : (v < 64)%N -> payload_char (b2a v) = true.
Proof.
  apply (below_forall 64 (fun v => payload_char (b2a v))).
  vm_compute. reflexivity.
Qed.

Lemma b64encode_payload (b : bytes) :
  is_bytes b = true -> forallb payload_char (b64encode b) = true.
Proof.
  intros Hb.
  apply (b64encode_forall payload_char b2a_payload_char eq_refl
           (length b) b (le_n _) Hb).
Qed.

Lemma close_tag_needs_lt (name : str) (r : pattern) (ms : marks)
    (c : N) (s : str) :
  c <> chr "<" -> match_here (close_tag name ++ r) ms (c :: s) = None.
Proof.
  intros Hc. unfold close_tag. cbn [app match_here].
  destruct (c =? chr "<")%N eqn:E; [|reflexivity].
  apply N.eqb_eq in E. contradiction.
Qed.

Lemma regex_allegato_eq :
  regex allegato
  = open_tag (lit "Attachment")
      ++ group (Repeat 0 None false base64_set)
      ++ close_tag (lit "Attachment").
Proof. reflexivity. Qed.

(** the payload pattern on a payload tag that holds payload characters *)
Lemma match_payload_tag (content rest : str) :
  forallb payload_char content = true ->
  let after := lit "</Attachment>" ++ rest in
  match_here (regex allegato) []
    (lit "<Attachment>" ++ content ++ after)
  = Some ([(1, after); (0, content ++ after)], rest).
Proof.
  intros Hc after. rewrite regex_allegato_eq.
  change (lit "<Attachment>") with (open_text (lit "Attachment") [] []).
  rewrite match_open_tag by reflexivity.
  rewrite group_app, match_mark, match_repeat.
  apply rep_lazy_first.
  - rewrite forallb_forall in *. intros c Hin.
    apply Hc in Hin. unfold payload_char in Hin.
    now apply andb_prop in Hin as [Hin _].
  - intros a b -> Hb. destruct b as [|c b]; [congruence|].
    rewrite match_mark, <- (app_nil_r (close_tag _)), <- app_comm_cons.
    apply close_tag_needs_lt. intros ->.
    rewrite forallb_app in Hc. apply andb_prop in Hc as [_ Hc].
    discriminate.
  - rewrite match_mark, <- (app_nil_r (close_tag _)). unfold after.
    change (lit "</Attachment>")
      with (close_text (lit "Attachment") [] [] []).
    now rewrite match_close_tag.
Qed.

Lemma decode_payload_tag (b : bytes) :
  is_bytes b = true ->
  decode_payload (lit "<Attachment>" ++ b64encode b ++ lit "</Attachment>")
  = Ok b.
Proof.
  intros Hb.
  pose proof (match_payload_tag (b64encode b) [] (b64encode_payload b Hb))
    as H. cbv zeta in H. rewrite app_nil_r in H.
  unfold decode_payload.
  rewrite (search_here _ _ _ (f_equal
             (fun o => match o with
                       | Some (ms, rest) => Some (mkMatch _ ms rest)
                       | None => None
                       end) H)).
  cbn [group_1]. rewrite group1_element.
  now apply b64decode_b64encode.
Qed.

(** C9: what [b64encode] made of the bytes [b] is decoded to [b]: by
    [b64decode], by the decoder on a payload tag that holds the encoding,
    and on any block whose payload search captures the encoding.  The
    decoder yields these bytes when there are some, and a write of the
    yielded tuple that prints no error leaves a file that holds exactly
    [b]. *)
Theorem base64_round_trip :
  forall (str_lower : str -> str) (b : bytes),
    is_bytes b = true ->
    b64decode (b64encode b) = Ok b
    /\ decode_payload
         (lit "<Attachment>" ++ b64encode b ++ lit "</Attachment>") = Ok b
    /\ (forall attachment m,
          re_search (regex allegato) attachment = Some m ->
          group1 m = b64encode b ->
          decode_payload attachment = Ok b)
    /\ (forall idx path attachment,
          decode_payload attachment = Ok b -> b <> [] ->
          exists dirname filename,
            decode_block str_lower idx (path, attachment)
            = [Yield (dirname, filename, b)])
    /\ (forall dirname filename outdir safety w w',
          write_attachment (dirname, filename, b) outdir safety w
          = (Ok tt, w') ->
          w_stderr w' = w_stderr w ->
          file_content w' (outpath (dirname, filename, b) outdir) = Some b).
Proof.
  intros str_lower b Hb.
  split; [now apply b64decode_b64encode|].
  split; [now apply decode_payload_tag|].
  split; [|split].
  - intros attachment m Hm Hg.
    rewrite (decode_payload_present _ _ Hm), Hg.
    now apply b64decode_b64encode.
  - intros idx path attachment Hd Hne.
    rewrite decode_block_eq, Hd. apply str_eqb_neq in Hne. rewrite Hne.
    eauto.
  - intros dirname filename outdir safety w w' Hw Hs.
    rewrite write_attachment_eq in Hw. cbn [snd] in Hw.
    destruct (open_write (outpath (dirname, filename, b) outdir)
                (write_mode safety) b w) as [[[]|ex] w1] eqn:E.
    + inversion Hw. subst w1. now apply open_write_content in E.
    + inversion Hw. subst w'. exfalso.
      apply (f_equal (@length str)) in Hs. unfold printed in Hs.
      cbn [w_stderr] in Hs. rewrite length_app in Hs. simpl in Hs. lia.
Qed.

(* ================================================================== *)
(** * A name in a directory *)

Lemma str_split_nonempty (c : N) (s : str) : str_split c s <> [].
Proof.
  destruct s as [|x s]; cbn [str_split]; [discriminate|].
  destruct (x =? c)%N; [discriminate|].
  destruct (str_split c s); discriminate.
Qed.

Lemma str_split_app (c : N) (a b : str) :
  str_split c (a ++ c :: b) = str_split c a ++ str_split c b.
Proof.
  induction a as [|x a IH]; cbn [app str_split].
  - now rewrite N.eqb_refl.
  - rewrite IH. destruct (x =? c)%N; [reflexivity|].
    pose proof (str_split_nonempty c a) as Hne.
    destruct (str_split c a) as [|h t]; [contradiction | reflexivity].
Qed.

Lemma str_split_plain (c : N) (i : str) :
  existsb (N.eqb c) i = false -> str_split c i = [i].
Proof.
  induction i as [|x i IH]; [reflexivity|]. cbn [existsb str_split].
  intros H. apply orb_false_elim in H as [Hx Hi].
  rewrite N.eqb_sym in Hx. rewrite Hx, (IH Hi). reflexivity.
Qed.

Lemma endswith_inv (p : str) (c : N) :
  endswith p [c] = true -> exists q, p = q ++ [c].
Proof.
  unfold endswith. intros H.
  destruct (rev p) as [|x t] eqn:E; [discriminate|].
  cbn [rev app startswith] in H. apply andb_prop in H as [H _].
  apply N.eqb_eq in H. subst x. exists (rev t).
  apply (f_equal (@rev N)) in E. rewrite rev_involutive in E.
  exact E.
Qed.

(** the text of the path matters to the error of a walk only *)
Lemma walk_path (fs : filesystem) (path path' : str) :
  forall comps cur k,
    walk fs path cur comps = Ok k -> walk fs path' cur comps = Ok k.
Proof.
  induction comps as [|c comps IH]; intros cur k; cbn [walk]; [auto|].
  destruct (lookup fs (rev cur)) as [[? ? ?|? ?]|]; try discriminate.
  destruct (str_eqb c [] || str_eqb c dot); [apply IH|].
  destruct (str_eqb c dotdot); [apply IH|].
  destruct (NAME_MAX <? fs_length c)%N; [discriminate | apply IH].
Qed.

Lemma file_name_inv (i : str) :
  file_name i = true ->
  str_eqb i [] = false /\ existsb (N.eqb sep) i = false
  /\ str_eqb i dot = false /\ str_eqb i dotdot = false
  /\ (NAME_MAX <? fs_length i)%N = false.
Proof.
  unfold file_name. intros H.
  apply andb_prop in H as [H H5]. apply andb_prop in H as [H H4].
  apply andb_prop in H as [H H3]. apply andb_prop in H as [H1 H2].
  apply negb_true_iff in H1, H2, H3, H4.
  repeat split; auto. apply N.ltb_ge. now apply N.leb_le.
Qed.

(** the step of a walk into a name *)
Lemma walk_name (fs : filesystem) (path : str) (cur : list str) (i : str)
    (r wr : bool) :
  lookup fs (rev cur) = Some (Directory r wr) ->
  file_name i = true ->
  walk fs path cur [i] = Ok (rev cur ++ [i]).
Proof.
  intros Hl Hi. apply file_name_inv in Hi as (H1 & _ & H3 & H4 & H5).
  cbn [walk]. rewrite Hl, H1, H3, H4, H5. reflexivity.
Qed.

(** a name joined to a path that resolves to a directory resolves to the
    entry of that name in the directory *)
Lemma resolve_child (w : world) (p i : str) (k : key) (r wr : bool) :
  resolve w p = Ok k ->
  lookup (w_fs w) k = Some (Directory r wr) ->
  file_name i = true ->
  check_path (os_path_join p i) = None ->
  resolve w (os_path_join p i) = Ok (k ++ [i]).
Proof.
  intros Hr Hl Hi Hc. unfold resolve in *. rewrite Hc.
  destruct (check_path p) as [e|] eqn:Ep; [discriminate|].
  destruct p as [|x p]; [discriminate Ep|].
  pose proof (file_name_inv i Hi) as (Hne & Hsep & _).
  assert (startswith [sep] i = false) as Hs.
  { destruct i as [|y i]; [reflexivity|]. cbn [existsb] in Hsep.
    apply orb_false_elim in Hsep as [Hy _]. cbn [startswith].
    now rewrite Hy. }
  assert (forall rest, start_of w ((x :: p) ++ rest) = start_of w (x :: p))
    as Hstart by reflexivity.
  unfold os_path_join in *. rewrite Hs in *. cbn [str_eqb orb] in *.
  assert (str_eqb (x :: p) [] = false) as Hx by now apply str_eqb_neq.
  rewrite Hx in *. cbn [orb] in *.
  destruct (endswith (x :: p) [sep]) eqn:He.
  - apply endswith_inv in He as [q Eq]. rewrite Hstart.
    assert (str_split sep (x :: p) = str_split sep q ++ [[]]) as E1
      by (rewrite Eq; apply (str_split_app sep q [])).
    assert (str_split sep ((x :: p) ++ i) = str_split sep q ++ [i]) as E2.
    { rewrite Eq, <- app_assoc. cbn [app].
      now rewrite str_split_app, (str_split_plain _ _ Hsep). }
    rewrite E2, walk_app. rewrite E1, walk_app in Hr.
    destruct (walk (w_fs w) (x :: p) (start_of w (x :: p))
                (str_split sep q)) as [k1|e] eqn:Ew; [|discriminate].
    rewrite (walk_path _ _ ((x :: p) ++ i) _ _ _ Ew).
    pose proof Hr as Hd. apply walk_from_directory in Hd as (r1 & wr1 & Hd).
    rewrite (walk_empty _ _ _ _ _ Hd) in Hr. injection Hr as <-.
    now rewrite (walk_name _ _ _ _ _ _ Hd Hi).
  - specialize (Hstart (sep :: i)). rewrite Hstart.
    rewrite str_split_app, (str_split_plain _ _ Hsep), walk_app.
    rewrite (walk_path _ _ ((x :: p) ++ sep :: i) _ _ _ Hr).
    rewrite <- (rev_involutive k) in Hl.
    rewrite (walk_name _ _ _ _ _ _ Hl Hi). now rewrite rev_involutive.
Qed.

(* ================================================================== *)
(** * The source enumerator *)

Section Enumerator.

Variable decode_text : bytes -> str + str.

Lemma children_are_entries (fs : filesystem) (d : key) (i : str) :
  In i (children fs d) -> exists n, In (d ++ [i], n) fs.
Proof.
  induction fs as [|[k n] fs IH]; simpl; [tauto|].
  destruct (rev k) as [|name parent] eqn:E.
  - intros H. destruct (IH H) as [n' Hn]. eauto.
  - destruct (key_eqb (rev parent) d) eqn:Ek.
    + intros [Hi | Hi].
      * subst i. apply key_eqb_eq in Ek. subst d.
        exists n. left. f_equal.
        rewrite <- (rev_involutive k), E. reflexivity.
      * destruct (IH Hi) as [n' Hn]. eauto.
    + intros H. destruct (IH H) as [n' Hn]. eauto.
Qed.

Lemma os_path_isfile_returns (path : str) (w : world) :
  exists b, os_path_isfile path w = (Ok b, w).
Proof.
  unfold os_path_isfile. destruct (resolve w path) as [k|e]; [|eauto].
  destruct (lookup (w_fs w) k) as [[? ? ?|? ?]|]; eauto.
Qed.

Lemma open_read_outcome (path : str) (w : world) :
  (exists text, open_read decode_text path w = (Ok text, w))
  \/ (exists ex, is_Exception ex
                 /\ open_read decode_text path w = (Raise ex, w)).
Proof.
  unfold open_read. destruct (resolve w path) as [k|e] eqn:R.
  - destruct (lookup (w_fs w) k) as [[[|] ? data|? ?]|].
    + destruct (decode_text data) as [text|msg]; [left; eauto|].
      right. eexists. split; [|reflexivity]. unfold is_Exception. eauto.
    + right. eexists. split; [|reflexivity].
      unfold EACCES, OSError, is_Exception. eauto.
    + right. eexists. split; [|reflexivity].
      unfold EISDIR, OSError, is_Exception. eauto.
    + right. eexists. split; [|reflexivity].
      unfold ENOENT, OSError, is_Exception. eauto.
  - right. exists e. split; [|reflexivity]. now apply resolve_raises in R.
Qed.

(** one iteration of the loop over the files: the tuple, or a line on the
    diagnostic stream and nothing *)
Lemma read_xml_file_outcome (path_ : str) (w : world) :
  (exists text,
     open_read decode_text path_ w = (Ok text, w)
     /\ read_xml_file decode_text path_ w = (Ok (Some (path_, text)), w))
  \/ (exists ex,
        open_read decode_text path_ w = (Raise ex, w)
        /\ read_xml_file decode_text path_ w
           = (Ok None, printed w (exn_str ex))).
Proof.
  unfold read_xml_file, try_except_Exception, bind, ret.
  destruct (open_read_outcome path_ w)
    as [[text E] | (ex & (cls & msg & ->) & E)]; rewrite E.
  - left. eauto.
  - right. eexists. split; reflexivity.
Qed.

Lemma read_xml_file_returns (path_ : str) :
  returns (read_xml_file decode_text path_).
Proof.
  intros w. destruct (read_xml_file_outcome path_ w)
    as [(text & _ & E) | (ex & _ & E)]; rewrite E; eauto.
Qed.

Lemma xml_candidate_returns (path i : str) :
  returns (xml_candidate decode_text path i).
Proof.
  intros w. unfold xml_candidate, bind.
  destruct (os_path_isfile_returns (os_path_join path i) w) as [b ->].
  destruct (b && endswith i (lit ".xml")).
  - apply read_xml_file_returns.
  - unfold ret. eauto.
Qed.

Lemma yield_xml_files_eq (path : str) (w : world) :
  yield_xml_files decode_text path w
  = let p := os_path_abspath (w_cwd w) path in
    match os_listdir p w with
    | (Ok names, w') => (Ok (map (xml_candidate decode_text p) names), w')
    | (Raise (Exception NotADirectoryError _), w') =>
        (Ok [read_xml_file decode_text p], w')
    | (Raise (Exception FileNotFoundError msg), w') =>
        (Raise (SystemExit 1), printed w' msg)
    | (Raise ex, w') => (Raise ex, w')
    end.
Proof.
  unfold yield_xml_files, bind, os_getcwd. cbv zeta.
  destruct (os_listdir (os_path_abspath (w_cwd w) path) w)
    as [[names|[[]|]] w']; reflexivity.
Qed.

(** C7: for a path that is a directory the generator has one pending
    iteration for each name of the listing of that directory, and no
    other; an iteration yields only the file of that name, joined to the
    directory, and only when it is a regular file whose name ends in
    [.xml]; a name that is not a regular file yields nothing.  A name that
    ends in [.xml] and is a regular file that can be read is yielded, with
    its text: so is every such entry of the directory, while an entry that
    is a directory yields nothing, whatever its name.  For a path that is
    a regular file the one iteration reads that file, whatever its name,
    and yields it when it can be read. *)
Theorem yield_xml_files_candidates :
  forall (path : str) (w : world) (k : key),
    let p := os_path_abspath (w_cwd w) path in
    resolve w p = Ok k ->
    (forall writable,
       lookup (w_fs w) k = Some (Directory true writable) ->
       yield_xml_files decode_text path w
       = (Ok (map (xml_candidate decode_text p) (children (w_fs w) k)), w)
       /\ forall i, In i (children (w_fs w) k) ->
                    exists n, In (k ++ [i], n) (w_fs w))
    /\ (forall i w1 file w2,
          xml_candidate decode_text p i w1 = (Ok (Some file), w2) ->
          endswith i (lit ".xml") = true
          /\ os_path_isfile (os_path_join p i) w1 = (Ok true, w1)
          /\ fst file = os_path_join p i
          /\ open_read decode_text (os_path_join p i) w1
             = (Ok (snd file), w1)
          /\ w2 = w1)
    /\ (forall i w1,
          os_path_isfile (os_path_join p i) w1 = (Ok false, w1) ->
          xml_candidate decode_text p i w1 = (Ok None, w1))
    /\ (forall i w1 k1 writable data text,
          endswith i (lit ".xml") = true ->
          resolve w1 (os_path_join p i) = Ok k1 ->
          lookup (w_fs w1) k1 = Some (RegularFile true writable data) ->
          decode_text data = inl text ->
          xml_candidate decode_text p i w1
          = (Ok (Some (os_path_join p i, text)), w1))
    /\ (forall i r wr,
          lookup (w_fs w) k = Some (Directory r wr) ->
          file_name i = true ->
          check_path (os_path_join p i) = None ->
          (forall writable data text,
             endswith i (lit ".xml") = true ->
             lookup (w_fs w) (k ++ [i])
             = Some (RegularFile true writable data) ->
             decode_text data = inl text ->
             xml_candidate decode_text p i w
             = (Ok (Some (os_path_join p i, text)), w))
          /\ (forall r' wr',
                lookup (w_fs w) (k ++ [i]) = Some (Directory r' wr') ->
                xml_candidate decode_text p i w = (Ok None, w)))
    /\ (forall readable writable data,
          lookup (w_fs w) k = Some (RegularFile readable writable data) ->
          yield_xml_files decode_text path w
          = (Ok [read_xml_file decode_text p], w)
          /\ forall text,
               readable = true -> decode_text data = inl text ->
               read_xml_file decode_text p w = (Ok (Some (p, text)), w)).
Proof.
  intros path w k p Hk.
  assert (forall i w1 k1 writable data text,
            endswith i (lit ".xml") = true ->
            resolve w1 (os_path_join p i) = Ok k1 ->
            lookup (w_fs w1) k1 = Some (RegularFile true writable data) ->
            decode_text data = inl text ->
            xml_candidate decode_text p i w1
            = (Ok (Some (os_path_join p i, text)), w1)) as Hyes.
  { intros i w1 k1 writable data text He Hr Hl Ht.
    unfold xml_candidate, bind, os_path_isfile. rewrite Hr, Hl, He.
    cbn [andb]. unfold read_xml_file, try_except_Exception, bind, open_read.
    now rewrite Hr, Hl, Ht. }
  split; [|split; [|split; [|split; [|split]]]].
  - intros writable Hd. split.
    + rewrite yield_xml_files_eq. fold p. unfold os_listdir.
      now rewrite Hk, Hd.
    + intros i. apply children_are_entries.
  - intros i w1 file w2. unfold xml_candidate, bind.
    destruct (os_path_isfile_returns (os_path_join p i) w1) as [b Hb].
    rewrite Hb. destruct b; cbn [andb]; [|discriminate].
    destruct (endswith i (lit ".xml")); [|discriminate].
    destruct (read_xml_file_outcome (os_path_join p i) w1)
      as [(text & Ho & E) | (ex & _ & E)]; rewrite E; intros H;
      inversion H; subst. auto.
  - intros i w1 Hf. unfold xml_candidate, bind. now rewrite Hf.
  - exact Hyes.
  - intros i r wr Hd Hi Hc.
    pose proof (resolve_child w p i k r wr Hk Hd Hi Hc) as Hr. split.
    + intros writable data text He Hl Ht.
      exact (Hyes i w (k ++ [i]) writable data text He Hr Hl Ht).
    + intros r' wr' Hl. unfold xml_candidate, bind, os_path_isfile.
      now rewrite Hr, Hl.
  - intros readable writable data Hf. split.
    + rewrite yield_xml_files_eq. fold p. unfold os_listdir.
      now rewrite Hk, Hf.
    + intros text -> Ht. unfold read_xml_file, try_except_Exception, bind.
      unfold open_read. now rewrite Hk, Hf, Ht.
Qed.

End Enumerator.

(* ================================================================== *)
(** * The exit status *)

Section ExitStatus.

Variable str_lower : str -> str.
Variable decode_text : bytes -> str + str.

Lemma for_each_returns (A : Type) (body : A -> M unit) :
  (forall x, returns (body x)) ->
  forall l, returns (for_each l body).
Proof.
  intros Hb. induction l as [|x l IH]; intros w.
  - unfold for_each, ret. eauto.
  - cbn [for_each]. unfold bind.
    destruct (Hb x w) as ([] & w1 & ->). apply IH.
Qed.

Lemma write_attachment_returns (attachment : str * str * bytes)
    (outdir : option str) (safety : str) :
  returns (write_attachment attachment outdir safety).
Proof.
  intros w. rewrite write_attachment_eq.
  destruct (open_write _ _ _ w) as [[[]|ex] w1]; eauto.
Qed.

Lemma handle_event_returns (outdir : option str) (safety : str)
    (ev : event) :
  returns (handle_event outdir safety ev).
Proof.
  destruct ev as [attachment|text]; cbn [handle_event].
  - apply write_attachment_returns.
  - intros w. unfold print_stderr. eauto.
Qed.

Lemma main_eq (args : arguments) :
  main str_lower decode_text args
  = (files <- yield_xml_files decode_text (args_path args) ;;
     for_each files
       (main_body str_lower (args_outdir args) (args_safety args))).
Proof. reflexivity. Qed.

Lemma main_body_returns (outdir : option str) (safety : str)
    (next : M (option (str * str))) :
  returns next -> returns (main_body str_lower outdir safety next).
Proof.
  intros Hn w. unfold main_body, bind.
  destruct (Hn w) as (file & w1 & ->).
  destruct file as [file|].
  - apply for_each_returns. apply handle_event_returns.
  - unfold ret. eauto.
Qed.

Lemma main_loop_returns (outdir : option str) (safety : str)
    (files : list (M (option (str * str)))) :
  Forall (@returns _) files ->
  returns (for_each files (main_body str_lower outdir safety)).
Proof.
  induction 1 as [|next files Hn _ IH]; intros w.
  - unfold for_each, ret. eauto.
  - cbn [for_each]. unfold bind.
    destruct (main_body_returns outdir safety next Hn w) as ([] & w1 & ->).
    apply IH.
Qed.

(** C8, as the code has it: when [os.listdir] reports the path as not
    found the program prints the error and ends with the status 1; when
    the path can be listed, or [os.listdir] reports it as not a directory,
    the program ends with the status 0, whatever happens to the files and
    the attachments. *)
Theorem exit_status_follows_listing :
  forall (args : arguments) (w : world),
    let p := os_path_abspath (w_cwd w) (args_path args) in
    (forall msg,
       os_listdir p w = (Raise (Exception FileNotFoundError msg), w) ->
       run str_lower decode_text args w = (1%Z, printed w msg))
    /\ (forall names,
          os_listdir p w = (Ok names, w) ->
          fst (run str_lower decode_text args w) = 0%Z)
    /\ (forall msg,
          os_listdir p w = (Raise (Exception NotADirectoryError msg), w) ->
          fst (run str_lower decode_text args w) = 0%Z).
Proof.
  intros args w p.
  assert (forall files,
            yield_xml_files decode_text (args_path args) w = (Ok files, w) ->
            Forall (@returns _) files ->
            fst (run str_lower decode_text args w) = 0%Z) as Hrun.
  { intros files Hy Hf. unfold run. rewrite main_eq. unfold bind.
    rewrite Hy.
    destruct (main_loop_returns (args_outdir args) (args_safety args)
                files Hf w) as ([] & w1 & ->).
    reflexivity. }
  split; [|split].
  - intros msg Hl. unfold run. rewrite main_eq. unfold bind.
    rewrite yield_xml_files_eq. cbv zeta. fold p. rewrite Hl. reflexivity.
  - intros names Hl. eapply Hrun.
    + rewrite yield_xml_files_eq. cbv zeta. fold p. rewrite Hl.
      reflexivity.
    + apply Forall_forall. intros next Hin.
      apply in_map_iff in Hin as (i & <- & _).
      apply xml_candidate_returns.
  - intros msg Hl. eapply Hrun.
    + rewrite yield_xml_files_eq. cbv zeta. fold p. rewrite Hl.
      reflexivity.
    + repeat constructor. apply read_xml_file_returns.
Qed.

End ExitStatus.

(** C8 as it was stated fails in both directions: a directory that exists
    but cannot be listed ends the program with the status 1, and a path
    that does not exist, below a regular file, ends it with the status 0. *)
Lemma exit_status_counterexample :
  path_exists example_world (lit "/locked") = true
  /\ fst (run ascii_lower ascii_decode
            (mkArgs (lit "/locked") None (lit "max")) example_world) = 1%Z
  /\ path_exists example_world (lit "/f/x") = false
  /\ fst (run ascii_lower ascii_decode
            (mkArgs (lit "/f/x") None (lit "max")) example_world) = 0%Z.
Proof. repeat split; reflexivity. Qed.

(* ================================================================== *)
(** * The order in which a repeat tries its runs *)

Section RepeatOrder.

Variable A : Type.
Variable p : N -> bool.
Variable k : str -> option A.

(** a repeat that fails has tried every run it may take *)
Lemma rep_none_complete (greedy : bool) :
  forall s lo hi,
    rep p greedy lo hi s k = None ->
    forall w s',
      s = w ++ s' -> forallb p w = true -> lo <= length w ->
      match hi with Some h => length w <= h | None => True end ->
      k s' = None.
Proof.
  induction s as [|c s IH]; intros lo hi H w s' E Hw Hlo Hhi.
  - symmetry in E. apply app_eq_nil in E as [-> ->].
    destruct lo; simpl in *; [exact H | lia].
  - destruct w as [|x w].
    + simpl in E. subst s'. destruct lo; [|simpl in Hlo; lia].
      simpl in H. destruct (room hi && p c); [|exact H].
      destruct greedy.
      * now destruct (rep p true 0 (option_map pred hi) s k).
      * now destruct (k (c :: s)).
    + simpl in E. injection E as <- ->.
      simpl in Hw. apply andb_prop in Hw as [Hx Hw].
      assert (room hi = true) as Hroom
        by (destruct hi as [[|h]|]; simpl in *; [lia | reflexivity..]).
      assert (match option_map pred hi with
              | Some h => length w <= h | None => True end) as Hhi'
        by (destruct hi as [h|]; simpl in *; [lia | exact I]).
      destruct lo as [|lo]; simpl in H; rewrite Hroom, Hx in H; simpl in H.
      * destruct greedy.
        -- destruct (rep p true 0 (option_map pred hi) (w ++ s') k) eqn:R;
             [discriminate|].
           apply (IH _ _ R w s'); auto. lia.
        -- destruct (k (c :: w ++ s')); [discriminate|].
           apply (IH _ _ H w s'); auto. lia.
      * apply (IH _ _ H w s'); auto. simpl in Hlo. lia.
Qed.

(** a lazy repeat stops at the first run after which the rest matches *)
Lemma rep_lazy_minimal :
  forall s lo hi r,
    rep p false lo hi s k = Some r ->
    exists w s',
      s = w ++ s' /\ forallb p w = true /\ lo <= length w
      /\ match hi with Some h => length w <= h | None => True end
      /\ k s' = Some r
      /\ forall a b, w = a ++ b -> b <> [] -> lo <= length a ->
                     k (b ++ s') = None.
Proof.
  assert (Hnil : forall s hi r, k s = Some r ->
            exists w s', s = w ++ s' /\ forallb p w = true /\ 0 <= length w
              /\ match hi with Some h => length w <= h | None => True end
              /\ k s' = Some r
              /\ forall a b, w = a ++ b -> b <> [] -> 0 <= length a ->
                             k (b ++ s') = None).
  { intros s hi r H. exists [], s. repeat split; auto.
    - destruct hi; simpl; lia.
    - intros a b E Hb. symmetry in E. apply app_eq_nil in E as [_ E].
      contradiction. }
  induction s as [|c s IH]; intros lo hi r H.
  - destruct lo; simpl in H; [|discriminate]. now apply Hnil.
  - destruct lo as [|lo]; simpl in H.
    + destruct (room hi && p c) eqn:E; [|now apply Hnil].
      destruct (k (c :: s)) eqn:K.
      * inversion H; subst. now apply Hnil.
      * apply andb_prop in E as [Hroom Hp].
        apply IH in H as (w & s' & -> & Hw & _ & Hhi & Hk & Hmin).
        exists (c :: w), s'. simpl. rewrite Hp, Hw.
        repeat split; auto; try lia.
        -- destruct hi as [[|h]|]; simpl in *; try discriminate; lia.
        -- intros a b E Hb _. destruct a as [|x a].
           ++ simpl in E. subst b. exact K.
           ++ simpl in E. injection E as _ E. apply (Hmin a b); auto. lia.
    + destruct (room hi && p c) eqn:E; [|discriminate].
      apply andb_prop in E as [Hroom Hp].
      apply IH in H as (w & s' & -> & Hw & Hlo & Hhi & Hk & Hmin).
      exists (c :: w), s'. simpl. rewrite Hp, Hw.
      repeat split; auto; try lia.
      * destruct hi as [[|h]|]; simpl in *; try discriminate; lia.
      * intros a b E Hb Ha. destruct a as [|x a]; [simpl in Ha; lia|].
        simpl in E. injection E as _ E. apply (Hmin a b); auto.
        simpl in Ha. lia.
Qed.

(** a greedy repeat takes the longest run after which the rest matches *)
Lemma rep_greedy_maximal :
  forall s r,
    rep p true 0 None s k = Some r ->
    exists w s',
      s = w ++ s' /\ forallb p w = true /\ k s' = Some r
      /\ forall a b, s' = a ++ b -> a <> [] -> forallb p a = true ->
                     k b = None.
Proof.
  induction s as [|c s IH]; intros r H.
  - simpl in H. exists [], []. repeat split; auto.
    intros a b E Ha. symmetry in E. apply app_eq_nil in E as [E _].
    contradiction.
  - simpl in H. destruct (p c) eqn:Hp.
    + destruct (rep p true 0 None s k) eqn:R.
      * inversion H; subst.
        destruct (IH _ eq_refl) as (w & s' & -> & Hw & Hk & Hmax).
        exists (c :: w), s'. simpl. rewrite Hp, Hw. auto.
      * exists [], (c :: s). repeat split; auto.
        intros a b E Ha Hall. destruct a as [|x a]; [contradiction|].
        simpl in E. injection E as _ ->. simpl in Hall.
        apply andb_prop in Hall as [_ Hall].
        apply (rep_none_complete true _ _ _ R a b); auto. simpl. lia.
    + exists [], (c :: s). repeat split; auto.
      intros a b E Ha Hall. destruct a as [|x a]; [contradiction|].
      simpl in E. injection E as <- _. simpl in Hall.
      apply andb_prop in Hall as [Hall _]. congruence.
Qed.

End RepeatOrder.

(** the continuation is used at its values only *)
Lemma rep_ext (A : Type) (p : N -> bool) (greedy : bool)
    (k k' : str -> option A) :
  (forall s, k s = k' s) ->
  forall s lo hi, rep p greedy lo hi s k = rep p greedy lo hi s k'.
Proof.
  intros Hk. induction s as [|c s IH]; intros lo hi.
  - destruct lo; simpl; auto.
  - destruct lo as [|lo]; simpl.
    + destruct (room hi && p c); [|auto]. rewrite IH, Hk. reflexivity.
    + destruct (room hi && p c); auto.
Qed.

Lemma rep_map (A B : Type) (f : A -> B) (p : N -> bool) (greedy : bool)
    (k : str -> option A) :
  forall s lo hi,
    rep p greedy lo hi s (fun s' => option_map f (k s'))
    = option_map f (rep p greedy lo hi s k).
Proof.
  induction s as [|c s IH]; intros lo hi.
  - destruct lo; reflexivity.
  - destruct lo as [|lo]; simpl.
    + destruct (room hi && p c); [|reflexivity]. rewrite IH.
      destruct greedy.
      * now destruct (rep p true 0 (option_map pred hi) s k).
      * now destruct (k (c :: s)).
    + destruct (room hi && p c); auto.
Qed.

(** the marks a match finds are put before the marks it was given *)
Lemma match_here_marks (r : pattern) :
  forall ms base s,
    match_here r (ms ++ base) s
    = option_map (fun x => (fst x ++ base, snd x)) (match_here r ms s).
Proof.
  induction r as [|[c|lo hi greedy cs|n] r IH]; intros ms base s.
  - reflexivity.
  - simpl. destruct s as [|x s]; [reflexivity|].
    destruct (x =? c)%N; [apply IH | reflexivity].
  - simpl. rewrite <- rep_map. apply rep_ext. intros s'. apply IH.
  - simpl. apply (IH ((n, s) :: ms)).
Qed.

(** whether a pattern matches does not depend on the marks *)
Lemma match_here_some (r : pattern) (ms ms' : marks) (s : str) :
  match_here r ms s = None -> match_here r ms' s = None.
Proof.
  pose proof (match_here_marks r [] ms s) as H.
  pose proof (match_here_marks r [] ms' s) as H'.
  simpl in H, H'. rewrite H, H'.
  now destruct (match_here r [] s).
Qed.

(* ================================================================== *)
(** * What a match of an element pattern has read *)

Lemma element_match_shape (name : str) (cs : charset) (s : str)
    (ms : marks) (rest : str) :
  tag_name name = true ->
  match_here
    (open_tag name ++ group (Repeat 0 None false cs) ++ close_tag name) [] s
  = Some (ms, rest) ->
  exists w1 w2 g w3 w4 w5,
    s = open_text name w1 w2 ++ g ++ close_text name w3 w4 w5 ++ rest
    /\ (all_space w1 = true /\ all_space w2 = true /\ all_space w3 = true
        /\ all_space w4 = true /\ all_space w5 = true)
    /\ forallb (in_charset cs) g = true
    /\ ms = [(1, close_text name w3 w4 w5 ++ rest);
             (0, g ++ close_text name w3 w4 w5 ++ rest)]
    /\ forall a b, g = a ++ b -> b <> [] ->
         match_here (close_tag name) []
           (b ++ close_text name w3 w4 w5 ++ rest) = None.
Proof.
  intros Hn H.
  apply match_open_tag_sound in H as (w1 & w2 & s1 & -> & H1 & H2 & H); auto.
  rewrite group_app, match_mark, match_repeat in H.
  apply rep_lazy_minimal in H as (g & s2 & E & Hg & _ & _ & H & Hmin).
  rewrite match_mark, <- (app_nil_r (close_tag name)) in H.
  apply match_close_tag_sound in H
    as (w3 & w4 & w5 & s3 & -> & H3 & H4 & H5 & H); auto.
  simpl in H. injection H as <- <-.
  exists w1, w2, g, w3, w4, w5. subst s1.
  repeat split; auto.
  intros a b Ea Hb. specialize (Hmin a b Ea Hb (Nat.le_0_l _)).
  rewrite match_mark in Hmin.
  apply (match_here_some _ _ [] _ Hmin).
Qed.

Lemma lstrip_id (g : str) :
  match g with c :: _ => Py_UNICODE_ISSPACE c = false | [] => True end ->
  lstrip g = g.
Proof. destruct g as [|c g]; [reflexivity|]. simpl. now intros ->. Qed.

Lemma str_strip_id (g : str) :
  space_at_end g = false -> str_strip g = g.
Proof.
  destruct g as [|c g]; [reflexivity|]. unfold space_at_end.
  intros H. apply orb_false_elim in H as [Hc Hl].
  unfold str_strip. rewrite (lstrip_id (c :: g)) by exact Hc.
  rewrite lstrip_id; [apply rev_involutive|].
  destruct (exists_last (l := c :: g)) as (g' & x & E); [discriminate|].
  rewrite E in *. rewrite rev_app_distr. simpl.
  now rewrite last_last in Hl.
Qed.

(** white space takes one more white-space character *)
Lemma match_ws_more (r : pattern) (ms ms' : marks) (x : N) (s : str) :
  Py_UNICODE_ISSPACE x = true ->
  match_here (ws :: r) ms (x :: s) = None ->
  match_here (ws :: r) ms' s = None.
Proof.
  intros Hx H. apply (match_here_some _ ms).
  rewrite match_here_ws in *. simpl in H. rewrite Hx in H.
  now destruct (rep Py_UNICODE_ISSPACE true 0 None s
                  (fun s' => match_here r ms s')).
Qed.

(** What a match of a field pattern has read: the tags, white space, and
    a text of [1] to [hi] characters without a line feed, which has white
    space at neither end unless it is one character. *)
Lemma field_match_shape (name : str) (hi : nat) (s : str)
    (ms : marks) (rest : str) :
  tag_name name = true ->
  match_here
    (open_tag name
       ++ ws :: group (Repeat 1 (Some hi) false (Dot false))
       ++ ws :: close_tag name) [] s
  = Some (ms, rest) ->
  exists w1 w2 wa g wb w3 w4 w5,
    s = open_text name w1 w2 ++ wa ++ g ++ wb
          ++ close_text name w3 w4 w5 ++ rest
    /\ (all_space w1 = true /\ all_space w2 = true /\ all_space w3 = true
        /\ all_space w4 = true /\ all_space w5 = true)
    /\ all_space wa = true /\ all_space wb = true
    /\ forallb (in_charset (Dot false)) g = true
    /\ 1 <= length g <= hi
    /\ ms = [(1, wb ++ close_text name w3 w4 w5 ++ rest);
             (0, g ++ wb ++ close_text name w3 w4 w5 ++ rest)]
    /\ (length g = 1 \/ space_at_end g = false).
Proof.
  intros Hn H.
  apply match_open_tag_sound in H as (w1 & w2 & s1 & -> & H1 & H2 & H); auto.
  rewrite match_here_ws in H.
  apply rep_greedy_maximal in H as (wa & s2 & -> & Hwa & H & Hmax).
  rewrite group_app, match_mark, match_repeat in H.
  apply rep_lazy_minimal in H as (g & s3 & E & Hg & Hlo & Hhi & H & Hmin).
  rewrite match_mark in H. pose proof H as Hk.
  rewrite match_here_ws in H.
  apply rep_sound in H as (wb & s4 & E3 & Hwb & _ & _ & H).
  rewrite <- (app_nil_r (close_tag name)) in H.
  apply match_close_tag_sound in H
    as (w3 & w4 & w5 & s5 & E4 & H3 & H4 & H5 & H); auto.
  simpl in H. injection H as Ems Erest. subst s5 s4.
  exists w1, w2, wa, g, wb, w3, w4, w5.
  split; [now subst s2 s3|]. split; [auto|].
  split; [exact Hwa|]. split; [exact Hwb|]. split; [exact Hg|].
  split; [lia|]. split; [subst ms s2 s3; reflexivity|].
  destruct (Nat.eq_dec (length g) 1) as [E1 | E1]; [now left | right].
  destruct g as [|c [|d g]]; [simpl in Hlo; lia | simpl in E1; lia |].
  unfold space_at_end. apply orb_false_intro.
  - (* the white space before the text would have taken [c] *)
    destruct (Py_UNICODE_ISSPACE c) eqn:Hc; [exfalso | reflexivity].
    assert (forallb Py_UNICODE_ISSPACE [c] = true) as Hsp
      by (simpl; now rewrite Hc).
    rewrite E in Hmax.
    specialize (Hmax [c] ((d :: g) ++ s3) eq_refl ltac:(discriminate) Hsp).
    rewrite group_app, match_mark, match_repeat in Hmax.
    change (in_charset (Dot false) c
            && forallb (in_charset (Dot false)) (d :: g) = true) in Hg.
    apply andb_prop in Hg as [_ Hg].
    pose proof (rep_none_complete _ _ _ _ _ _ _ Hmax (d :: g) s3 eq_refl Hg)
      as Hnone.
    specialize (Hnone ltac:(simpl; lia) ltac:(simpl in *; lia)).
    cbv beta in Hnone.
    apply (match_here_some _ _ [(0, s2)]) in Hnone.
    rewrite match_mark in Hnone.
    assert (Some (ms, rest) = None) as X by (rewrite <- Hk; exact Hnone).
    discriminate X.
  - (* the text would have ended before a last white space *)
    destruct (exists_last (l := c :: d :: g)) as (g' & x & Eg);
      [discriminate|].
    rewrite Eg, last_last.
    destruct (Py_UNICODE_ISSPACE x) eqn:Hx; [exfalso | reflexivity].
    assert (1 <= length g') as Hg'.
    { apply (f_equal (@length N)) in Eg. rewrite length_app in Eg.
      simpl in Eg. lia. }
    specialize (Hmin g' [x] Eg ltac:(discriminate) Hg').
    rewrite match_mark in Hmin.
    apply (match_ws_more _ _ [(1, s3); (0, s2)] _ _ Hx) in Hmin.
    assert (Some (ms, rest) = None) as X by (rewrite <- Hk; exact Hmin).
    discriminate X.
Qed.

(* ================================================================== *)
(** * Where a search and a scan find their matches *)

Lemma re_match_inv (r : pattern) (s : str) (m : Match) :
  re_match r s = Some m ->
  m_from m = s /\ match_here r [] s = Some (m_marks m, m_rest m).
Proof.
  unfold re_match. destruct (match_here r [] s) as [[ms rest]|];
    [|discriminate].
  intros H. inversion H. auto.
Qed.

(** a search finds a match at the first place that has one *)
Lemma re_search_sound (r : pattern) :
  forall s m,
    re_search r s = Some m ->
    exists pre,
      s = pre ++ m_from m /\ re_match r (m_from m) = Some m
      /\ forall a b, pre = a ++ b -> b <> [] ->
                     re_match r (b ++ m_from m) = None.
Proof.
  induction s as [|c s IH]; intros m H.
  - simpl in H. destruct (re_match r []) eqn:E; [|discriminate].
    inversion H; subst. destruct (re_match_inv _ _ _ E) as [Ef _].
    exists []. rewrite Ef. repeat split; auto.
    intros a b Eab Hb. symmetry in Eab. apply app_eq_nil in Eab as [_ ?].
    contradiction.
  - cbn [re_search] in H. destruct (re_match r (c :: s)) eqn:E.
    + inversion H; subst. destruct (re_match_inv _ _ _ E) as [Ef _].
      exists []. rewrite Ef. repeat split; auto.
      intros a b Eab Hb. symmetry in Eab. apply app_eq_nil in Eab as [_ ?].
      contradiction.
    + destruct (IH _ H) as (pre & -> & Hm & Hfirst).
      exists (c :: pre). repeat split; auto.
      intros a b Eab Hb. destruct a as [|x a].
      * simpl in Eab. subst b. exact E.
      * simpl in Eab. injection Eab as _ Eab. now apply (Hfirst a b).
Qed.

(** every text a scan returns is the group of a match at some place *)
Lemma findall_sound (r : pattern) :
  forall s skip b,
    In b (findall_from r skip s) ->
    exists pre m,
      s = pre ++ m_from m /\ re_match r (m_from m) = Some m
      /\ group1 m = b.
Proof.
  assert (Hcons : forall (c : N) (s : str) b,
            (exists pre m, s = pre ++ m_from m
               /\ re_match r (m_from m) = Some m /\ group1 m = b) ->
            exists pre m, c :: s = pre ++ m_from m
               /\ re_match r (m_from m) = Some m /\ group1 m = b).
  { intros c s b (pre & m & -> & Hm & Hg). exists (c :: pre), m. auto. }
  induction s as [|c s IH]; intros skip b H.
  - destruct skip; simpl in H; [|tauto].
    destruct (re_match r []) eqn:E; simpl in H; [|tauto].
    destruct H as [H | []]. destruct (re_match_inv _ _ _ E) as [Ef _].
    exists [], m. rewrite Ef. auto.
  - destruct skip as [|n]; cbn [findall_from] in H.
    + destruct (re_match r (c :: s)) eqn:E.
      * destruct H as [H | H].
        -- destruct (re_match_inv _ _ _ E) as [Ef _].
           exists [], m. rewrite Ef. auto.
        -- apply Hcons. eauto.
      * apply Hcons. eauto.
    + apply Hcons. eauto.
Qed.

(* ================================================================== *)
(** * The blocks of a document *)

Lemma tag_lengths (name w1 w2 w3 w4 w5 : str) :
  length name + 2 <= length (open_text name w1 w2)
  /\ length name + 3 <= length (close_text name w3 w4 w5).
Proof.
  unfold open_text, close_text. cbn [length].
  repeat (rewrite length_app; cbn [length]). lia.
Qed.

(** what a match of the container pattern has read *)
Lemma allegati_match_shape (s : str) (m : Match) :
  re_match (regex allegati) s = Some m ->
  exists w1 w2 w3 w4 w5,
    let after := close_text (lit "Allegati") w3 w4 w5 ++ m_rest m in
    s = open_text (lit "Allegati") w1 w2 ++ group1 m ++ after
    /\ (all_space w1 = true /\ all_space w2 = true /\ all_space w3 = true
        /\ all_space w4 = true /\ all_space w5 = true)
    /\ forall a b, group1 m = a ++ b -> b <> [] ->
         re_match (close_tag (lit "Allegati")) (b ++ after) = None.
Proof.
  intros H. destruct (re_match_inv _ _ _ H) as [Ef Hm].
  rewrite regex_allegati_eq in Hm.
  apply element_match_shape in Hm
    as (w1 & w2 & g & w3 & w4 & w5 & E & Hw & _ & Ems & Hmin);
    [|reflexivity].
  exists w1, w2, w3, w4, w5. cbv zeta.
  assert (group1 m = g) as Hg.
  { destruct m as [from ms rest]. cbn [m_marks m_rest] in *. subst ms.
    apply group1_element. }
  rewrite Hg. repeat split; auto; try tauto.
  intros a b Eab Hb. apply re_match_None. now apply (Hmin a b).
Qed.

Lemma findall_allegati_sound (xml block : str) :
  In block (re_findall (regex allegati) xml) ->
  exists pre w1 w2 w3 w4 w5 post,
    let after := close_text (lit "Allegati") w3 w4 w5 ++ post in
    xml = pre ++ open_text (lit "Allegati") w1 w2 ++ block ++ after
    /\ (all_space w1 = true /\ all_space w2 = true /\ all_space w3 = true
        /\ all_space w4 = true /\ all_space w5 = true)
    /\ forall a b, block = a ++ b -> b <> [] ->
         re_match (close_tag (lit "Allegati")) (b ++ after) = None.
Proof.
  unfold re_findall. intros H.
  apply findall_sound in H as (pre & m & -> & Hm & <-).
  apply allegati_match_shape in Hm as (w1 & w2 & w3 & w4 & w5 & E & Hw & Hmin).
  exists pre, w1, w2, w3, w4, w5, (m_rest m). cbv zeta in *.
  rewrite E at 1. auto.
Qed.

Lemma allegati_match_length (s : str) (m : Match) :
  re_match (regex allegati) s = Some m ->
  length (group1 m) + 21 <= match_len m /\ match_len m <= length s.
Proof.
  intros H. destruct (re_match_inv _ _ _ H) as [Ef _].
  apply allegati_match_shape in H as (w1 & w2 & w3 & w4 & w5 & E & _ & _).
  cbv zeta in E. unfold match_len. rewrite Ef.
  pose proof (tag_lengths (lit "Allegati") w1 w2 w3 w4 w5) as [Ho Hc].
  change (length (lit "Allegati")) with 8 in *.
  apply (f_equal (@length N)) in E. repeat rewrite length_app in E. lia.
Qed.

Lemma findall_allegati_length :
  forall s skip,
    blocks_length (findall_from (regex allegati) skip s) <= length s - skip.
Proof.
  unfold blocks_length.
  induction s as [|c s IH]; intros skip.
  - destruct skip; [|simpl; lia]. cbn [findall_from].
    destruct (re_match (regex allegati) []) eqn:E; [|simpl; lia].
    apply allegati_match_length in E as [H1 H2]. cbn [length] in H2. lia.
  - destruct skip as [|n]; cbn [findall_from].
    + destruct (re_match (regex allegati) (c :: s)) eqn:E.
      * apply allegati_match_length in E as [H1 H2].
        unfold list_sum in *. cbn [map fold_right length] in *.
        specialize (IH (pred (match_len m))). lia.
      * specialize (IH 0). cbn [length]. lia.
    + specialize (IH n). cbn [length]. lia.
Qed.

(** X1: every block [list_attachments] returns stands in the document
    between an opening and a closing container tag, and no closing tag can
    be read from a place inside the block; it is paired with the path of
    the document. *)
Theorem list_attachments_blocks_are_containers :
  forall (path xml : str) (item : str * str),
    In item (list_attachments (path, xml)) ->
    fst item = path
    /\ exists pre w1 w2 w3 w4 w5 post,
         let after := close_text (lit "Allegati") w3 w4 w5 ++ post in
         xml = pre ++ open_text (lit "Allegati") w1 w2 ++ snd item ++ after
         /\ (all_space w1 = true /\ all_space w2 = true
             /\ all_space w3 = true /\ all_space w4 = true
             /\ all_space w5 = true)
         /\ forall a b, snd item = a ++ b -> b <> [] ->
              re_match (close_tag (lit "Allegati")) (b ++ after) = None.
Proof.
  intros path xml item H. unfold list_attachments in H.
  apply in_map_iff in H as (block & <- & H). split; [reflexivity|].
  now apply findall_allegati_sound.
Qed.

(** X2: the blocks of a document do not overlap: their lengths, each with
    the 21 characters its two tags have at least, add up to no more than
    the length of the document. *)
Theorem list_attachments_blocks_fit :
  forall (path xml : str),
    blocks_length (map snd (list_attachments (path, xml))) <= length xml.
Proof.
  intros path xml. unfold list_attachments. rewrite map_map. cbn [snd].
  rewrite map_id. unfold re_findall.
  pose proof (findall_allegati_length xml 0). lia.
Qed.


(* ================================================================== *)
(** * The fields of a block *)

Lemma regex_formato_eq :
  regex formato
  = open_tag (lit "FormatoAttachment")
      ++ ws :: group (Repeat 1 (Some 10) false (Dot false))
      ++ ws :: close_tag (lit "FormatoAttachment").
Proof. reflexivity. Qed.

Lemma no_line_feed (g : str) :
  forallb (in_charset (Dot false)) g = true -> ~ In 10%N g.
Proof.
  rewrite forallb_forall. intros H Hin. apply H in Hin. discriminate.
Qed.

Lemma field_search_sound (name : str) (hi : nat) (block : str) (m : Match) :
  tag_name name = true ->
  re_search
    (open_tag name
       ++ ws :: group (Repeat 1 (Some hi) false (Dot false))
       ++ ws :: close_tag name) block = Some m ->
  field_of name hi block (group1 m).
Proof.
  intros Hn H.
  apply re_search_sound in H as (pre & -> & Hm & _).
  destruct (re_match_inv _ _ _ Hm) as [_ Hh].
  apply field_match_shape in Hh
    as (w1 & w2 & wa & g & wb & w3 & w4 & w5 & E & Hw & Hwa & Hwb & Hg
        & Hlen & Ems & Htrim); auto.
  assert (group1 m = g) as ->.
  { destruct m as [from ms rest]. cbn [m_marks m_rest] in *. subst ms.
    apply group1_element. }
  split; [|split; [exact Hlen | split; [now apply no_line_feed|]]].
  - exists pre, w1, w2, wa, wb, w3, w4, w5, (m_rest m).
    rewrite E at 1. tauto.
  - destruct Htrim as [H1 | Ht]; [now left | right].
    now apply str_strip_id.
Qed.

(** X3: a name read from the name tag stands in the block between the
    tags, has 1 to 60 characters, none a line feed, and has white space at
    neither end unless it is a single character. *)
Theorem name_from_tag_is_short_and_trimmed :
  forall (idx : nat) (path attachment : str) (m : Match),
    re_search (regex nome) attachment = Some m ->
    attachment_name idx path attachment = group1 m
    /\ field_of (lit "NomeAttachment") 60 attachment (group1 m).
Proof.
  intros idx path attachment m H. split.
  - unfold attachment_name. now rewrite H.
  - rewrite regex_nome_eq in H. now apply field_search_sound.
Qed.

(** X4: an extension read from the format tag is the lower-cased text of
    the tag, a text of 1 to 10 characters, none a line feed, with white
    space at neither end unless it is a single character. *)
Theorem extension_from_tag_is_short_and_trimmed :
  forall (str_lower : str -> str) (attachment : str) (payload : bytes)
         (m : Match),
    firstn 5 payload <> lit "%PDF-" ->
    re_search (regex formato) attachment = Some m ->
    attachment_ext str_lower attachment payload = str_lower (group1 m)
    /\ field_of (lit "FormatoAttachment") 10 attachment (group1 m).
Proof.
  intros str_lower attachment payload m Hp H. split.
  - unfold attachment_ext. apply str_eqb_neq in Hp. now rewrite Hp, H.
  - rewrite regex_formato_eq in H. now apply field_search_sound.
Qed.

(* ================================================================== *)
(** * The payload tag *)

Lemma lone_tag_inv (name : str) (e : element) (post : str) :
  lone_tag name e post = true ->
  element_ok name e = true
  /\ anywhere (opens name) (e_content e) = false
  /\ anywhere (opens name) post = false
  /\ anywhere (closes name) post = false.
Proof.
  unfold lone_tag. intros H.
  apply andb_prop in H as [H H4]. apply andb_prop in H as [H H3].
  apply andb_prop in H as [H H2].
  apply negb_true_iff in H2, H3, H4. auto.
Qed.

(** what the payload pattern has read *)
Lemma allegato_search_sound (block : str) (m : Match) :
  re_search (regex allegato) block = Some m ->
  forallb (in_charset base64_set) (group1 m) = true
  /\ exists pre w1 w2 w3 w4 w5 post,
       block = pre ++ open_text (lit "Attachment") w1 w2 ++ group1 m
                 ++ close_text (lit "Attachment") w3 w4 w5 ++ post
       /\ all_space w1 = true /\ all_space w2 = true
       /\ all_space w3 = true /\ all_space w4 = true /\ all_space w5 = true.
Proof.
  intros H. apply re_search_sound in H as (pre & -> & Hm & _).
  destruct (re_match_inv _ _ _ Hm) as [_ Hh].
  rewrite regex_allegato_eq in Hh.
  apply element_match_shape in Hh
    as (w1 & w2 & g & w3 & w4 & w5 & E & Hw & Hg & Ems & _); [|reflexivity].
  assert (group1 m = g) as ->.
  { destruct m as [from ms rest]. cbn [m_marks m_rest] in *. subst ms.
    apply group1_element. }
  split; [exact Hg|].
  exists pre, w1, w2, w3, w4, w5, (m_rest m). rewrite E at 1. tauto.
Qed.

(** the pattern does not read a payload tag that holds another
    character *)
Lemma payload_tag_not_read (e : element) (post : str) :
  element_ok (lit "Attachment") e = true ->
  anywhere (closes (lit "Attachment")) post = false ->
  forallb (in_charset base64_set) (e_content e) = false ->
  match_here (regex allegato) [] (element_text (lit "Attachment") e ++ post)
  = None.
Proof.
  intros He Hpost Hcontent.
  destruct (match_here (regex allegato) []
              (element_text (lit "Attachment") e ++ post)) eqn:E;
    [exfalso | reflexivity].
  apply element_ok_inv in He as ((H1 & H2 & H3 & H4 & H5) & _ & Hc).
  rewrite regex_allegato_eq in E. unfold element_text in E.
  rewrite <- !app_assoc in E. rewrite match_open_tag in E by auto.
  rewrite group_app, match_mark, match_repeat in E.
  apply rep_sound in E as (g & s2 & E & Hg & _ & _ & Hk).
  rewrite match_mark, <- (app_nil_r (close_tag _)) in Hk.
  apply match_close_tag_sound in Hk
    as (w1 & w2 & w3 & after & -> & Hw1 & Hw2 & _ & _); [|reflexivity].
  apply close_tag_position in E; auto. congruence.
Qed.

(** X5: a payload the decoder finds stands in the block between the payload
    tags and holds only letters, digits, [+], [/], [=] and white space; it
    is what [b64decode] is given. *)
Theorem payload_is_base64_text :
  forall (attachment : str) (m : Match),
    re_search (regex allegato) attachment = Some m ->
    decode_payload attachment = b64decode (group1 m)
    /\ forallb (in_charset base64_set) (group1 m) = true
    /\ exists pre w1 w2 w3 w4 w5 post,
         attachment
         = pre ++ open_text (lit "Attachment") w1 w2 ++ group1 m
             ++ close_text (lit "Attachment") w3 w4 w5 ++ post
         /\ all_space w1 = true /\ all_space w2 = true
         /\ all_space w3 = true /\ all_space w4 = true
         /\ all_space w5 = true.
Proof.
  intros attachment m H. split; [now apply decode_payload_present|].
  now apply allegato_search_sound.
Qed.

(** X6: a payload tag that holds a character outside the base64 alphabet
    and white space is not found at all: the block is reported with the
    error of a missing tag, not with a decoding error. *)
Theorem foreign_character_hides_payload :
  forall (str_lower : str -> str) (idx : nat) (path : str)
         (e : element) (post : str),
    lone_tag (lit "Attachment") e post = true ->
    forallb (in_charset base64_set) (e_content e) = false ->
    let block := e_before e ++ element_text (lit "Attachment") e ++ post in
    re_search (regex allegato) block = None
    /\ decode_payload block = Raise NoneType_has_no_group
    /\ decode_block str_lower idx (path, block)
       = [Print (error_line (attachment_name idx path block)
                   (snd (os_path_split path)) NoneType_has_no_group)].
Proof.
  intros str_lower idx path e post Hlone Hcontent block.
  apply lone_tag_inv in Hlone as (He & Hco & Hpo & Hpc).
  assert (re_search (regex allegato) block = None) as Hs.
  { unfold block. rewrite regex_allegato_eq.
    apply search_element; auto.
    rewrite <- regex_allegato_eq. now apply payload_tag_not_read. }
  split; [exact Hs|].
  pose proof (decode_payload_absent _ Hs) as Hd.
  split; [exact Hd|]. now rewrite decode_block_eq, Hd.
Qed.


(* ================================================================== *)
(** * Base64: what the decoder skips, and what it gives *)

Lemma table_value (c v : N) :
  table_a2b_base64 c = Some v -> (c < 128 /\ v < 64)%N.
Proof.
  unfold table_a2b_base64, BASE64_PAD.
  change (chr "A") with 65%N. change (chr "Z") with 90%N.
  change (chr "a") with 97%N. change (chr "z") with 122%N.
  change (chr "0") with 48%N. change (chr "9") with 57%N.
  change (chr "+") with 43%N. change (chr "/") with 47%N.
  change (chr "=") with 61%N.
  repeat match goal with
         | |- context [if ?b then _ else _] => destruct b eqn:?
         end;
    intros H; inversion H; subst;
    repeat match goal with
           | X : (_ && _) = true |- _ => apply andb_prop in X as [? ?]
           | X : (_ <=? _)%N = true |- _ => apply N.leb_le in X
           | X : (_ =? _)%N = true |- _ => apply N.eqb_eq in X
           end; lia.
Qed.

Lemma base64_char_small (c : N) : base64_char c = true -> (c < 128)%N.
Proof.
  unfold base64_char. destruct (table_a2b_base64 c) as [v|] eqn:E;
    [|discriminate].
  intros _. now apply table_value in E.
Qed.

Lemma land_127 (c : N) : (c <= 127)%N -> N.land c 127 = c.
Proof.
  intros H. change 127%N with (N.ones 7). rewrite N.land_ones.
  apply N.mod_small. change (2 ^ 7)%N with 128%N. lia.
Qed.

(** the test of [binascii_find_valid] *)
Lemma find_valid_test (c : N) :
  (c <=? 127)%N && is_some (table_a2b_base64 (N.land c 127)) = base64_char c.
Proof.
  destruct (c <=? 127)%N eqn:E.
  - apply N.leb_le in E. now rewrite land_127.
  - simpl. destruct (base64_char c) eqn:B; [|reflexivity].
    apply base64_char_small in B. apply N.leb_gt in E. lia.
Qed.

Lemma find_valid_filter :
  forall s num,
    binascii_find_valid (filter base64_char s) num
    = binascii_find_valid s num.
Proof.
  induction s as [|c s IH]; intros num; [reflexivity|].
  cbn [filter binascii_find_valid]. rewrite find_valid_test.
  destruct (base64_char c) eqn:B; [|apply IH].
  cbn [binascii_find_valid]. rewrite find_valid_test, B.
  destruct num; auto.
Qed.

(** the loop passes over every character that is not of the alphabet *)
Lemma a2b_loop_filter :
  forall s leftbits leftchar quad_pos bin_data,
    a2b_loop (filter base64_char s) leftbits leftchar quad_pos bin_data
    = a2b_loop s leftbits leftchar quad_pos bin_data.
Proof.
  induction s as [|c s IH]; intros lb lc qp bin; [reflexivity|].
  cbn [filter]. destruct (base64_char c) eqn:B.
  - pose proof (base64_char_small _ B) as Hc.
    cbn [a2b_loop].
    replace (binascii_find_valid (c :: filter base64_char s) 1)
      with (binascii_find_valid (c :: s) 1)
      by (rewrite <- (find_valid_filter (c :: s)); cbn [filter];
          now rewrite B).
    destruct (table_a2b_base64 c) as [v|];
      repeat match goal with
             | |- context [if ?b then _ else _] => destruct b
             end;
      rewrite ?IH; reflexivity.
  - rewrite IH. cbn [a2b_loop].
    destruct ((127 <? c) || (c =? 13) || (c =? 10) || (c =? 32))%N;
      [reflexivity|].
    destruct (c =? BASE64_PAD)%N eqn:P.
    + apply N.eqb_eq in P. subst c. discriminate.
    + unfold base64_char in B.
      now destruct (table_a2b_base64 c).
Qed.

Lemma is_ascii_filter (f : N -> bool) (s : str) :
  is_ascii s = true -> is_ascii (filter f s) = true.
Proof.
  unfold is_ascii. rewrite !forallb_forall. intros H x Hx.
  apply filter_In in Hx as [Hx _]. auto.
Qed.

Lemma b64decode_filter (s : str) :
  is_ascii s = true -> b64decode (filter base64_char s) = b64decode s.
Proof.
  intros H. unfold b64decode.
  pose proof (is_ascii_filter base64_char s H) as H'.
  unfold is_ascii in H, H'. rewrite H, H'.
  unfold a2b_base64. now rewrite a2b_loop_filter.
Qed.

(** X7: [b64decode] passes over every character that is not of the
    alphabet or the pad, so line ends, blanks and tabs inside a payload
    change nothing; a wrapped encoding of [b] decodes to [b]. *)
Theorem b64decode_skips_foreign_characters :
  forall (s : str),
    is_ascii s = true ->
    b64decode s = b64decode (filter base64_char s)
    /\ forall b, is_bytes b = true ->
                 filter base64_char s = b64encode b ->
                 b64decode s = Ok b.
Proof.
  intros s H. split; [symmetry; now apply b64decode_filter|].
  intros b Hb E. rewrite <- b64decode_filter, E by assumption.
  now apply b64decode_b64encode.
Qed.

Lemma land_255 (x : N) : (N.land x 255 <? 256)%N = true.
Proof.
  apply N.ltb_lt. change 255%N with (N.ones 8). rewrite N.land_ones.
  apply N.mod_lt. discriminate.
Qed.

Lemma is_bytes_app (a b : bytes) :
  is_bytes (a ++ b) = is_bytes a && is_bytes b.
Proof. apply forallb_app. Qed.

(** what the loop writes: bytes, eight bits for each, taken from the six
    bits of each character read *)
Lemma a2b_loop_out :
  forall s lb lc qp bin lb' bin',
    a2b_loop s lb lc qp bin = (lb', bin') ->
    exists out,
      bin' = bin ++ out /\ is_bytes out = true
      /\ (8 * N.of_nat (length out) + lb' <= 6 * N.of_nat (length s) + lb)%N.
Proof.
  induction s as [|c s IH]; intros lb lc qp bin lb' bin' H.
  - simpl in H. inversion H; subst. exists []. rewrite app_nil_r.
    repeat split. simpl. lia.
  - assert (Hskip : forall lb1 lc1 qp1,
              a2b_loop s lb1 lc1 qp1 bin = (lb', bin') -> lb1 = lb ->
              exists out, bin' = bin ++ out /\ is_bytes out = true
                /\ (8 * N.of_nat (length out) + lb'
                    <= 6 * N.of_nat (length (c :: s)) + lb)%N).
    { intros lb1 lc1 qp1 H1 ->. apply IH in H1 as (out & -> & Hb & Hl).
      exists out. repeat split; auto. cbn [length]. lia. }
    cbn [a2b_loop] in H.
    destruct ((127 <? c) || (c =? 13) || (c =? 10) || (c =? 32))%N;
      [now apply (Hskip _ _ _ H)|].
    destruct (c =? BASE64_PAD)%N.
    + destruct ((qp <? 2)%N
                || (qp =? 2)%N
                   && negb (opt_N_eqb (binascii_find_valid (c :: s) 1)
                              BASE64_PAD)); [now apply (Hskip _ _ _ H)|].
      inversion H; subst. exists []. rewrite app_nil_r.
      repeat split. cbn [length]. lia.
    + destruct (table_a2b_base64 c) as [v|]; [|now apply (Hskip _ _ _ H)].
      destruct (8 <=? lb + 6)%N eqn:E.
      * apply N.leb_le in E.
        apply IH in H as (out & -> & Hb & Hl).
        eexists (_ :: out). rewrite <- app_assoc. split; [reflexivity|].
        split.
        -- cbn [is_bytes forallb]. fold (is_bytes out).
           now rewrite land_255, Hb.
        -- cbn [length]. lia.
      * apply N.leb_gt in E.
        apply IH in H as (out & -> & Hb & Hl).
        exists out. repeat split; auto. cbn [length]. lia.
Qed.

(** X8: what [b64decode] returns is a sequence of bytes, at most three for
    every four characters of the text. *)
Theorem b64decode_gives_bytes :
  forall (s : str) (b : bytes),
    b64decode s = Ok b ->
    is_bytes b = true /\ 4 * length b <= 3 * length s.
Proof.
  intros s b. unfold b64decode, a2b_base64.
  destruct (forallb (fun c => (c <? 128)%N) s); [|discriminate].
  destruct (a2b_loop s 0 0 0 []) as [lb bin] eqn:E.
  destruct (lb =? 0)%N; [|discriminate].
  intros H. inversion H; subst.
  apply a2b_loop_out in E as (out & -> & Hb & Hl).
  split; [exact Hb|]. simpl. lia.
Qed.

(* ------------------------------------------------------------------ *)
(** ** A payload without padding *)

Lemma table_low (c v : N) : table_a2b_base64 c = Some v -> (43 <= c)%N.
Proof.
  unfold table_a2b_base64, BASE64_PAD.
  change (chr "A") with 65%N. change (chr "Z") with 90%N.
  change (chr "a") with 97%N. change (chr "z") with 122%N.
  change (chr "0") with 48%N. change (chr "9") with 57%N.
  change (chr "+") with 43%N. change (chr "/") with 47%N.
  change (chr "=") with 61%N.
  repeat match goal with
         | |- context [if ?b then _ else _] => destruct b eqn:?
         end;
    intros H; inversion H; subst;
    repeat match goal with
           | X : (_ && _) = true |- _ => apply andb_prop in X as [? ?]
           | X : (_ <=? _)%N = true |- _ => apply N.leb_le in X
           | X : (_ =? _)%N = true |- _ => apply N.eqb_eq in X
           end; lia.
Qed.

Lemma base64_digit_value (c : N) :
  base64_digit c = true -> exists v, is_digit_char c v = true.
Proof.
  unfold base64_digit, base64_char. intros H.
  apply andb_prop in H as [Ht Hp].
  destruct (table_a2b_base64 c) as [v|] eqn:E; [|discriminate].
  exists v. unfold is_digit_char. rewrite E, Hp. cbn [opt_N_eqb].
  rewrite N.eqb_refl.
  pose proof (table_value _ _ E) as [Hc _].
  pose proof (table_low _ _ E) as Hl.
  assert ((127 <? c)%N = false) as -> by (apply N.ltb_ge; lia).
  assert ((c =? 13)%N = false) as -> by (apply N.eqb_neq; lia).
  assert ((c =? 10)%N = false) as -> by (apply N.eqb_neq; lia).
  assert ((c =? 32)%N = false) as -> by (apply N.eqb_neq; lia).
  assert ((c <? 128)%N = true) as -> by (apply N.ltb_lt; lia).
  reflexivity.
Qed.

(** on digits the loop writes a byte for every eight bits *)
Lemma a2b_loop_digits :
  forall s lb lc qp bin,
    forallb base64_digit s = true -> (lb < 8)%N ->
    exists lb' out,
      a2b_loop s lb lc qp bin = (lb', bin ++ out)
      /\ (lb' < 8)%N
      /\ (8 * N.of_nat (length out) + lb' = 6 * N.of_nat (length s) + lb)%N.
Proof.
  induction s as [|c s IH]; intros lb lc qp bin Hs Hlb.
  - exists lb, []. rewrite app_nil_r. repeat split; auto.
  - cbn [forallb] in Hs. apply andb_prop in Hs as [Hc Hs].
    destruct (base64_digit_value c Hc) as [v Hv].
    rewrite (a2b_loop_digit _ _ _ _ _ _ _ Hv). unfold shift_in.
    destruct (8 <=? lb + 6)%N eqn:E.
    + apply N.leb_le in E.
      edestruct (IH (lb + 6 - 8)%N) as (lb' & out & -> & Hlb' & Hl);
        [exact Hs | lia |].
      exists lb'. eexists (_ :: out). rewrite <- app_assoc.
      split; [reflexivity|]. split; [exact Hlb'|]. cbn [length]. lia.
    + apply N.leb_gt in E.
      edestruct (IH (lb + 6)%N) as (lb' & out & -> & Hlb' & Hl);
        [exact Hs | lia |].
      exists lb', out. repeat split; auto. cbn [length]. lia.
Qed.

Lemma base64_digit_ascii (s : str) :
  forallb base64_digit s = true -> is_ascii s = true.
Proof.
  unfold is_ascii. rewrite !forallb_forall. intros H c Hc.
  apply H in Hc. unfold base64_digit in Hc.
  apply andb_prop in Hc as [Hc _]. apply N.ltb_lt.
  now apply base64_char_small.
Qed.

(** X9: a payload of base64 digits without padding decodes exactly when
    its length is a multiple of four, to three bytes for every four
    digits; otherwise [b64decode] raises [binascii.Error]. *)
Theorem unpadded_payload_needs_full_groups :
  forall (s : str),
    forallb base64_digit s = true ->
    (length s mod 4 = 0 ->
     exists b, b64decode s = Ok b /\ 4 * length b = 3 * length s)
    /\ (length s mod 4 <> 0 ->
        exists msg, b64decode s = Raise (Exception binascii_Error msg)).
Proof.
  intros s Hs. pose proof (base64_digit_ascii s Hs) as Ha.
  unfold b64decode, a2b_base64. unfold is_ascii in Ha. rewrite Ha.
  destruct (a2b_loop_digits s 0 0 0 [] Hs ltac:(lia))
    as (lb & out & -> & Hlb & Hl).
  pose proof (Nat.div_mod_eq (length s) 4) as Hd.
  pose proof (Nat.mod_upper_bound (length s) 4 ltac:(lia)) as Hm.
  split; intros Hmod.
  - assert (lb = 0%N) as -> by lia. simpl.
    exists out. split; [reflexivity | lia].
  - destruct (lb =? 0)%N eqn:E; [|eexists; reflexivity].
    apply N.eqb_eq in E. subst lb. exfalso. lia.
Qed.


(* ------------------------------------------------------------------ *)
(** ** What follows the padding *)

Lemma find_valid_pad (rest : bytes) :
  binascii_find_valid (BASE64_PAD :: BASE64_PAD :: rest) 1 = Some BASE64_PAD.
Proof. reflexivity. Qed.

(** the loop on an encoding that ends with padding, and a text after it *)
Lemma a2b_loop_b64encode_tail (tail : bytes) :
  forall (n : nat) (b bin_data : bytes),
    length b <= n -> is_bytes b = true -> length b mod 3 <> 0 ->
    a2b_loop (b64encode b ++ tail) 0 0 0 bin_data = (0%N, bin_data ++ b).
Proof.
  induction n as [|n IH]; intros b bin_data Hn Hb Hm.
  - destruct b; [now simpl in Hm | simpl in Hn; lia].
  - destruct b as [|x [|y [|z rest]]].
    + now simpl in Hm.
    + simpl in Hb. rewrite andb_true_r in Hb. apply N.ltb_lt in Hb.
      cbn [b64encode app]. fold (sextet0 x). rewrite sextet1_last.
      rewrite a2b_loop_two by (assumption || reflexivity). reflexivity.
    + simpl in Hb. rewrite andb_true_r in Hb.
      apply andb_prop in Hb as [Hx Hy].
      apply N.ltb_lt in Hx. apply N.ltb_lt in Hy.
      cbn [b64encode app]. fold (sextet0 x) (sextet1 x y).
      rewrite sextet2_last, a2b_loop_two by assumption.
      assert (0 < 256)%N as H0 by reflexivity.
      rewrite (a2b_loop_sextet _ _ _ _ _ _ _ _ _ _
                 (sextet2_step y 0 Hy H0)).
      cbn [a2b_loop]. now rewrite <- app_assoc.
    + cbn [is_bytes forallb] in Hb.
      apply andb_prop in Hb as [Hx Hb]. apply andb_prop in Hb as [Hy Hb].
      apply andb_prop in Hb as [Hz Hb].
      apply N.ltb_lt in Hx. apply N.ltb_lt in Hy. apply N.ltb_lt in Hz.
      cbn [b64encode app].
      fold (sextet0 x) (sextet1 x y) (sextet2 y z) (sextet3 z).
      rewrite a2b_loop_group by assumption.
      rewrite IH.
      * now rewrite <- app_assoc.
      * simpl in Hn. lia.
      * exact Hb.
      * cbn [length] in Hm.
        replace (S (S (S (length rest)))) with (length rest + 1 * 3) in Hm
          by lia.
        now rewrite Nat.Div0.mod_add in Hm.
Qed.

(** X10: what follows the padding of an encoding is not decoded: the
    encoding of bytes whose number is not a multiple of three, followed by
    any ASCII text, decodes to these bytes alone. *)
Theorem text_after_padding_is_ignored :
  forall (b : bytes) (tail : str),
    is_bytes b = true ->
    length b mod 3 <> 0 ->
    is_ascii tail = true ->
    b64decode (b64encode b ++ tail) = Ok b.
Proof.
  intros b tail Hb Hm Ht. unfold b64decode.
  pose proof (b64encode_ascii b Hb) as Ha. unfold is_ascii in Ht.
  rewrite forallb_app, Ha, Ht. cbn [andb]. unfold a2b_base64.
  now rewrite (a2b_loop_b64encode_tail tail (length b) b [] (le_n _) Hb Hm).
Qed.

(* ================================================================== *)
(** * Paths *)

Lemma rfind_spec (c : N) :
  forall s,
    (rfind c s = (-1)%Z /\ ~ In c s)
    \/ (exists a b, s = a ++ c :: b /\ ~ In c b
                    /\ rfind c s = Z.of_nat (length a)).
Proof.
  induction s as [|x s IH]; [left; simpl; tauto|].
  cbn [rfind]. destruct IH as [[Hr Hn] | (a & b & -> & Hb & Hr)].
  - rewrite Hr. cbn [Z.leb Z.compare].
    destruct (x =? c)%N eqn:E.
    + apply N.eqb_eq in E. subst x. right. exists [], s. auto.
    + apply N.eqb_neq in E. left. split; [reflexivity|].
      intros [H | H]; [congruence | contradiction].
  - rewrite Hr. right. exists (x :: a), b. repeat split; auto.
    destruct (0 <=? Z.of_nat (length a))%Z eqn:E.
    + cbn [length]. lia.
    + apply Z.leb_gt in E. lia.
Qed.

Lemma rfind_found (c : N) (a b : str) :
  ~ In c b -> rfind c (a ++ c :: b) = Z.of_nat (length a).
Proof.
  intros Hb. destruct (rfind_spec c (a ++ c :: b))
    as [[_ Hn] | (a' & b' & E & Hb' & ->)].
  - exfalso. apply Hn, in_elt.
  - f_equal. clear -E Hb Hb'. revert a' E.
    induction a as [|x a IH]; intros a' E.
    + destruct a' as [|y a']; [reflexivity|].
      simpl in E. injection E as <- E. exfalso. apply Hb.
      rewrite E. apply in_elt.
    + destruct a' as [|y a'].
      * simpl in E. injection E as -> E. exfalso. apply Hb'.
        rewrite <- E. apply in_elt.
      * simpl in E. injection E as _ E. simpl. f_equal. now apply IH.
Qed.

Lemma rfind_absent (c : N) (s : str) : ~ In c s -> rfind c s = (-1)%Z.
Proof.
  intros H. destruct (rfind_spec c s) as [[Hr _] | (a & b & -> & _)];
    [exact Hr|].
  exfalso. apply H, in_elt.
Qed.

Lemma rstrip_spec (c : N) (s : str) :
  exists n, s = rstrip c s ++ repeat c n /\ no_end c (rstrip c s).
Proof.
  unfold rstrip.
  set (drop := fix drop (l : str) : str :=
                 match l with
                 | x :: l' => if (x =? c)%N then drop l' else l
                 | [] => []
                 end).
  assert (Hd : forall l, exists n, l = repeat c n ++ drop l
                         /\ forall z, drop l <> c :: z).
  { induction l as [|x l IH]; [exists 0; split; [reflexivity | discriminate]|].
    cbn [drop]. destruct (x =? c)%N eqn:E.
    - apply N.eqb_eq in E. subst x. destruct IH as (n & E & Hn).
      exists (S n). split; [simpl; now f_equal | exact Hn].
    - apply N.eqb_neq in E. exists 0. split; [reflexivity|].
      intros z H. congruence. }
  destruct (Hd (rev s)) as (n & E & Hn). exists n. split.
  - transitivity (rev (repeat c n ++ drop (rev s))).
    { rewrite <- E. symmetry. apply rev_involutive. }
    rewrite rev_app_distr. f_equal. clear.
    induction n as [|n IH]; [reflexivity|].
    simpl. rewrite IH. clear.
    induction n as [|n IH]; [reflexivity|]. simpl. now rewrite <- IH.
  - intros z H. apply (Hn (rev z)).
    rewrite <- (rev_involutive (drop (rev s))), H, rev_app_distr.
    reflexivity.
Qed.

Lemma rstrip_no_end (c : N) (s : str) : no_end c s -> rstrip c s = s.
Proof.
  intros H. destruct (rstrip_spec c s) as ([|n] & E & _).
  - simpl in E. rewrite app_nil_r in E. congruence.
  - exfalso. apply (H (rstrip c s ++ repeat c n)).
    rewrite E at 1. rewrite <- app_assoc. f_equal.
    clear. induction n as [|n IH]; [reflexivity|].
    simpl. now rewrite <- IH.
Qed.

Lemma repeat_snoc (c : N) (n : nat) : repeat c n ++ [c] = c :: repeat c n.
Proof. induction n as [|n IH]; [reflexivity|]. simpl. now rewrite IH. Qed.

Lemma app_repeat_inj (c : N) (s y : str) :
  no_end c s -> no_end c y ->
  forall n k, s ++ repeat c n = y ++ repeat c k -> n = k /\ s = y.
Proof.
  intros Hs Hy. induction n as [|n IH]; intros [|k] E.
  - rewrite !app_nil_r in E. auto.
  - exfalso. cbn [repeat] in E. rewrite app_nil_r in E.
    apply (Hs (y ++ repeat c k)). rewrite E, <- app_assoc.
    now rewrite repeat_snoc.
  - exfalso. cbn [repeat] in E. rewrite app_nil_r in E.
    apply (Hy (s ++ repeat c n)). rewrite <- E, <- app_assoc.
    now rewrite repeat_snoc.
  - cbn [repeat] in E. rewrite <- !repeat_snoc, !app_assoc in E.
    apply app_inj_tail in E as [E _].
    destruct (IH _ E) as [-> ->]. auto.
Qed.

Lemma rstrip_app_repeat (c : N) (s : str) (n : nat) :
  no_end c s -> rstrip c (s ++ repeat c n) = s.
Proof.
  intros H. destruct (rstrip_spec c (s ++ repeat c n)) as (k & E & Hk).
  symmetry. now apply (app_repeat_inj c s _ H Hk n k).
Qed.

(** what [os.path.split] gives *)
Lemma os_path_split_no_sep (p : str) :
  ~ In sep p -> os_path_split p = ([], p).
Proof.
  intros H. unfold os_path_split. rewrite (rfind_absent _ _ H).
  reflexivity.
Qed.

Lemma str_eqb_refl (a : str) : str_eqb a a = true.
Proof. now apply str_eqb_eq. Qed.

Lemma os_path_split_found (a b : str) :
  ~ In sep b ->
  os_path_split (a ++ sep :: b)
  = (if str_eqb (a ++ [sep]) (repeat sep (S (length a)))
     then a ++ [sep] else rstrip sep (a ++ [sep]), b).
Proof.
  intros H. unfold os_path_split. rewrite (rfind_found _ _ _ H).
  replace (Z.to_nat (Z.of_nat (length a) + 1)) with (length a + 1) by lia.
  replace (a ++ sep :: b) with ((a ++ [sep]) ++ b)
    by (now rewrite <- app_assoc).
  replace (length a + 1) with (length (a ++ [sep]))
    by (rewrite length_app; reflexivity).
  rewrite firstn_app, firstn_all, Nat.sub_diag, skipn_app, skipn_all,
    Nat.sub_diag. cbn [firstn skipn app]. rewrite app_nil_r.
  f_equal.
  assert (str_eqb (a ++ [sep]) [] = false) as ->
    by (apply str_eqb_neq; now destruct a).
  rewrite length_app. cbn [length negb andb].
  replace (length a + 1) with (S (length a)) by lia.
  now destruct (str_eqb (a ++ [sep]) (repeat sep (S (length a)))).
Qed.

Lemma os_path_split_tail (p : str) : ~ In sep (snd (os_path_split p)).
Proof.
  destruct (rfind_spec sep p) as [[_ Hn] | (a & b & -> & Hb & _)].
  - now rewrite (os_path_split_no_sep _ Hn).
  - now rewrite (os_path_split_found _ _ Hb).
Qed.

(** X11: [os.path.split] cuts a path at its last separator: the base name
    holds no separator, the path is the directory name, separators, and
    the base name, and the directory name does not end with a separator
    unless it holds nothing else. *)
Theorem os_path_split_parts :
  forall (p : str),
    ~ In sep (snd (os_path_split p))
    /\ (exists n,
          p = fst (os_path_split p) ++ repeat sep n
                ++ snd (os_path_split p))
    /\ (no_end sep (fst (os_path_split p))
        \/ fst (os_path_split p)
           = repeat sep (length (fst (os_path_split p)))).
Proof.
  intros p. split; [apply os_path_split_tail|].
  destruct (rfind_spec sep p) as [[_ Hn] | (a & b & -> & Hb & _)].
  - rewrite (os_path_split_no_sep _ Hn). split; [now exists 0|].
    now right.
  - rewrite (os_path_split_found _ _ Hb). cbn [fst snd].
    destruct (str_eqb (a ++ [sep]) (repeat sep (S (length a)))) eqn:E.
    + split; [exists 0; now rewrite <- app_assoc|]. right.
      apply str_eqb_eq in E. rewrite E at 1.
      rewrite length_app. cbn [length]. f_equal. lia.
    + destruct (rstrip_spec sep (a ++ [sep])) as (n & En & Hend).
      split; [|now left].
      exists n. rewrite app_assoc, <- En, <- app_assoc. reflexivity.
Qed.

(* ------------------------------------------------------------------ *)
(** ** Normal paths *)

Lemma endswith_snoc (z : str) (c d : N) :
  endswith (z ++ [c]) [d] = (d =? c)%N.
Proof.
  unfold endswith. rewrite rev_app_distr. cbn [rev app startswith].
  apply andb_true_r.
Qed.

Lemma last_cases (p : str) : p = [] \/ exists z c, p = z ++ [c].
Proof.
  destruct p as [|x p]; [now left | right].
  destruct (exists_last (l := x :: p)) as (z & c & E); [discriminate|].
  eauto.
Qed.

Lemma endswith_no_end (p : str) :
  no_end sep p -> endswith p [sep] = false.
Proof.
  intros H. destruct (last_cases p) as [-> | (z & c & ->)]; [reflexivity|].
  rewrite endswith_snoc. apply N.eqb_neq. intros E. subst c.
  now apply (H z).
Qed.

Lemma startswith_one (c x : N) (s : str) :
  startswith [c] (x :: s) = (c =? x)%N.
Proof. cbn [startswith]. apply andb_true_r. Qed.

Lemma startswith_sep_absent (i : str) :
  ~ In sep i -> startswith [sep] i = false.
Proof.
  destruct i as [|x i]; [reflexivity|]. intros H. rewrite startswith_one.
  apply N.eqb_neq. intros E. apply H. now left.
Qed.

Lemma repeat_S_snoc (n : nat) : repeat sep (S n) = repeat sep n ++ [sep].
Proof. now rewrite repeat_snoc. Qed.

(** [split] undoes [join] on a normal directory path and a name *)
Lemma os_path_split_join (p i : str) :
  p <> [] -> dir_like p -> ~ In sep i ->
  os_path_split (os_path_join p i) = (p, i).
Proof.
  intros Hp [Hall | Hend] Hi; unfold os_path_join;
    rewrite (startswith_sep_absent _ Hi).
  - destruct (length p) as [|n] eqn:En; [now destruct p|].
    rewrite repeat_S_snoc in Hall.
    assert (endswith p [sep] = true) as ->
      by (rewrite Hall, endswith_snoc; apply N.eqb_refl).
    rewrite orb_true_r. rewrite Hall at 1. rewrite <- app_assoc.
    cbn [app]. rewrite (os_path_split_found _ _ Hi).
    rewrite repeat_length, <- repeat_S_snoc, str_eqb_refl.
    now rewrite repeat_S_snoc, <- Hall.
  - rewrite (endswith_no_end _ Hend).
    assert (str_eqb p [] = false) as -> by now apply str_eqb_neq.
    cbn [orb]. rewrite (os_path_split_found _ _ Hi).
    assert (str_eqb (p ++ [sep]) (repeat sep (S (length p))) = false) as ->.
    { apply str_eqb_neq. intros E.
      destruct (last_cases p) as [-> | (z & c & ->)]; [congruence|].
      assert (In c (repeat sep (S (length (z ++ [c]))))) as Hin
        by (rewrite <- E, <- app_assoc; apply in_elt).
      apply repeat_spec in Hin. subst c. now apply (Hend z). }
    f_equal. apply (rstrip_app_repeat sep p 1 Hend).
Qed.

Lemma str_split_no_sep (c : N) :
  forall s, Forall (fun x => ~ In c x) (str_split c s).
Proof.
  induction s as [|x s IH]; [repeat constructor; tauto|].
  cbn [str_split]. destruct (x =? c)%N eqn:E.
  - constructor; [tauto | exact IH].
  - apply N.eqb_neq in E.
    destruct (str_split c s) as [|h t]; inversion IH; subst.
    + repeat constructor. intros [H | []]. congruence.
    + constructor; [|assumption]. intros [H | H]; [congruence | tauto].
Qed.

Lemma normpath_loop_components (initial_slashes : nat) :
  forall comps new_comps,
    Forall (fun x => ~ In sep x) comps ->
    Forall component new_comps ->
    Forall component (normpath_loop initial_slashes comps new_comps).
Proof.
  induction comps as [|comp comps IH]; intros new_comps Hc Hn.
  - simpl. now apply Forall_rev.
  - inversion Hc; subst. cbn [normpath_loop].
    destruct (str_eqb comp []) eqn:E; cbn [orb]; [now apply IH|].
    destruct (str_eqb comp dot); [now apply IH|].
    apply str_eqb_neq in E.
    match goal with
    | |- Forall _ (if ?b then _ else _) => destruct b
    end.
    + apply IH; auto. constructor; [split|]; auto.
    + apply IH; auto. destruct new_comps; [constructor|].
      now inversion Hn.
Qed.

Lemma str_join_end (l : list str) :
  Forall component l -> l <> [] ->
  str_join sep l <> [] /\ no_end sep (str_join sep l).
Proof.
  induction l as [|a l IH]; [congruence|]. intros H _.
  inversion H as [|? ? [Ha Hs] Hl]; subst.
  destruct l as [|b l].
  - cbn [str_join]. split; [exact Ha|]. intros z E. apply Hs.
    rewrite E. apply in_elt.
  - destruct (IH Hl ltac:(discriminate)) as [Hne Hend].
    change (str_join sep (a :: b :: l))
      with (a ++ sep :: str_join sep (b :: l)).
    split; [now destruct a|].
    intros z E.
    destruct (last_cases (str_join sep (b :: l))) as [E0 | (y & c & E0)];
      [contradiction|].
    rewrite E0 in E.
    change (a ++ sep :: y ++ [c]) with (a ++ (sep :: y) ++ [c]) in E.
    rewrite app_assoc in E. apply app_inj_tail in E as [_ ->].
    now apply (Hend y).
Qed.

Lemma dir_like_dot : dot <> [] /\ dir_like dot.
Proof.
  split; [discriminate|]. right. intros z E.
  destruct z as [|x [|y z]]; discriminate.
Qed.

(** what [os.path.normpath] returns does not end with a separator, unless
    it holds nothing else *)
Lemma os_path_normpath_dir_like (path : str) :
  os_path_normpath path <> [] /\ dir_like (os_path_normpath path).
Proof.
  unfold os_path_normpath.
  destruct (str_eqb path []); [apply dir_like_dot|].
  set (k := if startswith [sep] path
            then if startswith [sep; sep] path
                    && negb (startswith [sep; sep; sep] path)
                 then 2 else 1
            else 0).
  pose proof (normpath_loop_components k (str_split sep path) []
                (str_split_no_sep sep path) (Forall_nil _)) as Hc.
  destruct (normpath_loop k (str_split sep path) []) as [|a l] eqn:El.
  - cbn [str_join]. rewrite app_nil_r.
    destruct (str_eqb (repeat sep k) []) eqn:E; [apply dir_like_dot|].
    apply str_eqb_neq in E. split; [exact E|]. left.
    now rewrite repeat_length.
  - destruct (str_join_end (a :: l) Hc ltac:(discriminate)) as [Hne Hend].
    assert (repeat sep k ++ str_join sep (a :: l) <> []) as Hne'.
    { intros E. apply app_eq_nil in E as [_ E]. contradiction. }
    apply str_eqb_neq in Hne'. rewrite Hne'. apply str_eqb_neq in Hne'.
    split; [exact Hne'|]. right. intros z E.
    destruct (last_cases (str_join sep (a :: l))) as [E0 | (y & c & E0)];
      [contradiction|].
    rewrite E0, app_assoc in E. apply app_inj_tail in E as [_ ->].
    now apply (Hend y).
Qed.

(** [split] undoes the [join] of the enumerator on the normal path
    [abspath] returns *)
Lemma document_path_splits_back :
  forall (cwd path i : str),
    ~ In sep i ->
    let p := os_path_abspath cwd path in
    os_path_split (os_path_join p i) = (p, i).
Proof.
  intros cwd path i Hi p. unfold p, os_path_abspath.
  destruct (os_path_normpath_dir_like
              (if startswith [sep] path then path else os_path_join cwd path))
    as [Hne Hd].
  now apply os_path_split_join.
Qed.

(** [abspath] of a path is absolute when the working directory is *)
Lemma os_path_abspath_absolute (cwd path : str) :
  startswith [sep] cwd = true ->
  startswith [sep] (os_path_abspath cwd path) = true.
Proof.
  intros Hcwd. unfold os_path_abspath.
  assert (exists t, (if startswith [sep] path then path
                     else os_path_join cwd path) = sep :: t) as [t ->].
  { destruct (startswith [sep] path) eqn:E.
    - destruct path as [|x path]; [discriminate|].
      rewrite startswith_one in E. apply N.eqb_eq in E. subst x. eauto.
    - unfold os_path_join. rewrite E.
      destruct cwd as [|x cwd]; [discriminate|].
      rewrite startswith_one in Hcwd. apply N.eqb_eq in Hcwd. subst x.
      destruct (str_eqb (sep :: cwd) [] || endswith (sep :: cwd) [sep]);
        cbn [app]; eauto. }
  unfold os_path_normpath.
  assert (str_eqb (sep :: t) [] = false) as -> by now apply str_eqb_neq.
  assert (startswith [sep] (sep :: t) = true) as ->
    by (rewrite startswith_one; apply N.eqb_refl).
  destruct (startswith [sep; sep] (sep :: t)
            && negb (startswith [sep; sep; sep] (sep :: t)));
    cbn [repeat app];
    match goal with
    | |- startswith _ (if str_eqb ?x [] then _ else _) = true =>
        assert (str_eqb x [] = false) as -> by now apply str_eqb_neq
    end; rewrite startswith_one; apply N.eqb_refl.
Qed.

(* ------------------------------------------------------------------ *)
(** ** The fallback name *)

Lemma all_extsep_prefix (a r : str) :
  all_extsep (length a) (a ++ r) = forallb (fun c => (c =? extsep)%N) a.
Proof.
  induction a as [|x a IH]; [reflexivity|].
  cbn [length app all_extsep forallb]. now rewrite IH.
Qed.

Lemma os_path_splitext_prefix (p : str) :
  exists ext, p = fst (os_path_splitext p) ++ ext.
Proof.
  unfold os_path_splitext.
  destruct (rfind sep p <? rfind extsep p)%Z;
    [|exists []; now rewrite app_nil_r].
  match goal with
  | |- context [if ?b then _ else _] => destruct b
  end; [exists []; now rewrite app_nil_r|].
  eexists. cbn [fst]. symmetry. apply firstn_skipn.
Qed.

(** a base name with an extension *)
Lemma os_path_splitext_stem (stem e : str) :
  ~ In sep stem -> ~ In sep e -> ~ In extsep e ->
  forallb (fun c => (c =? extsep)%N) stem = false ->
  os_path_splitext (stem ++ extsep :: e) = (stem, extsep :: e).
Proof.
  intros Hs He Hd Hstem. unfold os_path_splitext.
  rewrite (rfind_found _ _ _ Hd).
  assert (rfind sep (stem ++ extsep :: e) = (-1)%Z) as ->.
  { apply rfind_absent. intros H. apply in_app_or in H as [H | [H | H]];
      [tauto | discriminate | tauto]. }
  assert ((-1 <? Z.of_nat (length stem))%Z = true) as ->
    by (apply Z.ltb_lt; lia).
  rewrite Nat2Z.id. change (Z.to_nat (-1 + 1)) with 0. cbn [skipn].
  rewrite Nat.sub_0_r, all_extsep_prefix, Hstem.
  rewrite firstn_app, firstn_all, Nat.sub_diag, skipn_app, skipn_all,
    Nat.sub_diag.
  cbn [firstn skipn app]. now rewrite app_nil_r.
Qed.

(** a base name without an extension: dots, then a text without a dot *)
Lemma os_path_splitext_none (n : nat) (rest : str) :
  ~ In sep rest -> ~ In extsep rest ->
  os_path_splitext (repeat extsep n ++ rest) = (repeat extsep n ++ rest, []).
Proof.
  intros Hs Hd. unfold os_path_splitext.
  assert (rfind sep (repeat extsep n ++ rest) = (-1)%Z) as ->.
  { apply rfind_absent. intros H. apply in_app_or in H as [H | H];
      [|tauto]. apply repeat_spec in H. discriminate. }
  destruct n as [|n].
  - cbn [repeat app]. rewrite (rfind_absent _ _ Hd). reflexivity.
  - assert (repeat extsep (S n) ++ rest = repeat extsep n ++ extsep :: rest)
      as E by (cbn [repeat]; rewrite <- repeat_snoc, <- app_assoc;
               reflexivity).
    rewrite E. rewrite (rfind_found _ _ _ Hd), repeat_length.
    assert ((-1 <? Z.of_nat n)%Z = true) as -> by (apply Z.ltb_lt; lia).
    rewrite Nat2Z.id. change (Z.to_nat (-1 + 1)) with 0. cbn [skipn].
    rewrite Nat.sub_0_r.
    rewrite <- (repeat_length extsep n) at 1.
    rewrite all_extsep_prefix.
    assert (forallb (fun c => (c =? extsep)%N) (repeat extsep n) = true)
      as ->; [|reflexivity].
    apply forallb_forall. intros x Hx. apply repeat_spec in Hx. subst x.
    apply N.eqb_refl.
Qed.

Lemma string_of_uint_decimal (d : Decimal.uint) :
  forallb is_decimal (lit (NilZero.string_of_uint d)) = true.
Proof.
  assert (forall u, forallb is_decimal
                      (map chr (list_ascii_of_string
                                  (NilEmpty.string_of_uint u)))
                    = true) as H.
  { induction u as [|u IH|u IH|u IH|u IH|u IH|u IH|u IH|u IH|u IH|u IH];
      [reflexivity|..];
      cbn [NilEmpty.string_of_uint list_ascii_of_string map forallb];
      rewrite IH; reflexivity. }
  destruct d; try apply H. reflexivity.
Qed.

Lemma str_of_nat_decimal (n : nat) :
  forallb is_decimal (str_of_nat n) = true.
Proof. apply string_of_uint_decimal. Qed.

Lemma str_of_nat_nonempty (n : nat) : str_of_nat n <> [].
Proof.
  unfold str_of_nat. destruct (Nat.to_uint n); discriminate.
Qed.

Lemma decimal_no_sep (s : str) : forallb is_decimal s = true -> ~ In sep s.
Proof.
  rewrite forallb_forall. intros H Hin. apply H in Hin. discriminate.
Qed.

Lemma fallback_name_eq (idx : nat) (path attachment : str) :
  re_search (regex nome) attachment = None ->
  attachment_name idx path attachment
  = fst (os_path_splitext (snd (os_path_split path)))
      ++ lit "_allegato_" ++ str_of_nat (idx + 1).
Proof. intros H. unfold attachment_name. now rewrite H. Qed.

(** X12: the fallback name is a file name: it holds no separator, begins
    with a text the base name of the document begins with, and ends with
    [_allegato_] and the decimal digits of the position. *)
Theorem fallback_name_is_a_file_name :
  forall (idx : nat) (path attachment : str),
    re_search (regex nome) attachment = None ->
    ~ In sep (attachment_name idx path attachment)
    /\ exists root ext digits,
         attachment_name idx path attachment
         = root ++ lit "_allegato_" ++ digits
         /\ snd (os_path_split path) = root ++ ext
         /\ digits <> [] /\ forallb is_decimal digits = true.
Proof.
  intros idx path attachment H. rewrite (fallback_name_eq _ _ _ H).
  destruct (os_path_splitext_prefix (snd (os_path_split path)))
    as [ext E].
  pose proof (os_path_split_tail path) as Hb.
  pose proof (str_of_nat_decimal (idx + 1)) as Hd.
  split.
  - intros Hin. apply in_app_or in Hin as [Hin | Hin].
    + apply Hb. rewrite E. apply in_or_app. now left.
    + apply in_app_or in Hin as [Hin | Hin];
        [|now apply decimal_no_sep in Hin].
      simpl in Hin. repeat (destruct Hin as [Hin | Hin]; [discriminate|]).
      exact Hin.
  - exists (fst (os_path_splitext (snd (os_path_split path)))), ext,
      (str_of_nat (idx + 1)).
    repeat split; auto. apply str_of_nat_nonempty.
Qed.

(** X13: the fallback name drops the last extension of the base name of the
    document, and only that: [stem.ext] gives [stem]; a base name without a
    dot, or with dots at its start only, is kept whole. *)
Theorem fallback_name_drops_the_extension :
  forall (idx : nat) (dir attachment : str),
    re_search (regex nome) attachment = None ->
    (forall stem e,
       ~ In sep stem -> ~ In sep e -> ~ In extsep e ->
       forallb (fun c => (c =? extsep)%N) stem = false ->
       attachment_name idx (dir ++ sep :: stem ++ extsep :: e) attachment
       = stem ++ lit "_allegato_" ++ str_of_nat (idx + 1))
    /\ (forall n rest,
          ~ In sep rest -> ~ In extsep rest ->
          attachment_name idx (dir ++ sep :: repeat extsep n ++ rest)
            attachment
          = (repeat extsep n ++ rest) ++ lit "_allegato_"
              ++ str_of_nat (idx + 1)).
Proof.
  intros idx dir attachment H. split.
  - intros stem e Hs He Hd Hstem. rewrite (fallback_name_eq _ _ _ H).
    rewrite os_path_split_found.
    + cbn [snd]. now rewrite os_path_splitext_stem.
    + intros Hin. apply in_app_or in Hin as [Hin | [Hin | Hin]];
        [tauto | discriminate | tauto].
  - intros n rest Hs Hd. rewrite (fallback_name_eq _ _ _ H).
    rewrite os_path_split_found.
    + cbn [snd]. now rewrite os_path_splitext_none.
    + intros Hin. apply in_app_or in Hin as [Hin | Hin]; [|tauto].
      apply repeat_spec in Hin. discriminate.
Qed.


(* ================================================================== *)
(** * What the program does to the file system *)

Lemma inode_kept_refl (n : inode) : inode_kept n n.
Proof. destruct n as [r [|] data | r wr]; simpl; eauto. Qed.

Lemma inode_kept_trans (a b c : inode) :
  inode_kept a b -> inode_kept b c -> inode_kept a c.
Proof.
  destruct a as [r [|] data | r wr]; simpl.
  - intros [d ->]. simpl. auto.
  - intros ->. auto.
  - intros ->. auto.
Qed.

Section Steps.

Variable R : world -> world -> Prop.
Hypothesis R_refl : forall w, R w w.
Hypothesis R_trans : forall a b c, R a b -> R b c -> R a c.

Lemma ret_steps (A : Type) (a : A) : steps_in R A (ret a).
Proof. intros w r w' H. inversion H. apply R_refl. Qed.

Lemma bind_steps (A B : Type) (c : M A) (k : A -> M B) :
  steps_in R A c -> (forall a, steps_in R B (k a)) ->
  steps_in R B (bind c k).
Proof.
  intros Hc Hk w r w'. unfold bind.
  destruct (c w) as [[a|e] w1] eqn:E.
  - intros H. apply (R_trans _ w1); [now apply (Hc _ _ _ E)|].
    now apply (Hk a _ _ _ H).
  - intros H. inversion H; subst. now apply (Hc _ _ _ E).
Qed.

Lemma for_each_steps (A : Type) (body : A -> M unit) (l : list A) :
  (forall x, In x l -> steps_in R unit (body x)) ->
  steps_in R unit (for_each l body).
Proof.
  induction l as [|x l IH]; intros Hb.
  - apply ret_steps.
  - cbn [for_each]. apply bind_steps.
    + apply Hb. now left.
    + intros _. apply IH. intros y Hy. apply Hb. now right.
Qed.

Lemma try_steps (A : Type) (body : M A) (handler : exn -> M A) :
  steps_in R A body -> (forall e, steps_in R A (handler e)) ->
  steps_in R A (try_except_Exception body handler).
Proof.
  intros Hb Hh w r w'. unfold try_except_Exception.
  destruct (body w) as [[a|[cls msg|code]] w1] eqn:E.
  - intros H. inversion H; subst. now apply (Hb _ _ _ E).
  - intros H. apply (R_trans _ w1); [now apply (Hb _ _ _ E)|].
    now apply (Hh _ _ _ _ H).
  - intros H. inversion H; subst. now apply (Hb _ _ _ E).
Qed.

End Steps.

(* ------------------------------------------------------------------ *)
(** ** The steps of the program *)

Lemma os_listdir_world (path : str) (w : world) r w' :
  os_listdir path w = (r, w') ->
  w' = w /\ match r with Ok _ => True | Raise e => is_Exception e end.
Proof.
  unfold os_listdir. destruct (resolve w path) as [k|e] eqn:Er.
  - destruct (lookup (w_fs w) k) as [[? ? ?|[|] ?]|];
      intros H; inversion H; subst; split; auto;
      unfold ENOENT, ENOTDIR, EACCES, OSError, is_Exception; eauto.
  - intros H. inversion H; subst. split; auto.
    now apply resolve_raises in Er.
Qed.

(** what a write does: nothing, or it creates the file, or (with ['wb'])
    it replaces the content of a file that can be written *)
Lemma open_write_outcome (path : str) (mode : open_mode) (data : bytes)
    (w : world) r w' :
  open_write path mode data w = (r, w') ->
  (w' = w /\ exists e, r = Raise e)
  \/ exists k,
       resolve w path = Ok k /\ r = Ok tt
       /\ ((lookup (w_fs w) k = None
            /\ w' = mkWorld (store (w_fs w) k (RegularFile true true data))
                      (w_cwd w) (w_stderr w))
           \/ (mode = wb
               /\ exists rd old,
                    lookup (w_fs w) k = Some (RegularFile rd true old)
                    /\ w' = mkWorld
                              (store (w_fs w) k (RegularFile rd true data))
                              (w_cwd w) (w_stderr w))).
Proof.
  unfold open_write. destruct (resolve_creat w path) as [k|e] eqn:R;
    [|intros H; inversion H; subst; left; eauto].
  apply resolve_creat_ok in R as [R _]. rewrite R.
  destruct (lookup (w_fs w) k) as [[rd wr old | rd wr]|] eqn:E.
  - destruct mode; [|intros H; inversion H; subst; left; eauto].
    destruct wr; intros H; inversion H; subst; [|left; eauto].
    right. exists k. repeat split; auto. right. eauto.
  - destruct mode; intros H; inversion H; subst; left; eauto.
  - assert (forall x : result unit * world,
              match lookup (w_fs w) (removelast k) with
              | Some (Directory _ true) =>
                  (Ok tt,
                   mkWorld (store (w_fs w) k (RegularFile true true data))
                     (w_cwd w) (w_stderr w))
              | _ => (Raise (EACCES path), w)
              end = x ->
              x = (r, w') ->
              (w' = w /\ exists e, r = Raise e)
              \/ exists k0,
                   Ok k = Ok k0 /\ r = Ok tt
                   /\ ((lookup (w_fs w) k0 = None
                        /\ w' = mkWorld
                                  (store (w_fs w) k0
                                     (RegularFile true true data))
                                  (w_cwd w) (w_stderr w))
                       \/ (mode = wb
                           /\ exists rd old,
                                lookup (w_fs w) k0
                                = Some (RegularFile rd true old)
                                /\ w' = mkWorld
                                          (store (w_fs w) k0
                                             (RegularFile rd true data))
                                          (w_cwd w) (w_stderr w)))) as Hx.
    { intros x Hx Hr.
      destruct (lookup (w_fs w) (removelast k)) as [[?|? [|]]|];
        subst x; inversion Hr; subst; try (left; eauto; fail).
      right. exists k. repeat split; auto. }
    destruct mode; intros H; eapply Hx; eauto.
Qed.

Section ProgramSteps.

Variable str_lower : str -> str.
Variable decode_text : bytes -> str + str.

Variable R : world -> world -> Prop.
Hypothesis R_refl : forall w, R w w.
Hypothesis R_trans : forall a b c, R a b -> R b c -> R a c.
Hypothesis R_print : forall w text, R w (printed w text).

Lemma print_stderr_steps (text : str) : steps_in R unit (print_stderr text).
Proof. intros w r w' H. inversion H. apply R_print. Qed.

Lemma read_xml_file_steps (path_ : str) :
  steps_in R _ (read_xml_file decode_text path_).
Proof.
  intros w r w'.
  destruct (read_xml_file_outcome decode_text path_ w)
    as [(text & _ & E) | (ex & _ & E)]; rewrite E; intros H;
    inversion H; subst; auto.
Qed.

Lemma xml_candidate_steps (path i : str) :
  steps_in R _ (xml_candidate decode_text path i).
Proof.
  intros w r w'. unfold xml_candidate, bind.
  destruct (os_path_isfile_returns (os_path_join path i) w) as [b ->].
  destruct (b && endswith i (lit ".xml")).
  - apply read_xml_file_steps.
  - intros H. inversion H. apply R_refl.
Qed.

(** the enumerator: its call, and each of its pending iterations *)
Lemma yield_xml_files_steps (path : str) (w : world) r w' :
  yield_xml_files decode_text path w = (r, w') ->
  R w w'
  /\ match r with
     | Ok files =>
         w' = w
         /\ Forall (fun next => steps_in R _ next /\ returns next) files
     | Raise e =>
         exit_status (Raise e) = 1%Z
         /\ (w' = w \/ exists msg, w' = printed w msg)
     end.
Proof.
  rewrite yield_xml_files_eq. cbv zeta.
  destruct (os_listdir (os_path_abspath (w_cwd w) path) w) as [r0 w0] eqn:E.
  apply os_listdir_world in E as [-> He].
  destruct r0 as [names | [cls msg | code]].
  - intros H. inversion H; subst. split; [apply R_refl|].
    split; [reflexivity|]. apply Forall_forall. intros next Hin.
    apply in_map_iff in Hin as (i & <- & _).
    split; [apply xml_candidate_steps | apply xml_candidate_returns].
  - destruct cls; intros H; inversion H; subst;
      try (split; [apply R_refl | split; [reflexivity | now left]]).
    + split; [apply R_print|]. split; [reflexivity | right; eauto].
    + split; [apply R_refl|]. split; [reflexivity|].
      repeat constructor;
        [apply read_xml_file_steps | apply read_xml_file_returns].
  - destruct He as (cls & msg & He). discriminate.
Qed.

Variable outdir : option str.
Variable safety : str.
Hypothesis R_write :
  forall attachment, steps_in R _ (write_attachment attachment outdir safety).

Lemma handle_event_steps (ev : event) :
  steps_in R _ (handle_event outdir safety ev).
Proof.
  destruct ev as [attachment | text]; cbn [handle_event].
  - apply R_write.
  - apply print_stderr_steps.
Qed.

Lemma main_body_steps (next : M (option (str * str))) :
  steps_in R _ next -> steps_in R _ (main_body str_lower outdir safety next).
Proof.
  intros Hn. unfold main_body. apply bind_steps; auto.
  intros [file|]; [|now apply ret_steps].
  apply for_each_steps; auto. intros ev _. apply handle_event_steps.
Qed.

Lemma main_steps (path : str) :
  steps_in R _ (main str_lower decode_text (mkArgs path outdir safety)).
Proof.
  rewrite main_eq. cbn [args_path args_outdir args_safety].
  intros w r w'. unfold bind.
  destruct (yield_xml_files decode_text path w) as [[files|e] w1] eqn:E;
    apply yield_xml_files_steps in E as [HR E].
  - destruct E as [-> Hf]. apply for_each_steps; auto.
    intros next Hin. apply main_body_steps.
    rewrite Forall_forall in Hf. now apply Hf.
  - intros H. inversion H; subst. exact HR.
Qed.

End ProgramSteps.

(* ------------------------------------------------------------------ *)
(** ** What is kept *)

Lemma stream_grows_refl (w : world) : stream_grows w w.
Proof. split; [reflexivity|]. exists []. now rewrite app_nil_r. Qed.

Lemma stream_grows_trans (a b c : world) :
  stream_grows a b -> stream_grows b c -> stream_grows a c.
Proof.
  intros [H1 [l1 E1]] [H2 [l2 E2]]. split; [congruence|].
  exists (l1 ++ l2). now rewrite E2, E1, app_assoc.
Qed.

Lemma stream_grows_fs (w : world) (fs : filesystem) :
  stream_grows w (mkWorld fs (w_cwd w) (w_stderr w)).
Proof. split; [reflexivity|]. exists []. cbn. now rewrite app_nil_r. Qed.

Lemma stream_grows_print (w : world) (text : str) :
  stream_grows w (printed w text).
Proof. split; [reflexivity|]. now exists [text]. Qed.

Lemma files_only_refl (w : world) : files_only w w.
Proof.
  split; [|split; [now left | apply stream_grows_refl]].
  intros k n H. exists n. split; [exact H | apply inode_kept_refl].
Qed.

Lemma files_only_trans (a b c : world) :
  files_only a b -> files_only b c -> files_only a c.
Proof.
  intros (K1 & N1 & S1) (K2 & N2 & S2).
  split; [|split; [|now apply (stream_grows_trans a b c)]].
  - intros k n H. destruct (K1 _ _ H) as (n1 & H1 & I1).
    destruct (K2 _ _ H1) as (n2 & H2 & I2).
    exists n2. split; [exact H2 | now apply (inode_kept_trans n n1 n2)].
  - intros k H. destruct (N1 _ H) as [H1 | [data H1]]; [auto|].
    destruct (K2 _ _ H1) as (n2 & H2 & [d ->]). eauto.
Qed.

Lemma files_only_print (w : world) (text : str) :
  files_only w (printed w text).
Proof.
  split; [|split; [now left | apply stream_grows_print]].
  intros k n H. exists n. split; [exact H | apply inode_kept_refl].
Qed.

Lemma objects_kept_refl (w : world) : objects_kept w w.
Proof. split; [now intros k n H | apply stream_grows_refl]. Qed.

Lemma objects_kept_trans (a b c : world) :
  objects_kept a b -> objects_kept b c -> objects_kept a c.
Proof.
  intros [K1 S1] [K2 S2]. split; [|now apply (stream_grows_trans a b c)].
  intros k n H. auto.
Qed.

Lemma objects_kept_print (w : world) (text : str) :
  objects_kept w (printed w text).
Proof. split; [now intros k n H | apply stream_grows_print]. Qed.

(** a write changes the object at the target, and nothing else *)
Lemma write_attachment_outcome (attachment : str * str * bytes)
    (outdir : option str) (safety : str) (w : world) r w' :
  write_attachment attachment outdir safety w = (r, w') ->
  r = Ok tt
  /\ ((exists text, w' = printed w text)
      \/ exists k,
           resolve w (outpath attachment outdir) = Ok k
           /\ ((lookup (w_fs w) k = None
                /\ w' = mkWorld
                          (store (w_fs w) k
                             (RegularFile true true (snd attachment)))
                          (w_cwd w) (w_stderr w))
               \/ (safety = lit "low"
                   /\ exists rd old,
                        lookup (w_fs w) k = Some (RegularFile rd true old)
                        /\ w' = mkWorld
                                  (store (w_fs w) k
                                     (RegularFile rd true (snd attachment)))
                                  (w_cwd w) (w_stderr w)))).
Proof.
  rewrite write_attachment_eq.
  destruct (open_write (outpath attachment outdir) (write_mode safety)
              (snd attachment) w) as [[[]|ex] w1] eqn:E.
  - intros H. inversion H; subst. split; [reflexivity|]. right.
    apply open_write_outcome in E
      as [[_ [e He]] | (k & Hk & _ & Hc)]; [discriminate|].
    exists k. split; [exact Hk|].
    destruct Hc as [Hc | (Hm & Hc)]; [now left | right].
    split; [|exact Hc]. unfold write_mode in Hm.
    destruct (str_eqb safety (lit "low")) eqn:Es; [|discriminate].
    now apply str_eqb_eq.
  - intros H. inversion H; subst. split; [reflexivity|]. left. eauto.
Qed.

Lemma write_attachment_files_only (attachment : str * str * bytes)
    (outdir : option str) (safety : str) :
  steps_in files_only _ (write_attachment attachment outdir safety).
Proof.
  intros w r w' H.
  apply write_attachment_outcome in H
    as [_ [[text ->] | (k & _ & [[Hn ->] | (_ & rd & old & Ho & ->)])]].
  - apply files_only_print.
  - split; [|split; [|apply stream_grows_fs]]; cbn [w_fs].
    + intros k' n H. cbn [w_fs]. rewrite lookup_store.
      destruct (key_eqb k k') eqn:E.
      * apply key_eqb_eq in E. subst k'. congruence.
      * exists n. split; [exact H | apply inode_kept_refl].
    + intros k' H. cbn [w_fs]. rewrite lookup_store.
      destruct (key_eqb k k'); [right; eauto | now left].
  - split; [|split; [|apply stream_grows_fs]]; cbn [w_fs].
    + intros k' n H. cbn [w_fs]. rewrite lookup_store.
      destruct (key_eqb k k') eqn:E.
      * apply key_eqb_eq in E. subst k'. rewrite Ho in H.
        inversion H; subst. eexists. split; [reflexivity|]. simpl. eauto.
      * exists n. split; [exact H | apply inode_kept_refl].
    + intros k' H. cbn [w_fs]. rewrite lookup_store.
      destruct (key_eqb k k') eqn:E; [|now left].
      apply key_eqb_eq in E. subst k'. congruence.
Qed.

Lemma write_attachment_objects_kept (attachment : str * str * bytes)
    (outdir : option str) (safety : str) :
  safety <> lit "low" ->
  steps_in objects_kept _ (write_attachment attachment outdir safety).
Proof.
  intros Hs w r w' H.
  apply write_attachment_outcome in H
    as [_ [[text ->] | (k & _ & [[Hn ->] | (Hlow & _)])]].
  - apply objects_kept_print.
  - split; [|apply stream_grows_fs]. intros k' n H. cbn [w_fs].
    rewrite lookup_store. destruct (key_eqb k k') eqn:E; [|exact H].
    apply key_eqb_eq in E. subst k'. congruence.
  - contradiction.
Qed.

(** X14: [write_attachment] changes the object its target resolves to and
    nothing else of the file system; it does not change the working
    directory, prints at most one line, and never raises. *)
Theorem write_attachment_touches_the_target_only :
  forall (attachment : str * str * bytes) (outdir : option str)
         (safety : str) (w : world) r w',
    write_attachment attachment outdir safety w = (r, w') ->
    r = Ok tt
    /\ w_cwd w' = w_cwd w
    /\ (w_stderr w' = w_stderr w
        \/ exists text, w_stderr w' = w_stderr w ++ [text])
    /\ forall k,
         resolve w (outpath attachment outdir) <> Ok k ->
         lookup (w_fs w') k = lookup (w_fs w) k.
Proof.
  intros attachment outdir safety w r w' H.
  apply write_attachment_outcome in H
    as [-> [[text ->]
           | (k & Hk & [[Hn ->] | (_ & rd & old & Ho & ->)])]];
    (split; [reflexivity|]); (split; [reflexivity|]);
    cbn [w_fs w_stderr printed]; (split; [eauto|]);
    intros k' Hk'; try reflexivity;
    rewrite lookup_store;
    (destruct (key_eqb k k') eqn:E; [|reflexivity]);
    apply key_eqb_eq in E; congruence.
Qed.

Section Kept.

Variable str_lower : str -> str.
Variable decode_text : bytes -> str + str.

(** X15: the program removes nothing and makes no directory: after a run,
    whatever its outcome, every object that was there is there, a
    directory and a file that cannot be written are as they were, every
    new object is a regular file, the working directory is the same, and
    the diagnostic stream has only grown. *)
Theorem main_writes_files_only :
  forall (args : arguments) (w : world) r w',
    main str_lower decode_text args w = (r, w') ->
    (forall k n,
       lookup (w_fs w) k = Some n ->
       exists n', lookup (w_fs w') k = Some n' /\ inode_kept n n')
    /\ (forall k,
          lookup (w_fs w) k = None ->
          lookup (w_fs w') k = None
          \/ exists data,
               lookup (w_fs w') k = Some (RegularFile true true data))
    /\ w_cwd w' = w_cwd w
    /\ exists l, w_stderr w' = w_stderr w ++ l.
Proof.
  intros [path outdir safety] w r w' H.
  apply (main_steps str_lower decode_text files_only files_only_refl
           files_only_trans files_only_print outdir safety
           (fun a => write_attachment_files_only a outdir safety))
    in H as (K & N & S & L).
  auto.
Qed.

(** X16: with a safety other than [low] the program changes nothing that
    exists: after a run every object that was there is there, with the
    content and the permissions it had. *)
Theorem main_keeps_what_exists :
  forall (args : arguments) (w : world) r w',
    args_safety args <> lit "low" ->
    main str_lower decode_text args w = (r, w') ->
    forall k n, lookup (w_fs w) k = Some n -> lookup (w_fs w') k = Some n.
Proof.
  intros [path outdir safety] w r w' Hs H. cbn [args_safety] in Hs.
  apply (main_steps str_lower decode_text objects_kept objects_kept_refl
           objects_kept_trans objects_kept_print outdir safety
           (fun a => write_attachment_objects_kept a outdir safety Hs))
    in H as [K _].
  exact K.
Qed.

(** X17: when [main] does not return, because an exception escapes it
    or it calls [exit], no attachment was written: the file system and the
    working directory are as they were when it began. *)
Theorem failed_main_writes_nothing :
  forall (args : arguments) (w w' : world) (e : exn),
    main str_lower decode_text args w = (Raise e, w') ->
    w_fs w' = w_fs w /\ w_cwd w' = w_cwd w.
Proof.
  intros [path outdir safety] w w' e. rewrite main_eq.
  cbn [args_path args_outdir args_safety]. unfold bind.
  rewrite yield_xml_files_eq. cbv zeta.
  destruct (os_listdir (os_path_abspath (w_cwd w) path) w) as [r0 w0] eqn:E.
  pose proof E as E'. apply os_listdir_world in E' as [-> He].
  assert (forall files,
            Forall (@returns _) files ->
            for_each files (main_body str_lower outdir safety) w
            <> (Raise e, w')) as Hloop.
  { intros files Hr H.
    destruct (main_loop_returns str_lower outdir safety files Hr w)
      as ([] & w2 & E2).
    rewrite E2 in H. discriminate. }
  destruct r0 as [names | [cls msg | code]].
  - intros H. exfalso. revert H. apply Hloop. apply Forall_forall.
    intros next Hin. apply in_map_iff in Hin as (i & <- & _).
    apply xml_candidate_returns.
  - destruct cls; intros H;
      try (injection H as _ <-; split; reflexivity).
    exfalso. revert H. apply Hloop. repeat constructor.
    apply read_xml_file_returns.
  - destruct He as (cls & msg & He). discriminate.
Qed.

End Kept.


(* ================================================================== *)
(** * Where the steps of the decoder come from *)

Lemma decode_block_event (str_lower : str -> str) (idx : nat)
    (path attachment : str) (ev : event) :
  In ev (decode_block str_lower idx (path, attachment)) ->
  match ev with
  | Yield (d, f, b) =>
      d = fst (os_path_split path)
      /\ f = attachment_name idx path attachment ++ lit "."
               ++ attachment_ext str_lower attachment b
      /\ decode_payload attachment = Ok b /\ b <> []
  | Print text =>
      exists ex,
        decode_payload attachment = Raise ex
        /\ text = error_line (attachment_name idx path attachment)
                    (snd (os_path_split path)) ex
  end.
Proof.
  rewrite decode_block_eq.
  destruct (decode_payload attachment) as [payload|ex].
  - destruct (str_eqb payload []) eqn:E; [intros []|].
    intros [<- | []]. apply str_eqb_neq in E. auto.
  - intros [<- | []]. eauto.
Qed.

Lemma decode_block_length (str_lower : str -> str) (idx : nat)
    (item : str * str) :
  length (decode_block str_lower idx item) <= 1.
Proof.
  destruct item as [path attachment]. rewrite decode_block_eq.
  destruct (decode_payload attachment) as [payload|ex]; [|simpl; lia].
  destruct (str_eqb payload []); simpl; lia.
Qed.

Lemma decode_from_event (str_lower : str -> str) (ev : event) :
  forall attachments idx,
    In ev (decode_from str_lower idx attachments) ->
    exists i path attachment,
      nth_error attachments i = Some (path, attachment)
      /\ In ev (decode_block str_lower (idx + i) (path, attachment)).
Proof.
  induction attachments as [|[path attachment] rest IH]; intros idx H;
    [destruct H|].
  rewrite decode_from_cons in H. apply in_app_or in H as [H | H].
  - exists 0, path, attachment. rewrite Nat.add_0_r. auto.
  - apply IH in H as (i & p & a & Hn & H).
    exists (S i), p, a. split; [exact Hn|].
    now replace (idx + S i) with (S idx + i) by lia.
Qed.

Lemma decode_from_length (str_lower : str -> str) :
  forall attachments idx,
    length (decode_from str_lower idx attachments) <= length attachments.
Proof.
  induction attachments as [|item rest IH]; intros idx; [simpl; lia|].
  rewrite decode_from_cons, length_app.
  pose proof (decode_block_length str_lower idx item).
  specialize (IH (S idx)). cbn [length]. lia.
Qed.

(** X18: the generator gives at most one step for each block, and every
    step has its block: a yielded tuple holds the directory of the block's
    document, the name and the extension found for the block at its
    position, and the bytes its payload decodes to, which are not empty; a
    diagnostic line is the error line of a block whose payload fails. *)
Theorem generator_steps_have_their_blocks :
  forall (str_lower : str -> str) (attachments : list (str * str)),
    length (yield_decoded_attachment str_lower attachments)
    <= length attachments
    /\ forall ev,
         In ev (yield_decoded_attachment str_lower attachments) ->
         exists i path attachment,
           nth_error attachments i = Some (path, attachment)
           /\ match ev with
              | Yield (d, f, b) =>
                  d = fst (os_path_split path)
                  /\ f = attachment_name i path attachment ++ lit "."
                           ++ attachment_ext str_lower attachment b
                  /\ decode_payload attachment = Ok b /\ b <> []
              | Print text =>
                  exists ex,
                    decode_payload attachment = Raise ex
                    /\ text = error_line (attachment_name i path attachment)
                                (snd (os_path_split path)) ex
              end.
Proof.
  intros str_lower attachments. split; [apply decode_from_length|].
  intros ev H. apply decode_from_event in H as (i & path & a & Hn & H).
  exists i, path, a. split; [exact Hn|].
  now apply decode_block_event in H.
Qed.

(* ================================================================== *)
(** * The paths of the documents *)

Section DocumentPaths.

Variable decode_text : bytes -> str + str.

Lemma read_xml_file_path (path_ : str) (w : world) file w' :
  read_xml_file decode_text path_ w = (Ok (Some file), w') ->
  fst file = path_.
Proof.
  destruct (read_xml_file_outcome decode_text path_ w)
    as [(text & _ & E) | (ex & _ & E)]; rewrite E; intros H;
    inversion H; subst; reflexivity.
Qed.

Lemma xml_candidate_path (path i : str) (w : world) file w' :
  xml_candidate decode_text path i w = (Ok (Some file), w') ->
  fst file = os_path_join path i.
Proof.
  unfold xml_candidate, bind.
  destruct (os_path_isfile_returns (os_path_join path i) w) as [b ->].
  destruct (b && endswith i (lit ".xml")); [|discriminate].
  apply read_xml_file_path.
Qed.

Lemma os_path_join_absolute (p i : str) :
  startswith [sep] p = true -> startswith [sep] (os_path_join p i) = true.
Proof.
  intros Hp. unfold os_path_join.
  destruct (startswith [sep] i) eqn:E; [exact E|].
  destruct p as [|x p]; [discriminate|].
  now destruct (str_eqb (x :: p) [] || endswith (x :: p) [sep]).
Qed.

(** X19: the paths the enumerator yields are absolute, as its docstring
    says, when the working directory is. *)
Theorem yielded_paths_are_absolute :
  forall (path : str) (w : world) files w',
    startswith [sep] (w_cwd w) = true ->
    yield_xml_files decode_text path w = (Ok files, w') ->
    forall next w1 file w2,
      In next files ->
      next w1 = (Ok (Some file), w2) ->
      startswith [sep] (fst file) = true.
Proof.
  intros path w files w' Hcwd H next w1 file w2 Hin Hn.
  pose proof (os_path_abspath_absolute (w_cwd w) path Hcwd) as Hp.
  rewrite yield_xml_files_eq in H. cbv zeta in H.
  destruct (os_listdir (os_path_abspath (w_cwd w) path) w)
    as [[names|[[]|]] w0]; inversion H; subst.
  - apply in_map_iff in Hin as (i & <- & _).
    apply xml_candidate_path in Hn. rewrite Hn.
    now apply os_path_join_absolute.
  - destruct Hin as [<- | []]. apply read_xml_file_path in Hn.
    now rewrite Hn.
Qed.

(** X20: the attachments of a document found in the input directory are
    yielded with that directory: [os.path.split] in the decoder undoes the
    [os.path.join] of the enumerator, so that without an output directory
    the files are written beside the document. *)
Theorem attachments_go_beside_the_document :
  forall (str_lower : str -> str) (cwd path i : str) (w1 : world)
         file w2 d f b,
    let p := os_path_abspath cwd path in
    ~ In sep i ->
    xml_candidate decode_text p i w1 = (Ok (Some file), w2) ->
    In (Yield (d, f, b))
       (yield_decoded_attachment str_lower (list_attachments file)) ->
    os_path_split (fst file) = (p, i)
    /\ d = p
    /\ outpath (d, f, b) None = os_path_join p f.
Proof.
  intros str_lower cwd path i w1 file w2 d f b p Hi Hc Hy.
  apply xml_candidate_path in Hc.
  assert (os_path_split (fst file) = (p, i)) as Hs
    by (rewrite Hc; now apply document_path_splits_back).
  split; [exact Hs|].
  apply decode_from_event in Hy as (n & path' & a & Hn & Hy).
  apply decode_block_event in Hy as (-> & _).
  apply nth_error_In in Hn. destruct file as [fpath xml].
  unfold list_attachments in Hn. apply in_map_iff in Hn as (x & E & _).
  inversion E; subst. cbn [fst] in Hs. rewrite Hs. auto.
Qed.

End DocumentPaths.


(* ================================================================== *)
(** * Names that are paths, and names that collide *)

Lemma startswith_app_l (p a b : str) :
  startswith p a = true -> startswith p (a ++ b) = true.
Proof.
  revert a. induction p as [|x p IH]; intros a H; [reflexivity|].
  destruct a as [|y a]; [discriminate|]. cbn [app startswith] in *.
  apply andb_prop in H as [Hx H]. now rewrite Hx, IH.
Qed.

(** X21: a name tag that holds an absolute path takes the attachment out of
    every directory: the file name the decoder yields begins with the
    name, and the writer's target is that file name itself, whatever the
    directory of the document and the output directory are. *)
Theorem absolute_name_leaves_the_directory :
  forall (str_lower : str -> str) (idx : nat) (path attachment : str)
         (m : Match) (payload : bytes) (outdir : option str),
    re_search (regex nome) attachment = Some m ->
    startswith [sep] (group1 m) = true ->
    decode_payload attachment = Ok payload ->
    payload <> [] ->
    exists f,
      decode_block str_lower idx (path, attachment)
      = [Yield (fst (os_path_split path), f, payload)]
      /\ f = group1 m ++ lit "."
               ++ attachment_ext str_lower attachment payload
      /\ outpath (fst (os_path_split path), f, payload) outdir = f.
Proof.
  intros str_lower idx path attachment m payload outdir Hm Hs Hd Hne.
  assert (attachment_name idx path attachment = group1 m) as Hname
    by (unfold attachment_name; now rewrite Hm).
  eexists. split; [|split; [reflexivity|]].
  - rewrite decode_block_eq, Hd, Hname.
    apply str_eqb_neq in Hne. now rewrite Hne.
  - unfold outpath, os_path_join.
    rewrite (startswith_app_l _ _ _ Hs). now destruct (truthy outdir).
Qed.

(** after a write that printed nothing the target is a file that can be
    written *)
Lemma written_target (attachment : str * str * bytes)
    (outdir : option str) (safety : str) (w w' : world) :
  write_attachment attachment outdir safety w = (Ok tt, w') ->
  w_stderr w' = w_stderr w ->
  path_exists w' (outpath attachment outdir) = true
  /\ writable_file w' (outpath attachment outdir) = true
  /\ file_content w' (outpath attachment outdir) = Some (snd attachment).
Proof.
  intros H Hs. rewrite write_attachment_eq in H.
  destruct (open_write (outpath attachment outdir) (write_mode safety)
              (snd attachment) w) as [[[]|ex] w1] eqn:E.
  - inversion H; subst w1.
    apply open_write_ok in E as (k & r & Hr & Hd & ->).
    pose proof (resolve_keeps w _ _ k
                  (store_file_keeps _ _
                     (RegularFile r true (snd attachment)) Hd) Hr) as Hr'.
    unfold path_exists, writable_file, file_content.
    rewrite Hr'. cbn [w_fs]. rewrite lookup_store_same. auto.
  - inversion H; subst w'. exfalso.
    apply (f_equal (@length str)) in Hs. unfold printed in Hs.
    cbn [w_stderr] in Hs. rewrite length_app in Hs. simpl in Hs. lia.
Qed.

(** X22: two attachments with the same target: after the first was written,
    a second write with a safety other than [low] prints [File exists]
    and keeps the bytes of the first; with [low] the bytes of the second
    replace them and nothing is printed. *)
Theorem same_target_first_or_last_wins :
  forall (first second : str * str * bytes) (outdir : option str)
         (safety : str) (w w1 : world),
    outpath second outdir = outpath first outdir ->
    write_attachment first outdir safety w = (Ok tt, w1) ->
    w_stderr w1 = w_stderr w ->
    let target := outpath first outdir in
    (safety <> lit "low" ->
     write_attachment second outdir safety w1
     = (Ok tt, printed w1 (exn_str (EEXIST target)))
     /\ file_content (printed w1 (exn_str (EEXIST target))) target
        = Some (snd first))
    /\ (safety = lit "low" ->
        exists w2,
          write_attachment second outdir safety w1 = (Ok tt, w2)
          /\ file_content w2 target = Some (snd second)
          /\ w_stderr w2 = w_stderr w1).
Proof.
  intros first second outdir safety w w1 Ht H1 Hs target.
  destruct (written_target _ _ _ _ _ H1 Hs) as (He & Hw & Hc).
  fold target in He, Hw, Hc.
  split; intros Hsafe.
  - rewrite write_attachment_eq, Ht. fold target.
    unfold write_mode. apply str_eqb_neq in Hsafe. rewrite Hsafe.
    rewrite (open_write_exclusive _ _ _ He).
    rewrite (writable_file_plain _ _ Hw). split; [reflexivity|].
    exact Hc.
  - destruct (open_write_truncates target (snd second) w1 Hw) as [w2 E].
    exists w2. rewrite write_attachment_eq, Ht. fold target.
    unfold write_mode. apply str_eqb_eq in Hsafe. rewrite Hsafe, E.
    split; [reflexivity|]. now apply open_write_content in E.
Qed.

(* ================================================================== *)
(** * The run on one file *)

Section OneFile.

Variable str_lower : str -> str.
Variable decode_text : bytes -> str + str.

(** X23: for a path that names a regular file, whatever its name, the
    program reads that file and handles the steps of the decoder on its
    blocks, in order; when the file cannot be read or decoded it prints
    the error and ends with the status 0. *)
Theorem main_on_one_file :
  forall (args : arguments) (w : world) (k : key)
         (readable writable : bool) (data : bytes),
    let p := os_path_abspath (w_cwd w) (args_path args) in
    resolve w p = Ok k ->
    lookup (w_fs w) k = Some (RegularFile readable writable data) ->
    (forall text,
       readable = true -> decode_text data = inl text ->
       main str_lower decode_text args w
       = for_each
           (yield_decoded_attachment str_lower (list_attachments (p, text)))
           (handle_event (args_outdir args) (args_safety args)) w)
    /\ (readable = false ->
        run str_lower decode_text args w
        = (0%Z, printed w (exn_str (EACCES p))))
    /\ (forall msg,
          readable = true -> decode_text data = inr msg ->
          run str_lower decode_text args w = (0%Z, printed w msg)).
Proof.
  intros args w k readable writable data p Hk Hl.
  assert (yield_xml_files decode_text (args_path args) w
          = (Ok [read_xml_file decode_text p], w)) as Hy.
  { rewrite yield_xml_files_eq. fold p. unfold os_listdir.
    now rewrite Hk, Hl. }
  assert (main str_lower decode_text args w
          = for_each [read_xml_file decode_text p]
              (main_body str_lower (args_outdir args) (args_safety args)) w)
    as Hmain.
  { rewrite main_eq. unfold bind at 1. now rewrite Hy. }
  split; [|split].
  - intros text -> Ht. rewrite Hmain. cbn [for_each].
    unfold main_body, bind.
    unfold read_xml_file, try_except_Exception, bind, open_read.
    rewrite Hk, Hl, Ht. cbn [ret]. clear Hmain.
    destruct (for_each
                (yield_decoded_attachment str_lower
                   (list_attachments (p, text)))
                (handle_event (args_outdir args) (args_safety args)) w)
      as [[[]|e] w']; reflexivity.
  - intros ->. unfold run. rewrite Hmain. cbn [for_each].
    unfold main_body, bind.
    unfold read_xml_file, try_except_Exception, bind, open_read.
    rewrite Hk, Hl. reflexivity.
  - intros msg -> Ht. unfold run. rewrite Hmain. cbn [for_each].
    unfold main_body, bind.
    unfold read_xml_file, try_except_Exception, bind, open_read.
    rewrite Hk, Hl, Ht. reflexivity.
Qed.

End OneFile.


(* ================================================================== *)
(** * The two ways a payload that was found fails *)

Lemma base64_set_ascii (c : N) :
  in_charset base64_set c = true -> (c <? 128)%N = false ->
  Py_UNICODE_ISSPACE c = true.
Proof.
  intros H Hc. apply N.ltb_ge in Hc. unfold base64_set in H.
  cbn [in_charset existsb in_item] in H.
  change (chr "a") with 97%N in H. change (chr "z") with 122%N in H.
  change (chr "A") with 65%N in H. change (chr "Z") with 90%N in H.
  change (chr "0") with 48%N in H. change (chr "9") with 57%N in H.
  change (chr "+") with 43%N in H. change (chr "/") with 47%N in H.
  change (chr "=") with 61%N in H.
  rewrite orb_false_r in H.
  do 6 (apply orb_prop in H as [H | H];
        [try (apply andb_prop in H as [_ H]; apply N.leb_le in H; lia);
         try (apply N.eqb_eq in H; lia)|]).
  exact H.
Qed.

Lemma not_ascii_witness (s : str) :
  is_ascii s = false -> exists c, In c s /\ (c <? 128)%N = false.
Proof.
  induction s as [|x s IH]; [discriminate|].
  unfold is_ascii. cbn [forallb]. intros H.
  apply andb_false_iff in H as [H | H].
  - exists x. split; [now left | exact H].
  - destruct (IH H) as (c & Hin & Hc). exists c. split; [now right|].
    exact Hc.
Qed.

(** X24: a payload that was found fails to decode in two ways only: with a
    [ValueError] when it holds a character outside ASCII, which is then a
    white-space character the pattern let pass, and else with a
    [binascii.Error]. *)
Theorem found_payload_fails_in_two_ways :
  forall (attachment : str) (m : Match) (ex : exn),
    re_search (regex allegato) attachment = Some m ->
    decode_payload attachment = Raise ex ->
    (is_ascii (group1 m) = false
     /\ ex = Exception ValueError
               (lit "string argument should contain only ASCII characters")
     /\ exists c, In c (group1 m) /\ (128 <= c)%N
                  /\ Py_UNICODE_ISSPACE c = true)
    \/ (is_ascii (group1 m) = true
        /\ exists msg, ex = Exception binascii_Error msg).
Proof.
  intros attachment m ex Hm Hd.
  rewrite (decode_payload_present _ _ Hm) in Hd.
  apply allegato_search_sound in Hm as [Hset _].
  unfold b64decode in Hd. fold (is_ascii (group1 m)) in Hd.
  destruct (is_ascii (group1 m)) eqn:Ha.
  - right. split; [reflexivity|]. unfold a2b_base64 in Hd.
    destruct (a2b_loop (group1 m) 0 0 0 []) as [lb bin].
    destruct (lb =? 0)%N; inversion Hd. eexists. reflexivity.
  - left. split; [reflexivity|]. split; [now inversion Hd|].
    destruct (not_ascii_witness _ Ha) as (c & Hin & Hc).
    exists c. split; [exact Hin|]. split; [apply N.ltb_ge in Hc; lia|].
    rewrite forallb_forall in Hset. now apply base64_set_ascii; auto.
Qed.

(* ================================================================== *)
(** * The diagnostic of a missing path *)

Lemma walk_not_found (fs : filesystem) (path : str) msg :
  forall comps cur,
    walk fs path cur comps = Raise (Exception FileNotFoundError msg) ->
    msg = exn_str (ENOENT path).
Proof.
  induction comps as [|c comps IH]; intros cur; cbn [walk]; [discriminate|].
  destruct (lookup fs (rev cur)) as [[? ? ?|? ?]|].
  - unfold ENOTDIR, OSError. discriminate.
  - destruct (str_eqb c [] || str_eqb c dot); [apply IH|].
    destruct (str_eqb c dotdot); [apply IH|].
    destruct (NAME_MAX <? fs_length c)%N; [|apply IH].
    unfold ENAMETOOLONG, OSError. discriminate.
  - unfold ENOENT, OSError. intros H. injection H as <-. reflexivity.
Qed.

Lemma check_path_not_found (path : str) msg :
  check_path path = Some (Exception FileNotFoundError msg) ->
  msg = exn_str (ENOENT path).
Proof.
  unfold check_path, encode_error.
  destruct (encode_stop 0 path) as [[[i c] j]|]; [discriminate|].
  destruct (existsb (N.eqb 0) path); [discriminate|].
  destruct (str_eqb path []).
  - unfold ENOENT, OSError. intros H. injection H as <-. reflexivity.
  - destruct (PATH_MAX <=? fs_length path)%N; [|discriminate].
    unfold ENAMETOOLONG, OSError. discriminate.
Qed.

Lemma os_listdir_not_found (path : str) (w : world) msg w' :
  os_listdir path w = (Raise (Exception FileNotFoundError msg), w') ->
  msg = exn_str (ENOENT path).
Proof.
  unfold os_listdir. destruct (resolve w path) as [k|e] eqn:Er.
  - destruct (lookup (w_fs w) k) as [[? ? ?|[|] ?]|];
      unfold ENOTDIR, EACCES, ENOENT, OSError;
      intros H; inversion H. reflexivity.
  - intros H. inversion H; subst. unfold resolve in Er.
    destruct (check_path path) as [e|] eqn:Ec.
    + injection Er as ->. now apply check_path_not_found.
    + now apply walk_not_found in Er.
Qed.

Section MissingPath.

Variable str_lower : str -> str.
Variable decode_text : bytes -> str + str.

(** X25: when the input path is reported as not found, the one line the
    program prints before it ends with the status 1 names the absolute,
    normal form of the path. *)
Theorem missing_path_is_named :
  forall (args : arguments) (w : world) (msg : str),
    let p := os_path_abspath (w_cwd w) (args_path args) in
    repr_plain p = true ->
    os_listdir p w = (Raise (Exception FileNotFoundError msg), w) ->
    msg = lit "[Errno 2] No such file or directory: '" ++ p ++ lit "'"
    /\ run str_lower decode_text args w
       = (1%Z,
          printed w
            (lit "[Errno 2] No such file or directory: '" ++ p ++ lit "'")).
Proof.
  intros args w msg p _ Hl.
  pose proof (os_listdir_not_found _ _ _ _ Hl) as Hm.
  assert (msg = lit "[Errno 2] No such file or directory: '" ++ p
                  ++ lit "'") as E by (rewrite Hm; reflexivity).
  split; [exact E|]. rewrite <- E.
  unfold run. rewrite main_eq. unfold bind.
  rewrite yield_xml_files_eq. cbv zeta. fold p. rewrite Hl. reflexivity.
Qed.

End MissingPath.


(* ================================================================== *)
(** * A block as it is written *)

Section LazyBounded.

Variable A : Type.
Variable p : N -> bool.
Variable k : str -> option A.

(** a lazy repeat with bounds stops at the first run, of a length within
    the bounds, after which the rest matches *)
Lemma rep_lazy_first_bounded :
  forall c t r lo hi,
    forallb p c = true -> lo <= length c <= hi ->
    (forall a b, c = a ++ b -> b <> [] -> lo <= length a ->
                 k (b ++ t) = None) ->
    k t = Some r ->
    rep p false lo (Some hi) (c ++ t) k = Some r.
Proof.
  induction c as [|x c IH]; intros t r lo hi Hc Hlen Hfail Hk.
  - simpl in Hlen. assert (lo = 0) as -> by lia.
    destruct t as [|y t]; cbn [app rep]; [exact Hk|].
    destruct (room (Some hi) && p y); now rewrite Hk.
  - cbn [forallb] in Hc. apply andb_prop in Hc as [Hx Hc].
    cbn [length] in Hlen.
    destruct hi as [|hi]; [lia|].
    assert (forall lo', lo' <= length c ->
              (forall a b, c = a ++ b -> b <> [] -> lo' <= length a ->
                           k (b ++ t) = None) ->
              rep p false lo' (Some hi) (c ++ t) k = Some r) as Hrec.
    { intros lo' Hlo' Hf. apply IH; auto. lia. }
    destruct lo as [|lo]; cbn [app rep room option_map pred andb];
      rewrite Hx.
    + assert (k (x :: c ++ t) = None) as ->
        by (apply (Hfail [] (x :: c)); [reflexivity | discriminate | simpl; lia]).
      apply Hrec; [lia|]. intros a b -> Hb _.
      apply (Hfail (x :: a) b); auto. lia.
    + apply Hrec; [lia|]. intros a b -> Hb Ha.
      apply (Hfail (x :: a) b); auto. simpl. lia.
Qed.

End LazyBounded.

(** white space before a character that is not white space takes
    nothing *)
Lemma match_ws_none (r : pattern) (ms : marks) (c : N) (s : str) :
  Py_UNICODE_ISSPACE c = false ->
  match_here (ws :: r) ms (c :: s) = match_here r ms (c :: s).
Proof. intros Hc. rewrite match_here_ws. simpl. now rewrite Hc. Qed.

Lemma lstrip_split (b : str) :
  exists w, b = w ++ lstrip b /\ all_space w = true.
Proof.
  induction b as [|x b IH]; [exists []; auto|].
  simpl. destruct (Py_UNICODE_ISSPACE x) eqn:E.
  - destruct IH as (w & Hb & Hw). exists (x :: w). simpl.
    rewrite E, Hw. split; [now f_equal | reflexivity].
  - exists []. auto.
Qed.

Lemma lstrip_head (b : str) :
  match lstrip b with c :: _ => Py_UNICODE_ISSPACE c = false | [] => True end.
Proof.
  induction b as [|x b IH]; [exact I|]. simpl.
  destruct (Py_UNICODE_ISSPACE x) eqn:E; [exact IH | exact E].
Qed.

Lemma all_space_last (b : str) (c : N) :
  b <> [] -> all_space b = true -> Py_UNICODE_ISSPACE (last b c) = true.
Proof.
  intros Hb H. destruct (exists_last Hb) as (z & x & ->).
  rewrite last_last. unfold all_space in H. rewrite forallb_app in H.
  apply andb_prop in H as [_ H]. simpl in H. now rewrite andb_true_r in H.
Qed.

Lemma last_suffix (a b : str) (c : N) :
  b <> [] -> last (a ++ b) c = last b c.
Proof.
  intros Hb. destruct (exists_last Hb) as (z & x & ->).
  now rewrite app_assoc, !last_last.
Qed.

Lemma last_default (l : str) (c d : N) : l <> [] -> last l c = last l d.
Proof.
  intros Hl. destruct (exists_last Hl) as (z & x & ->).
  now rewrite !last_last.
Qed.

Lemma field_text_inv (hi : nat) (g : str) :
  field_text hi g = true ->
  1 <= length g <= hi
  /\ forallb (in_charset (Dot false)) g = true
  /\ ~ In (chr "<") g
  /\ exists c g', g = c :: g' /\ Py_UNICODE_ISSPACE c = false
                  /\ Py_UNICODE_ISSPACE (last g c) = false.
Proof.
  unfold field_text. intros H.
  apply andb_prop in H as [H Hend]. apply andb_prop in H as [H Hall].
  apply andb_prop in H as [Hlo Hhi].
  apply Nat.leb_le in Hlo. apply Nat.leb_le in Hhi.
  apply negb_true_iff in Hend. rewrite forallb_forall in Hall.
  split; [lia|]. split; [|split].
  - apply forallb_forall. intros x Hx. apply Hall in Hx.
    apply andb_prop in Hx as [Hx _]. exact Hx.
  - intros Hin. apply Hall in Hin. discriminate.
  - destruct g as [|c g']; [simpl in Hlo; lia|].
    unfold space_at_end in Hend. apply orb_false_elim in Hend as [H1 H2].
    exists c, g'. auto.
Qed.

(** the rest of a field pattern fails inside the text of the field *)
Lemma field_rest_fails (name g : str) (ms : marks) (a b after : str) :
  ~ In (chr "<") g ->
  (forall c, Py_UNICODE_ISSPACE (last g c) = false) ->
  g = a ++ b -> b <> [] ->
  match_here (ws :: close_tag name) ms (b ++ after) = None.
Proof.
  intros Hlt Hlast E Hb.
  destruct (lstrip_split b) as (w & Ew & Hw).
  pose proof (lstrip_head b) as Hh.
  destruct (lstrip b) as [|d b'] eqn:El.
  - exfalso. rewrite app_nil_r in Ew. subst w.
    specialize (Hlast 0%N). rewrite E, (last_suffix a b 0%N Hb) in Hlast.
    now rewrite (all_space_last b 0%N Hb Hw) in Hlast.
  - rewrite Ew, <- app_assoc. cbn [app].
    rewrite match_here_ws, rep_greedy_run; auto.
    + rewrite <- (app_nil_r (close_tag name)).
      apply close_tag_needs_lt. intros ->. apply Hlt.
      rewrite E, Ew. apply in_or_app. right. apply in_elt.
    + intros x t Hx. rewrite <- (app_nil_r (close_tag name)).
      apply close_tag_needs_lt. intros ->. discriminate.
Qed.

(** a field pattern on the element of the field *)
Lemma match_field (name : str) (hi : nat) (g rest : str) :
  tag_name name = true -> field_text hi g = true ->
  let after := close_text name [] [] [] ++ rest in
  match_here
    (open_tag name
       ++ ws :: group (Repeat 1 (Some hi) false (Dot false))
       ++ ws :: close_tag name) [] (tagged name g ++ rest)
  = Some ([(1, after); (0, g ++ after)], rest).
Proof.
  intros Hn Hg after.
  apply field_text_inv in Hg
    as (Hlen & Hdot & Hlt & c & g' & Eg & Hc & Hlast).
  unfold tagged. rewrite <- !app_assoc. fold after.
  rewrite match_open_tag by auto.
  rewrite Eg at 1. cbn [app]. rewrite match_ws_none by exact Hc.
  change (c :: g' ++ after) with ((c :: g') ++ after). rewrite <- Eg.
  rewrite group_app, match_mark, match_repeat.
  apply rep_lazy_first_bounded; auto.
  - intros a b E Hb _. rewrite match_mark.
    apply (field_rest_fails name g _ a b after); auto.
    intros x. rewrite (last_default g x c); [exact Hlast|].
    rewrite Eg. discriminate.
  - rewrite match_mark. unfold after.
    rewrite close_text_tail, <- app_comm_cons, match_ws_none by reflexivity.
    rewrite app_comm_cons, <- close_text_tail.
    rewrite <- (app_nil_r (close_tag name)).
    now rewrite match_close_tag.
Qed.

(* ------------------------------------------------------------------ *)
(** ** The tags of other names *)

Lemma opens_needs_lt (name : str) (c : N) (s : str) :
  c <> chr "<" -> opens name (c :: s) = false.
Proof.
  intros Hc. unfold opens. apply N.eqb_neq in Hc. now rewrite Hc.
Qed.

Lemma anywhere_opens_no_lt (name t rest : str) :
  ~ In (chr "<") t ->
  anywhere (opens name) (t ++ rest) = anywhere (opens name) rest.
Proof.
  induction t as [|c t IH]; intros Ht; [reflexivity|].
  cbn [app anywhere]. rewrite opens_needs_lt.
  - apply IH. intros H. apply Ht. now right.
  - intros ->. apply Ht. now left.
Qed.

(** no opening tag of a name is read at a tag that begins with another
    character *)
Lemma opens_other (x y : N) (name s : str) :
  x <> y -> Py_UNICODE_ISSPACE y = false ->
  opens (x :: name) (chr "<" :: y :: s) = false.
Proof.
  intros Hxy Hy. unfold opens. rewrite N.eqb_refl. cbn [andb].
  rewrite lstrip_here by exact Hy. cbn [startswith].
  apply N.eqb_neq in Hxy. now rewrite Hxy.
Qed.

Lemma anywhere_opens_other (x y : N) (name other content rest : str) :
  x <> y -> x <> chr "/" -> tag_name (y :: other) = true ->
  ~ In (chr "<") content ->
  anywhere (opens (x :: name)) (tagged (y :: other) content ++ rest)
  = anywhere (opens (x :: name)) rest.
Proof.
  intros Hxy Hx Hn Hc.
  assert (Py_UNICODE_ISSPACE y = false) as Hy.
  { pose proof Hn as Hp. cbn [tag_name forallb] in Hp.
    apply andb_prop in Hp as [Hp _]. now apply plain_not_space. }
  assert (tagged (y :: other) content ++ rest
          = chr "<" :: y :: (other ++ [chr ">"] ++ content)
              ++ chr "<" :: chr "/" :: ((y :: other) ++ [chr ">"]) ++ rest)
    as -> by (unfold tagged, open_text, close_text; now list_norm).
  cbn [anywhere]. rewrite opens_other by assumption. cbn [orb].
  rewrite opens_needs_lt
    by (intros E; apply (tag_name_no_lt _ Hn); now left).
  cbn [orb]. rewrite anywhere_opens_no_lt.
  - cbn [anywhere]. rewrite opens_other by (auto; reflexivity).
    cbn [orb]. rewrite opens_needs_lt by discriminate. cbn [orb].
    apply anywhere_opens_no_lt. intros Hin.
    apply in_app_or in Hin as [Hin | [Hin | []]]; [|discriminate].
    now apply (tag_name_no_lt _ Hn).
  - intros Hin. apply in_app_or in Hin as [Hin | Hin].
    + apply (tag_name_no_lt _ Hn). now right.
    + destruct Hin as [Hin | Hin]; [discriminate | tauto].
Qed.

Lemma format_tag_after_name (content rest : str) :
  ~ In (chr "<") content ->
  anywhere (opens (lit "FormatoAttachment"))
    (tagged (lit "NomeAttachment") content ++ rest)
  = anywhere (opens (lit "FormatoAttachment")) rest.
Proof.
  intros H.
  apply (anywhere_opens_other (chr "F") (chr "N") (lit "ormatoAttachment")
           (lit "omeAttachment") content rest); auto; discriminate.
Qed.

Lemma payload_tag_after_name (content rest : str) :
  ~ In (chr "<") content ->
  anywhere (opens (lit "Attachment"))
    (tagged (lit "NomeAttachment") content ++ rest)
  = anywhere (opens (lit "Attachment")) rest.
Proof.
  intros H.
  apply (anywhere_opens_other (chr "A") (chr "N") (lit "ttachment")
           (lit "omeAttachment") content rest); auto; discriminate.
Qed.

Lemma payload_tag_after_format (content rest : str) :
  ~ In (chr "<") content ->
  anywhere (opens (lit "Attachment"))
    (tagged (lit "FormatoAttachment") content ++ rest)
  = anywhere (opens (lit "Attachment")) rest.
Proof.
  intros H.
  apply (anywhere_opens_other (chr "A") (chr "F") (lit "ttachment")
           (lit "ormatoAttachment") content rest); auto; discriminate.
Qed.

Lemma begins_tagged (name content rest : str) :
  begins_with_lt (tagged name content ++ rest).
Proof. right. unfold tagged, open_text. cbn [app]. eauto. Qed.

(** a field pattern finds the element of the field after a text in which
    no opening tag of the field begins *)
Lemma search_field (name : str) (hi : nat) (t g rest : str) :
  tag_name name = true -> anywhere (opens name) t = false ->
  field_text hi g = true ->
  let after := close_text name [] [] [] ++ rest in
  re_search
    (open_tag name
       ++ ws :: group (Repeat 1 (Some hi) false (Dot false))
       ++ ws :: close_tag name) (t ++ tagged name g ++ rest)
  = Some (mkMatch (tagged name g ++ rest) [(1, after); (0, g ++ after)] rest).
Proof.
  intros Hn Ht Hg after.
  rewrite search_skip_no_tag by auto using begins_tagged.
  apply search_here. unfold re_match.
  now rewrite (match_field name hi g rest Hn Hg).
Qed.

Lemma base64_set_no_lt (content : str) :
  forallb (in_charset base64_set) content = true ->
  forallb payload_char content = true /\ ~ In (chr "<") content.
Proof.
  intros H. rewrite forallb_forall in H. split.
  - apply forallb_forall. intros c Hc. unfold payload_char.
    rewrite (H c Hc). cbn [andb]. apply negb_true_iff, N.eqb_neq.
    intros ->. apply H in Hc. discriminate.
  - intros Hin. apply H in Hin. discriminate.
Qed.

(** the payload pattern finds the payload tag after a text in which no
    opening tag of it begins *)
Lemma search_payload (t content rest : str) :
  anywhere (opens (lit "Attachment")) t = false ->
  forallb (in_charset base64_set) content = true ->
  let after := lit "</Attachment>" ++ rest in
  re_search (regex allegato) (t ++ tagged (lit "Attachment") content ++ rest)
  = Some (mkMatch (tagged (lit "Attachment") content ++ rest)
            [(1, after); (0, content ++ after)] rest).
Proof.
  intros Ht Hc after. rewrite regex_allegato_eq.
  rewrite search_skip_no_tag by (auto using begins_tagged; reflexivity).
  apply search_here. unfold re_match. rewrite <- regex_allegato_eq.
  apply base64_set_no_lt in Hc as [Hp _].
  pose proof (match_payload_tag content rest Hp) as H. cbv zeta in H.
  unfold tagged. rewrite <- !app_assoc.
  change (open_text (lit "Attachment") [] []) with (lit "<Attachment>").
  change (close_text (lit "Attachment") [] [] []) with (lit "</Attachment>").
  now rewrite H.
Qed.

Section TidyBlock.

Variables s0 name s1 fmt s2 payload s3 : str.

Hypothesis s0_space : all_space s0 = true.
Hypothesis s1_space : all_space s1 = true.
Hypothesis s2_space : all_space s2 = true.
Hypothesis name_ok : field_text 60 name = true.
Hypothesis fmt_ok : field_text 10 fmt = true.
Hypothesis payload_ok : forallb (in_charset base64_set) payload = true.

Lemma name_no_lt : ~ In (chr "<") name.
Proof. now apply field_text_inv in name_ok as (_ & _ & H & _). Qed.

Lemma fmt_no_lt : ~ In (chr "<") fmt.
Proof. now apply field_text_inv in fmt_ok as (_ & _ & H & _). Qed.

Lemma tidy_name :
  exists m, re_search (regex nome) (tidy_block s0 name s1 fmt s2 payload s3)
            = Some m /\ group1 m = name.
Proof.
  eexists. split.
  - unfold tidy_block. rewrite regex_nome_eq.
    apply (search_field (lit "NomeAttachment") 60 s0 name); auto.
    rewrite <- (app_nil_r s0), anywhere_opens_no_lt
      by now apply all_space_no_lt.
    reflexivity.
  - apply group1_element.
Qed.

Lemma tidy_format :
  exists m, re_search (regex formato) (tidy_block s0 name s1 fmt s2 payload s3)
            = Some m /\ group1 m = fmt.
Proof.
  eexists. split.
  - unfold tidy_block. rewrite regex_formato_eq.
    rewrite (app_assoc _ s1), (app_assoc s0).
    apply (search_field (lit "FormatoAttachment") 10 _ fmt); auto.
    rewrite <- ?app_assoc.
    rewrite anywhere_opens_no_lt by now apply all_space_no_lt.
    rewrite format_tag_after_name by apply name_no_lt.
    rewrite <- (app_nil_r s1), anywhere_opens_no_lt
      by now apply all_space_no_lt.
    reflexivity.
  - apply group1_element.
Qed.

Lemma tidy_payload :
  exists m, re_search (regex allegato) (tidy_block s0 name s1 fmt s2 payload s3)
            = Some m /\ group1 m = payload.
Proof.
  eexists. split.
  - unfold tidy_block.
    rewrite (app_assoc _ s2), (app_assoc s1), (app_assoc _ (s1 ++ _)),
      (app_assoc s0).
    apply (search_payload _ payload s3); auto.
    rewrite <- ?app_assoc.
    rewrite anywhere_opens_no_lt by now apply all_space_no_lt.
    rewrite payload_tag_after_name by apply name_no_lt.
    rewrite anywhere_opens_no_lt by now apply all_space_no_lt.
    rewrite payload_tag_after_format by apply fmt_no_lt.
    rewrite <- (app_nil_r s2), anywhere_opens_no_lt
      by now apply all_space_no_lt.
    reflexivity.
  - apply group1_element.
Qed.

End TidyBlock.

(** the name, the bytes and the extension the decoder takes from such a
    block *)
Lemma tidy_block_parts (str_lower : str -> str) (idx : nat) (path : str)
    (s0 name s1 fmt s2 payload s3 : str) (b : bytes) :
  all_space s0 = true -> all_space s1 = true -> all_space s2 = true ->
  field_text 60 name = true -> field_text 10 fmt = true ->
  forallb (in_charset base64_set) payload = true ->
  is_ascii payload = true ->
  is_bytes b = true ->
  filter base64_char payload = b64encode b ->
  let block := tidy_block s0 name s1 fmt s2 payload s3 in
  attachment_name idx path block = name
  /\ decode_payload block = Ok b
  /\ attachment_ext str_lower block b = extension_of str_lower fmt b.
Proof.
  intros H0 H1 H2 Hname Hfmt Hset Hascii Hb E block.
  destruct (tidy_name s0 name s1 fmt s2 payload s3 H0 Hname)
    as (mn & Hmn & Hgn).
  destruct (tidy_format s0 name s1 fmt s2 payload s3 H0 H1 Hname Hfmt)
    as (mf & Hmf & Hgf).
  destruct (tidy_payload s0 name s1 fmt s2 payload s3 H0 H1 H2 Hname Hfmt
              Hset) as (mp & Hmp & Hgp).
  unfold decode_payload, attachment_name, attachment_ext, extension_of, block.
  rewrite Hmn, Hmf, Hmp. cbn [group_1]. rewrite Hgn, Hgf, Hgp.
  rewrite <- (b64decode_filter payload Hascii), E.
  now rewrite (b64decode_b64encode b Hb).
Qed.

(** X26: a block as invoices have it, with the name, the format and the
    payload in this order, white space between them and no white space in
    the tags, gives one attachment: its bytes are the bytes the payload
    encodes, whatever line ends and blanks wrap it, its name is the text
    of the name element, and its extension [pdf] for a PDF signature, the
    format in lower case otherwise. *)
Theorem tidy_block_is_decoded :
  forall (str_lower : str -> str) (idx : nat) (path : str)
         (s0 name s1 fmt s2 payload s3 : str) (b : bytes),
    all_space s0 = true -> all_space s1 = true -> all_space s2 = true ->
    field_text 60 name = true -> field_text 10 fmt = true ->
    forallb (in_charset base64_set) payload = true ->
    is_ascii payload = true ->
    is_bytes b = true -> b <> [] ->
    filter base64_char payload = b64encode b ->
    decode_block str_lower idx
      (path, tidy_block s0 name s1 fmt s2 payload s3)
    = [Yield (fst (os_path_split path),
              name ++ lit "." ++
                (if str_eqb (firstn 5 b) (lit "%PDF-") then lit "pdf"
                 else str_lower fmt),
              b)].
Proof.
  intros str_lower idx path s0 name s1 fmt s2 payload s3 b
    H0 H1 H2 Hname Hfmt Hset Hascii Hb Hne E.
  destruct (tidy_block_parts str_lower idx path s0 name s1 fmt s2 payload
              s3 b H0 H1 H2 Hname Hfmt Hset Hascii Hb E) as (Hn & Hp & He).
  unfold decode_block. destruct (os_path_split path) as [dirname basename].
  rewrite Hn, Hp, He. apply str_eqb_neq in Hne. now rewrite Hne.
Qed.


(* ================================================================== *)
(** * The run on one document with one attachment *)

Section OneDocument.

Variable str_lower : str -> str.
Variable decode_text : bytes -> str + str.

(** the run on a regular file that can be read *)
Lemma main_reads_file (args : arguments) (w : world) (k : key)
    (writable : bool) (data : bytes) (text : str) :
  let p := os_path_abspath (w_cwd w) (args_path args) in
  resolve w p = Ok k ->
  lookup (w_fs w) k = Some (RegularFile true writable data) ->
  decode_text data = inl text ->
  main str_lower decode_text args w
  = for_each
      (yield_decoded_attachment str_lower (list_attachments (p, text)))
      (handle_event (args_outdir args) (args_safety args)) w.
Proof.
  intros p Hk Hl Ht.
  assert (yield_xml_files decode_text (args_path args) w
          = (Ok [read_xml_file decode_text p], w)) as Hy.
  { rewrite yield_xml_files_eq. fold p. unfold os_listdir.
    now rewrite Hk, Hl. }
  rewrite main_eq. unfold bind at 1. rewrite Hy. cbn [for_each].
  unfold main_body, bind.
  unfold read_xml_file, try_except_Exception, bind, open_read.
  rewrite Hk, Hl, Ht. cbn [ret].
  destruct (for_each
              (yield_decoded_attachment str_lower
                 (list_attachments (p, text)))
              (handle_event (args_outdir args) (args_safety args)) w)
    as [[[]|e] w']; reflexivity.
Qed.

(** X27: the whole run on a document that can be read and holds one
    container with a block as invoices have it: when the target, the name
    with its extension joined to the output directory or else to the
    directory of the document, can be made (it is a path the system takes
    for a new file: it can be encoded, holds no null character, no name of
    more than [NAME_MAX] bytes and no separator after its last name; it
    names nothing; its directory can be written), the program ends with
    the status 0 and prints nothing, the target holds the decoded bytes,
    and every other object of the file system is as it was. *)
Theorem well_formed_document_is_extracted :
  forall (args : arguments) (w : world) (k : key) (writable : bool)
         (data : bytes) (c : element)
         (tail s0 name s1 fmt s2 payload s3 : str) (b : bytes),
    let p := os_path_abspath (w_cwd w) (args_path args) in
    let item := (fst (os_path_split p),
                 name ++ lit "." ++ extension_of str_lower fmt b, b) in
    let target := outpath item (args_outdir args) in
    resolve w p = Ok k ->
    lookup (w_fs w) k = Some (RegularFile true writable data) ->
    decode_text data = inl (document [c] tail) ->
    container_ok c = true ->
    anywhere (opens (lit "Allegati")) tail = false ->
    e_content c = tidy_block s0 name s1 fmt s2 payload s3 ->
    all_space s0 = true -> all_space s1 = true -> all_space s2 = true ->
    field_text 60 name = true -> field_text 10 fmt = true ->
    forallb (in_charset base64_set) payload = true ->
    is_ascii payload = true ->
    is_bytes b = true -> b <> [] ->
    filter base64_char payload = b64encode b ->
    creatable w target = true ->
    exists (w' : world) (kt : key),
      run str_lower decode_text args w = (0%Z, w')
      /\ resolve w target = Ok kt
      /\ file_content w' target = Some b
      /\ w_stderr w' = w_stderr w
      /\ forall k', k' <> kt -> lookup (w_fs w') k' = lookup (w_fs w) k'.
Proof.
  intros args w k writable data c tail s0 name s1 fmt s2 payload s3 b
    p item target Hk Hl Ht Hc Htail Hblock H0 H1 H2 Hname Hfmt Hset Hascii
    Hb Hne E Hcr.
  pose proof (main_reads_file args w k writable data _ Hk Hl Ht) as Hmain.
  fold p in Hmain.
  assert (list_attachments (p, document [c] tail) = [(p, e_content c)])
    as Hlist.
  { unfold list_attachments, re_findall.
    rewrite findall_document
      by (auto; cbn [forallb]; now rewrite Hc).
    reflexivity. }
  assert (yield_decoded_attachment str_lower [(p, e_content c)]
          = [Yield item]) as Hsteps.
  { unfold yield_decoded_attachment. cbn [decode_from].
    rewrite app_nil_r, Hblock.
    destruct (tidy_block_parts str_lower 0 p s0 name s1 fmt s2 payload s3
                b H0 H1 H2 Hname Hfmt Hset Hascii Hb E) as (Hn & Hp & He).
    unfold decode_block, item.
    destruct (os_path_split p) as [dirname basename].
    rewrite Hn, Hp, He. apply str_eqb_neq in Hne. now rewrite Hne. }
  rewrite Hlist, Hsteps in Hmain. cbn [for_each handle_event] in Hmain.
  destruct (open_write_creates target (write_mode (args_safety args)) b w
              Hcr) as (kt & Hr & Hnone & Hw).
  set (w' := mkWorld (store (w_fs w) kt (RegularFile true true b))
               (w_cwd w) (w_stderr w)) in Hw.
  assert (main str_lower decode_text args w = (Ok tt, w')) as Hrun.
  { rewrite Hmain. unfold bind. rewrite write_attachment_eq.
    fold target. change (snd item) with b. now rewrite Hw. }
  exists w', kt. repeat split.
  - unfold run. now rewrite Hrun.
  - exact Hr.
  - now apply (open_write_content _ _ _ _ _ Hw).
  - intros k' Hk'. unfold w'. cbn [w_fs]. rewrite lookup_store.
    destruct (key_eqb kt k') eqn:Ek; [|reflexivity].
    apply key_eqb_eq in Ek. congruence.
Qed.

End OneDocument.


(* ================================================================== *)
(** * The statements at work on the examples *)

Lemma list_attachments_example :
  list_attachments (example_path, example_document)
  = [(example_path,
      lit "<NomeAttachment>doc</NomeAttachment><Attachment>QUJD</Attachment>");
     (example_path,
      lit "<FormatoAttachment>TXT</FormatoAttachment>" ++ newline
        ++ lit "<Attachment>JVBERi0x" ++ newline ++ lit "LjQ=</Attachment>")]
  /\ length (list_attachments (example_path, example_document)) = 2.
Proof.
  apply (list_attachments_returns_every_container example_path
           example_containers (lit "</Fattura>")); reflexivity.
Defined.

Lemma decode_error_example :
  exists ex,
    decode_payload no_payload_block = Raise ex
    /\ decode_from ascii_lower 2 [(example_path, no_payload_block)]
       = [Print (lit "Error decoding " ++ dquote ++ lit "x" ++ dquote
                 ++ lit " in " ++ dquote ++ lit "invoice.xml" ++ dquote
                 ++ lit " : " ++ exn_str ex)].
Proof.
  apply (decode_error_is_reported ascii_lower 2 example_path
           no_payload_block []).
  left. reflexivity.
Defined.

Lemma empty_payload_example :
  decode_block ascii_lower 0 (example_path, empty_payload_block) = []
  /\ decode_from ascii_lower 0 [(example_path, empty_payload_block)] = [].
Proof.
  destruct (empty_payload_is_dropped ascii_lower 0 example_path
              empty_payload_block []
              (mkMatch empty_payload_block
                 [(1, lit "</Attachment>"); (0, lit "====</Attachment>")] [])
              eq_refl eq_refl) as (H1 & H2 & _).
  exact (conj H1 H2).
Defined.

Lemma pdf_signature_example :
  exists ext,
    decode_block ascii_lower 1 (example_path, pdf_block)
    = [Yield (lit "/d", lit "invoice_allegato_2." ++ ext, lit "%PDF-1.4")]
    /\ ext = lit "pdf".
Proof.
  destruct (pdf_signature_takes_precedence ascii_lower 1 example_path
              pdf_block (lit "%PDF-1.4") eq_refl)
    as (ext & H1 & H2 & _); [discriminate|].
  exists ext. split; [exact H1 | apply H2; reflexivity].
Defined.

Lemma fallback_name_example :
  attachment_name 1 example_path pdf_block = lit "invoice_allegato_2".
Proof.
  destruct (fallback_name_uses_block_position ascii_lower
              [(example_path, no_payload_block)] [] example_path pdf_block
              eq_refl) as (H & _ & _ & E).
  exact (eq_trans H (E eq_refl eq_refl)).
Defined.

Lemma empty_name_example :
  (re_search (regex nome) (lit "<NomeAttachment></NomeAttachment>") = None
   /\ attachment_name 1 example_path
        (lit "<NomeAttachment></NomeAttachment>")
      = lit "invoice_allegato_2")
  /\ (re_search (regex nome) long_name_block = None
      /\ attachment_name 0 example_path long_name_block
         = lit "invoice_allegato_1").
Proof.
  split.
  - apply (empty_or_long_name_falls_back 1 example_path
             (mkElement [] [] [] [] [] [] []) []);
      [reflexivity | left; reflexivity].
  - apply (empty_or_long_name_falls_back 0 example_path
             (mkElement [] [] [] (lit " " ++ repeat (chr "a") 61) [] [] [])
             []);
      [reflexivity | right; vm_compute; lia].
Defined.

Lemma round_trip_example :
  b64decode (b64encode (lit "ABCD")) = Ok (lit "ABCD")
  /\ decode_payload (lit "<Attachment>QUJDRA==</Attachment>")
     = Ok (lit "ABCD")
  /\ file_content
       (snd (write_attachment (lit "/d", lit "new.bin", lit "ABCD") None
               (lit "max") example_world))
       (lit "/d/new.bin")
     = Some (lit "ABCD").
Proof.
  destruct (base64_round_trip ascii_lower (lit "ABCD") eq_refl)
    as (H1 & H2 & _ & _ & H5).
  split; [exact H1|]. split; [exact H2|].
  apply (H5 (lit "/d") (lit "new.bin") None (lit "max") example_world);
    reflexivity.
Defined.

Lemma enumerator_example :
  yield_xml_files ascii_decode (lit ".") example_world
  = (Ok (map (xml_candidate ascii_decode (lit "/d"))
           [lit "invoice.xml"; lit "c.txt"; lit "sub.xml"; lit "b.xml";
            lit "doc.pdf"]),
     example_world)
  /\ xml_candidate ascii_decode (lit "/d") (lit "invoice.xml") example_world
     = (Ok (Some (lit "/d/invoice.xml",
                  lit "<Allegati><NomeAttachment>doc</NomeAttachment><Attachment>QUJD</Attachment></Allegati>")),
        example_world)
  /\ xml_candidate ascii_decode (lit "/d") (lit "sub.xml") example_world
     = (Ok None, example_world).
Proof.
  destruct (yield_xml_files_candidates ascii_decode (lit ".") example_world
              [lit "d"] eq_refl) as (Hlist & _ & _ & _ & Hchild & _).
  split; [exact (proj1 (Hlist true eq_refl))|].
  split.
  - assert (file_name (lit "invoice.xml") = true) as Hi
      by (vm_compute; reflexivity).
    assert (check_path (os_path_join (lit "/d") (lit "invoice.xml")) = None)
      as Hc by (vm_compute; reflexivity).
    refine (proj1 (Hchild (lit "invoice.xml") true true eq_refl Hi Hc) true
              (lit "<Allegati><NomeAttachment>doc</NomeAttachment><Attachment>QUJD</Attachment></Allegati>")
              _ _ _ _);
      vm_compute; reflexivity.
  - assert (file_name (lit "sub.xml") = true) as Hi
      by (vm_compute; reflexivity).
    assert (check_path (os_path_join (lit "/d") (lit "sub.xml")) = None)
      as Hc by (vm_compute; reflexivity).
    refine (proj2 (Hchild (lit "sub.xml") true true eq_refl Hi Hc)
              true true _).
    vm_compute. reflexivity.
Defined.

Lemma write_policy_example :
  (exists w',
     write_attachment (lit "/d", lit "doc.pdf", lit "%PDF-new") None
       (lit "low") example_world = (Ok tt, w')
     /\ file_content w' (lit "/d/doc.pdf") = Some (lit "%PDF-new"))
  /\ (exists w',
        write_attachment (lit "/d", lit "doc.pdf", lit "%PDF-new") None
          (lit "max") example_world = (Ok tt, w')
        /\ w' = printed example_world
                  (lit "[Errno 17] File exists: '/d/doc.pdf'"))
  /\ (exists w',
        write_attachment (lit "/d", lit "new.bin", lit "ABCD") None
          (lit "max") example_world = (Ok tt, w')
        /\ file_content example_world (lit "/d/new.bin") = None
        /\ file_content w' (lit "/d/new.bin") = Some (lit "ABCD")
        /\ w_stderr w' = w_stderr example_world).
Proof.
  split; [|split].
  - destruct (write_attachment_policy (lit "/d", lit "doc.pdf", lit "%PDF-new")
                None (lit "low") example_world)
      as (w' & Hw & _ & Hlow & _).
    exists w'. split; [exact Hw|]. apply Hlow; reflexivity.
  - destruct (write_attachment_policy (lit "/d", lit "doc.pdf", lit "%PDF-new")
                None (lit "max") example_world)
      as (w' & Hw & _ & _ & Hmax & _).
    exists w'. split; [exact Hw|]. apply Hmax; [discriminate | reflexivity].
  - destruct (write_attachment_policy (lit "/d", lit "new.bin", lit "ABCD")
                None (lit "max") example_world)
      as (w' & Hw & _ & _ & _ & _ & Hnew & _).
    exists w'. split; [exact Hw|]. split; [reflexivity|].
    apply Hnew. vm_compute. reflexivity.
Defined.

Lemma exit_status_example :
  run ascii_lower ascii_decode (mkArgs (lit "/nope") None (lit "max"))
    example_world
  = (1%Z,
     printed example_world
       (lit "[Errno 2] No such file or directory: '/nope'"))
  /\ fst (run ascii_lower ascii_decode (mkArgs (lit ".") None (lit "max"))
            example_world) = 0%Z.
Proof.
  split.
  - apply (proj1 (exit_status_follows_listing ascii_lower ascii_decode
                    (mkArgs (lit "/nope") None (lit "max")) example_world)).
    reflexivity.
  - apply (proj1 (proj2 (exit_status_follows_listing ascii_lower ascii_decode
                           (mkArgs (lit ".") None (lit "max"))
                           example_world))
             (children example_fs [lit "d"])).
    reflexivity.
Defined.

Lemma after_padding_example :
  b64decode (lit "QQ==" ++ lit "QUJD") = Ok (lit "A").
Proof.
  assert (length (lit "A") mod 3 <> 0) as Hm by discriminate.
  exact (text_after_padding_is_ignored (lit "A") (lit "QUJD") eq_refl Hm
           eq_refl).
Defined.


Ltac not_in :=
  let H := fresh in
  intros H; cbn in H;
  repeat (destruct H as [H | H]; [discriminate H|]); exact H.

Lemma containers_example :
  fst (example_path, named_block) = example_path
  /\ exists pre w1 w2 w3 w4 w5 post,
       let after := close_text (lit "Allegati") w3 w4 w5 ++ post in
       example_document
       = pre ++ open_text (lit "Allegati") w1 w2
           ++ snd (example_path, named_block) ++ after
       /\ (all_space w1 = true /\ all_space w2 = true
           /\ all_space w3 = true /\ all_space w4 = true
           /\ all_space w5 = true)
       /\ forall a b, snd (example_path, named_block) = a ++ b -> b <> [] ->
            re_match (close_tag (lit "Allegati")) (b ++ after) = None.
Proof.
  apply (list_attachments_blocks_are_containers example_path
           example_document (example_path, named_block)).
  vm_compute. left. reflexivity.
Defined.

Lemma name_from_tag_example :
  attachment_name 0 example_path named_block = lit "doc"
  /\ field_of (lit "NomeAttachment") 60 named_block (lit "doc").
Proof.
  exact (name_from_tag_is_short_and_trimmed 0 example_path named_block
           (mkMatch named_block
              [(1, lit "</NomeAttachment><Attachment>QUJD</Attachment>");
               (0, lit "doc</NomeAttachment><Attachment>QUJD</Attachment>")]
              (lit "<Attachment>QUJD</Attachment>"))
           eq_refl).
Defined.

Lemma extension_from_tag_example :
  attachment_ext ascii_lower pdf_block (lit "ABC") = lit "txt"
  /\ field_of (lit "FormatoAttachment") 10 pdf_block (lit "TXT").
Proof.
  assert (firstn 5 (lit "ABC") <> lit "%PDF-") as H by discriminate.
  exact (extension_from_tag_is_short_and_trimmed ascii_lower pdf_block
           (lit "ABC")
           (mkMatch pdf_block
              [(1, lit "</FormatoAttachment><Attachment>JVBERi0xLjQ=</Attachment>");
               (0, lit "TXT</FormatoAttachment><Attachment>JVBERi0xLjQ=</Attachment>")]
              (lit "<Attachment>JVBERi0xLjQ=</Attachment>"))
           H eq_refl).
Defined.

Lemma payload_text_example :
  decode_payload payload_block = b64decode (lit "QUJD")
  /\ forallb (in_charset base64_set) (lit "QUJD") = true
  /\ exists pre w1 w2 w3 w4 w5 post,
       payload_block
       = pre ++ open_text (lit "Attachment") w1 w2 ++ lit "QUJD"
           ++ close_text (lit "Attachment") w3 w4 w5 ++ post
       /\ all_space w1 = true /\ all_space w2 = true
       /\ all_space w3 = true /\ all_space w4 = true
       /\ all_space w5 = true.
Proof.
  exact (payload_is_base64_text payload_block
           (mkMatch payload_block
              [(1, lit "</Attachment>"); (0, lit "QUJD</Attachment>")] [])
           eq_refl).
Defined.

Lemma foreign_character_example :
  let block :=
    lit "<NomeAttachment>x</NomeAttachment><Attachment>QUJD-w==</Attachment>"
  in
  re_search (regex allegato) block = None
  /\ decode_payload block = Raise NoneType_has_no_group
  /\ decode_block ascii_lower 0 (example_path, block)
     = [Print (error_line (attachment_name 0 example_path block)
                 (snd (os_path_split example_path)) NoneType_has_no_group)].
Proof.
  exact (foreign_character_hides_payload ascii_lower 0 example_path
           url_safe_element [] eq_refl eq_refl).
Defined.

Lemma wrapped_payload_example :
  b64decode wrapped_payload = Ok (lit "ABCD").
Proof.
  exact (proj2 (b64decode_skips_foreign_characters wrapped_payload eq_refl)
           (lit "ABCD") eq_refl eq_refl).
Defined.

Lemma decoded_bytes_example :
  is_bytes (lit "ABC") = true /\ 4 * length (lit "ABC") <= 3 * length (lit "QUJD").
Proof.
  exact (b64decode_gives_bytes (lit "QUJD") (lit "ABC") eq_refl).
Defined.

Lemma unpadded_payload_example :
  (exists b, b64decode (lit "QUJD") = Ok b
             /\ 4 * length b = 3 * length (lit "QUJD"))
  /\ exists msg, b64decode (lit "QUJ") = Raise (Exception binascii_Error msg).
Proof.
  split.
  - apply (proj1 (unpadded_payload_needs_full_groups (lit "QUJD") eq_refl)).
    reflexivity.
  - apply (proj2 (unpadded_payload_needs_full_groups (lit "QUJ") eq_refl)).
    discriminate.
Defined.

Lemma fallback_file_name_example :
  ~ In sep (attachment_name 1 example_path pdf_block)
  /\ exists root ext digits,
       attachment_name 1 example_path pdf_block
       = root ++ lit "_allegato_" ++ digits
       /\ snd (os_path_split example_path) = root ++ ext
       /\ digits <> [] /\ forallb is_decimal digits = true.
Proof.
  exact (fallback_name_is_a_file_name 1 example_path pdf_block eq_refl).
Defined.

Lemma fallback_extension_example :
  attachment_name 1 (lit "/d" ++ sep :: lit "invoice.2019" ++ extsep :: lit "xml")
    pdf_block
  = lit "invoice.2019_allegato_2"
  /\ attachment_name 0 (lit "/d" ++ sep :: repeat extsep 1 ++ lit "hidden")
       pdf_block
     = lit ".hidden_allegato_1".
Proof.
  destruct (fallback_name_drops_the_extension 1 (lit "/d") pdf_block eq_refl)
    as [H1 _].
  destruct (fallback_name_drops_the_extension 0 (lit "/d") pdf_block eq_refl)
    as [_ H2].
  split.
  - apply (H1 (lit "invoice.2019") (lit "xml")); try not_in. reflexivity.
  - apply (H2 1 (lit "hidden")); not_in.
Defined.

Lemma beside_the_document_example :
  os_path_split (lit "/d/invoice.xml") = (lit "/d", lit "invoice.xml")
  /\ outpath (lit "/d", lit "doc.formatoSconosciuto", lit "ABC") None
     = lit "/d/doc.formatoSconosciuto".
Proof.
  assert (~ In sep (lit "invoice.xml")) as Hi by not_in.
  destruct (attachments_go_beside_the_document ascii_decode ascii_lower
           (lit "/d") (lit ".") (lit "invoice.xml") example_world
           (lit "/d/invoice.xml",
            lit "<Allegati><NomeAttachment>doc</NomeAttachment><Attachment>QUJD</Attachment></Allegati>")
           example_world (lit "/d") (lit "doc.formatoSconosciuto") (lit "ABC")
           Hi eq_refl (or_introl eq_refl)) as (H1 & _ & H3).
  exact (conj H1 H3).
Defined.

Lemma absolute_paths_example :
  startswith [sep]
    (fst (lit "/d/invoice.xml",
          lit "<Allegati><NomeAttachment>doc</NomeAttachment><Attachment>QUJD</Attachment></Allegati>"))
  = true.
Proof.
  exact (yielded_paths_are_absolute ascii_decode (lit ".") example_world
           (map (xml_candidate ascii_decode (lit "/d"))
              [lit "invoice.xml"; lit "c.txt"; lit "sub.xml"; lit "b.xml";
               lit "doc.pdf"])
           example_world eq_refl eq_refl
           (xml_candidate ascii_decode (lit "/d") (lit "invoice.xml"))
           example_world _ example_world (or_introl eq_refl) eq_refl).
Defined.


Lemma write_target_example :
  w_cwd written_world = w_cwd example_world
  /\ (w_stderr written_world = w_stderr example_world
      \/ exists text, w_stderr written_world = w_stderr example_world ++ [text])
  /\ forall k,
       resolve example_world
         (outpath (lit "/d", lit "new.bin", lit "ABCD") None) <> Ok k ->
       lookup (w_fs written_world) k = lookup (w_fs example_world) k.
Proof.
  refine (proj2 (write_attachment_touches_the_target_only
                   (lit "/d", lit "new.bin", lit "ABCD") None (lit "max")
                   example_world (Ok tt) written_world _)).
  vm_compute. reflexivity.
Defined.

Lemma files_only_example :
  (forall k n,
     lookup (w_fs example_world) k = Some n ->
     exists n', lookup (w_fs world_after_run) k = Some n' /\ inode_kept n n')
  /\ (forall k,
        lookup (w_fs example_world) k = None ->
        lookup (w_fs world_after_run) k = None
        \/ exists data,
             lookup (w_fs world_after_run) k
             = Some (RegularFile true true data))
  /\ w_cwd world_after_run = w_cwd example_world
  /\ exists l, w_stderr world_after_run = w_stderr example_world ++ l.
Proof.
  apply (main_writes_files_only ascii_lower ascii_decode
           (mkArgs (lit ".") None (lit "max")) example_world (Ok tt)
           world_after_run).
  vm_compute. reflexivity.
Defined.

Lemma keeps_what_exists_example :
  lookup (w_fs world_after_run) [lit "d"; lit "doc.pdf"]
  = Some (RegularFile true true (lit "old")).
Proof.
  assert (lit "max" <> lit "low") as Hs by discriminate.
  refine (main_keeps_what_exists ascii_lower ascii_decode
            (mkArgs (lit ".") None (lit "max")) example_world (Ok tt)
            world_after_run Hs _ [lit "d"; lit "doc.pdf"] _ eq_refl).
  vm_compute. reflexivity.
Defined.

Lemma failed_main_example :
  w_fs (printed example_world
          (lit "[Errno 2] No such file or directory: '/nope'"))
  = example_fs
  /\ w_cwd (printed example_world
              (lit "[Errno 2] No such file or directory: '/nope'"))
     = lit "/d".
Proof.
  refine (failed_main_writes_nothing ascii_lower ascii_decode
            (mkArgs (lit "/nope") None (lit "max")) example_world
            (printed example_world
               (lit "[Errno 2] No such file or directory: '/nope'"))
            (SystemExit 1) _).
  vm_compute. reflexivity.
Defined.

Lemma absolute_name_example :
  exists f,
    decode_block ascii_lower 0 (example_path, absolute_name_block)
    = [Yield (lit "/d", f, lit "ABC")]
    /\ f = lit "/tmp/x" ++ lit "."
             ++ attachment_ext ascii_lower absolute_name_block (lit "ABC")
    /\ outpath (lit "/d", f, lit "ABC") (Some (lit "/out")) = f.
Proof.
  assert (lit "ABC" <> []) as Hne by discriminate.
  exact (absolute_name_leaves_the_directory ascii_lower 0 example_path
           absolute_name_block
           (mkMatch absolute_name_block
              [(1, lit "</NomeAttachment><Attachment>QUJD</Attachment>");
               (0, lit "/tmp/x</NomeAttachment><Attachment>QUJD</Attachment>")]
              (lit "<Attachment>QUJD</Attachment>"))
           (lit "ABC") (Some (lit "/out")) eq_refl eq_refl eq_refl Hne).
Defined.

Lemma same_target_example :
  write_attachment (lit "/d", lit "new.bin", lit "EFGH") None (lit "max")
    written_world
  = (Ok tt,
     printed written_world (exn_str (EEXIST (lit "/d/new.bin"))))
  /\ file_content
       (printed written_world (exn_str (EEXIST (lit "/d/new.bin"))))
       (lit "/d/new.bin")
     = Some (lit "ABCD").
Proof.
  assert (lit "max" <> lit "low") as Hs by discriminate.
  exact (proj1 (same_target_first_or_last_wins
                  (lit "/d", lit "new.bin", lit "ABCD")
                  (lit "/d", lit "new.bin", lit "EFGH") None (lit "max")
                  example_world written_world eq_refl eq_refl eq_refl) Hs).
Defined.

Lemma one_file_example :
  main ascii_lower ascii_decode (mkArgs (lit "c.txt") None (lit "max"))
    example_world
  = for_each
      (yield_decoded_attachment ascii_lower
         (list_attachments
            (lit "/d/c.txt",
             lit "<Allegati><Attachment>JVBERi0xLjQ=</Attachment></Allegati>")))
      (handle_event None (lit "max")) example_world.
Proof.
  exact (proj1 (main_on_one_file ascii_lower ascii_decode
                  (mkArgs (lit "c.txt") None (lit "max")) example_world
                  [lit "d"; lit "c.txt"] true true
                  (lit "<Allegati><Attachment>JVBERi0xLjQ=</Attachment></Allegati>")
                  eq_refl eq_refl)
           (lit "<Allegati><Attachment>JVBERi0xLjQ=</Attachment></Allegati>")
           eq_refl eq_refl).
Defined.

Lemma missing_path_example :
  lit "[Errno 2] No such file or directory: '/d/nope'"
  = lit "[Errno 2] No such file or directory: '" ++ lit "/d/nope" ++ lit "'"
  /\ run ascii_lower ascii_decode (mkArgs (lit "nope") None (lit "max"))
       example_world
     = (1%Z,
        printed example_world
          (lit "[Errno 2] No such file or directory: '" ++ lit "/d/nope"
             ++ lit "'")).
Proof.
  exact (missing_path_is_named ascii_lower ascii_decode
           (mkArgs (lit "nope") None (lit "max")) example_world
           (lit "[Errno 2] No such file or directory: '/d/nope'")
           eq_refl eq_refl).
Defined.

Lemma payload_failure_example :
  is_ascii (lit "QUJ") = true
  /\ exists msg,
       decode_payload unpadded_block = Raise (Exception binascii_Error msg).
Proof.
  destruct (found_payload_fails_in_two_ways unpadded_block
              (mkMatch unpadded_block
                 [(1, lit "</Attachment>"); (0, lit "QUJ</Attachment>")] [])
              (Exception binascii_Error (lit "Incorrect padding"))
              eq_refl eq_refl) as [(Ha & _) | (Ha & _)].
  - discriminate Ha.
  - split; [exact Ha|]. eexists. reflexivity.
Defined.


Lemma tidy_block_example :
  decode_block ascii_lower 0 (example_path, e_content invoice_container)
  = [Yield (lit "/d", lit "nota 1.txt", lit "ABCD")].
Proof.
  refine (tidy_block_is_decoded ascii_lower 0 example_path
            newline (lit "nota 1") newline (lit "TXT") newline
            wrapped_payload newline (lit "ABCD") _ _ _ _ _ _ _ _ _ _);
    try (vm_compute; reflexivity).
  discriminate.
Defined.

Lemma invoice_example :
  exists (w' : world) (kt : key),
    run ascii_lower ascii_decode
      (mkArgs (lit "fattura.xml") None (lit "max")) invoice_world
    = (0%Z, w')
    /\ resolve invoice_world (lit "/d/nota 1.txt") = Ok kt
    /\ file_content w' (lit "/d/nota 1.txt") = Some (lit "ABCD")
    /\ w_stderr w' = w_stderr invoice_world
    /\ forall k', k' <> kt ->
                  lookup (w_fs w') k' = lookup (w_fs invoice_world) k'.
Proof.
  refine (well_formed_document_is_extracted ascii_lower ascii_decode
            (mkArgs (lit "fattura.xml") None (lit "max")) invoice_world
            [lit "d"; lit "fattura.xml"] false
            (document [invoice_container] (lit "</Fattura>"))
            invoice_container (lit "</Fattura>")
            newline (lit "nota 1") newline (lit "TXT") newline
            wrapped_payload newline (lit "ABCD")
            _ _ _ _ _ _ _ _ _ _ _ _ _ _ _ _ _);
    try (vm_compute; reflexivity).
  discriminate.
Defined.

